(** * LineBuffer: the cursor-addressed text buffer of reedline-ts

    A shallow embedding of [src/core/line-buffer.ts].  A JavaScript string
    is a sequence of UTF-16 code units, so the buffer is a [list Z]; the
    insertion point is a JavaScript number that the class never clamps,
    so it is a [Z] (it may be negative or exceed the length).  Sums and
    differences of numbers are exact as long as operands and result are
    safe integers ([Js.isSafeInteger]); statements about cursors and
    arguments that the text does not bound carry that bound.
    Every method of the class is a function on the record [LineBuffer];
    methods that can throw return an [option]. *)

From Stdlib Require Import List ZArith Lia Bool String Ascii.
Import ListNotations.
Open Scope Z_scope.

(** ** The JavaScript string primitives the class relies on *)

Module Js.

Definition JsString := list Z.

(** Code units of an ASCII literal. *)
Fixpoint lit (s : String.string) : JsString :=
  match s with
  | EmptyString => []
  | String a r => Z.of_nat (nat_of_ascii a) :: lit r
  end.

Definition length (s : JsString) : Z := Z.of_nat (List.length s).

(** An index argument of [substring]: values below 0 become 0, values
    above the length become the length. *)
Definition clampIndex (s : JsString) (n : Z) : nat :=
  Nat.min (Z.to_nat n) (List.length s).

(** [s.substring(a, b)]: both arguments are clamped, then swapped when
    the first exceeds the second. *)
Definition substring (s : JsString) (a b : Z) : JsString :=
  let a' := clampIndex s a in
  let b' := clampIndex s b in
  let lo := Nat.min a' b' in
  let hi := Nat.max a' b' in
  firstn (hi - lo) (skipn lo s).

(** [s.substring(a)]. *)
Definition substringFrom (s : JsString) (a : Z) : JsString :=
  skipn (clampIndex s a) s.

Fixpoint strEq (s t : JsString) : bool :=
  match s, t with
  | [], [] => true
  | c :: s', d :: t' => (c =? d) && strEq s' t'
  | _, _ => false
  end.

Fixpoint isPrefix (p s : JsString) : bool :=
  match p, s with
  | [], _ => true
  | c :: p', d :: s' => (c =? d) && isPrefix p' s'
  | _ :: _, [] => false
  end.

(** [s.indexOf(pat)]: the least offset at which [pat] occurs, or -1. *)
Fixpoint indexOf (s pat : JsString) : Z :=
  if isPrefix pat s then 0
  else match s with
       | [] => -1
       | _ :: t => let r := indexOf t pat in if r <? 0 then -1 else r + 1
       end.

(** The greatest offset [<= k] at which [pat] occurs, or -1. *)
Fixpoint lastOccurrenceUpTo (s pat : JsString) (k : nat) : Z :=
  if isPrefix pat (skipn k s) then Z.of_nat k
  else match k with
       | O => -1
       | S k' => lastOccurrenceUpTo s pat k'
       end.

(** [s.lastIndexOf(pat)] and [s.lastIndexOf(pat, from)]. *)
Definition lastIndexOf (s pat : JsString) : Z :=
  lastOccurrenceUpTo s pat (List.length s).

Definition lastIndexOfFrom (s pat : JsString) (from : Z) : Z :=
  lastOccurrenceUpTo s pat (clampIndex s from).

(** [s.split(sep)] for a separator of one code unit (the class only
    splits on a line feed). *)
Fixpoint splitOn (sep : Z) (s : JsString) : list JsString :=
  match s with
  | [] => [[]]
  | c :: t =>
      if c =? sep then [] :: splitOn sep t
      else match splitOn sep t with
           | [] => [[c]]
           | w :: r => (c :: w) :: r
           end
  end.

(** [s.charCodeAt(i)]; [None] stands for NaN. *)
Definition charCodeAt (s : JsString) (i : Z) : option Z :=
  if i <? 0 then None else nth_error s (Z.to_nat i).

(** [s[i]]; [None] stands for undefined. *)
Definition charAt (s : JsString) (i : Z) : option JsString :=
  match charCodeAt s i with
  | Some c => Some [c]
  | None => None
  end.

Definition isHighSurrogate (c : Z) : bool := (55296 <=? c) && (c <=? 56319).
Definition isLowSurrogate (c : Z) : bool := (56320 <=? c) && (c <=? 57343).

(** [Array.from(s)]: the string iterator yields code points, a high
    surrogate followed by a low one being a single two-unit element. *)
Fixpoint arrayFrom (s : JsString) : list JsString :=
  match s with
  | [] => []
  | c :: t =>
      match t with
      | d :: t' =>
          if isHighSurrogate c && isLowSurrogate d
          then [c; d] :: arrayFrom t'
          else [c] :: arrayFrom t
      | [] => [[c]]
      end
  end.

(** [arr.findIndex(x => x === v)], -1 when absent. *)
Fixpoint findIndex (l : list Z) (v : Z) : Z :=
  match l with
  | [] => -1
  | x :: r =>
      if x =? v then 0
      else let k := findIndex r v in if k <? 0 then -1 else k + 1
  end.

(** [arr[i]] for an index the caller has checked to be in range. *)
Definition item (l : list Z) (i : Z) : Z := nth (Z.to_nat i) l 0.

(** *** Regular expressions (no [u] flag: they see code units) *)

(** [\w] *)
Definition isWordChar (c : Z) : bool :=
  ((48 <=? c) && (c <=? 57)) || ((65 <=? c) && (c <=? 90))
  || (c =? 95) || ((97 <=? c) && (c <=? 122)).

(** [\s]: WhiteSpace and LineTerminator of ECMAScript. *)
Definition isSpaceChar (c : Z) : bool :=
  ((9 <=? c) && (c <=? 13)) || (c =? 32) || (c =? 160) || (c =? 5760)
  || ((8192 <=? c) && (c <=? 8202)) || (c =? 8232) || (c =? 8233)
  || (c =? 8239) || (c =? 8287) || (c =? 12288) || (c =? 65279).

(** The longest prefix of [s] whose units satisfy [p], with the rest. *)
Fixpoint span (p : Z -> bool) (s : JsString) : JsString * JsString :=
  match s with
  | [] => ([], [])
  | c :: t =>
      if p c then let '(run, rest) := span p t in (c :: run, rest)
      else ([], s)
  end.

(** One attempt of [/\b\w+|\s+|[^\w\s]/] at a position; [prev] is the
    unit before the position (for [\b]), [s] the text from it on.  The
    alternatives are tried in order and the quantifiers are greedy. *)
Definition matchWordTokenAt (prev : option Z) (s : JsString)
  : option (JsString * JsString) :=
  match s with
  | [] => None
  | c :: _ =>
      let prevIsWord := match prev with Some q => isWordChar q | None => false end in
      if negb (Bool.eqb prevIsWord (isWordChar c)) && isWordChar c
      then Some (span isWordChar s)
      else if isSpaceChar c then Some (span isSpaceChar s)
      else if negb (isWordChar c) && negb (isSpaceChar c)
           then Some ([c], tl s)
           else None
  end.

(** [text.match(/\b\w+|\s+|[^\w\s]/g) || []]: successive matches, the
    search resuming where the previous match ended and moving one unit
    forward where no alternative matches. *)
Fixpoint matchWordTokens (fuel : nat) (prev : option Z) (s : JsString)
  : list JsString :=
  match fuel with
  | O => []
  | S fuel' =>
      match s with
      | [] => []
      | c :: t =>
          match matchWordTokenAt prev s with
          | Some (m, rest) => m :: matchWordTokens fuel' (Some (last m c)) rest
          | None => matchWordTokens fuel' (Some c) t
          end
      end
  end.

(** [/^\s*$/.test(s)] *)
Definition isAllSpace (s : JsString) : bool := forallb isSpaceChar s.

(** [Number.MAX_SAFE_INTEGER], 2^53 - 1, and [Number.isSafeInteger] on
    an integer: up to this magnitude every integer is a number, and a
    sum or difference of numbers whose exact value is that small is
    computed without rounding. *)
Definition maxSafeInteger : Z := 9007199254740991.

Definition isSafeInteger (z : Z) : Prop := Z.abs z <= maxSafeInteger.

End Js.

Import Js.

(** ** The class *)

Record LineBuffer := mkLineBuffer {
  lines : JsString;
  insertionPoint : Z
}.

Module LineBuffer.

(** [constructor] / [LineBuffer.new()] *)
Definition new : LineBuffer := mkLineBuffer [] 0.

Definition len (b : LineBuffer) : Z := Js.length (lines b).

Definition isEmpty (b : LineBuffer) : bool := len b =? 0.

Definition getInsertionPoint (b : LineBuffer) : Z := insertionPoint b.

Definition setInsertionPoint (offset : Z) (b : LineBuffer) : LineBuffer :=
  mkLineBuffer (lines b) offset.

Definition getBuffer (b : LineBuffer) : JsString := lines b.

Definition setBuffer (buffer : JsString) (b : LineBuffer) : LineBuffer :=
  mkLineBuffer buffer (Js.length buffer).

(** *** Private helpers *)

Fixpoint runningIndices (currentIndex : Z) (chars : list JsString) : list Z :=
  match chars with
  | [] => []
  | char :: r =>
      let currentIndex' := currentIndex + Js.length char in
      currentIndex' :: runningIndices currentIndex' r
  end.

Definition getGraphemeIndices (b : LineBuffer) : list Z :=
  0 :: runningIndices 0 (arrayFrom (lines b)).

Fixpoint indexMatches (currentIndex : Z) (matches : list JsString)
  : list (Z * JsString) :=
  match matches with
  | [] => []
  | m :: r => (currentIndex, m) :: indexMatches (currentIndex + Js.length m) r
  end.

Definition splitWordBoundaries (text : JsString) : list (Z * JsString) :=
  indexMatches 0 (matchWordTokens (S (List.length text)) None text).

Definition isWhitespaceStr (s : JsString) : bool := isAllSpace s.

(** *** Validity *)

Definition isValid (b : LineBuffer) : bool :=
  if len b <? insertionPoint b then false
  else existsb (fun index => index =? insertionPoint b) (getGraphemeIndices b)
       || (insertionPoint b =? len b).

(** *** Insertion *)

Definition insertStr (string : JsString) (b : LineBuffer) : LineBuffer :=
  mkLineBuffer
    (substring (lines b) 0 (insertionPoint b) ++ string
       ++ substringFrom (lines b) (insertionPoint b))
    (insertionPoint b + Js.length string).

Definition insertChar (c : JsString) (b : LineBuffer) : LineBuffer :=
  mkLineBuffer
    (substring (lines b) 0 (insertionPoint b) ++ c
       ++ substringFrom (lines b) (insertionPoint b))
    (insertionPoint b + Js.length c).

Definition insertNewline (b : LineBuffer) : LineBuffer := insertChar [10] b.

(** [LineBuffer.from(input)] *)
Definition from (input : JsString) : LineBuffer := insertStr input new.

(** *** The two range primitives *)

Definition clearRangeSafe (start end_ : Z) (b : LineBuffer) : LineBuffer :=
  let '(start, end_) := if end_ <? start then (end_, start) else (start, end_) in
  if len b <=? start then b
  else
    let end_ := Z.min end_ (len b) in
    let lines' := substring (lines b) 0 start ++ substringFrom (lines b) end_ in
    let ip := insertionPoint b in
    mkLineBuffer lines'
      (if start <? ip
       then if end_ <? ip then ip - (end_ - start) else start
       else ip).

Definition replaceRange (start end_ : Z) (replaceWith : JsString)
  (b : LineBuffer) : LineBuffer :=
  let '(start, end_) := if end_ <? start then (end_, start) else (start, end_) in
  if len b <=? start then b
  else
    let end_ := Z.min end_ (len b) in
    let lines' :=
      substring (lines b) 0 start ++ replaceWith ++ substringFrom (lines b) end_ in
    let ip := insertionPoint b in
    mkLineBuffer lines'
      (if start <? ip
       then if end_ <? ip
            then start + Js.length replaceWith + (ip - end_)
            else start + Js.length replaceWith
       else ip).

(** *** Line queries *)

Definition line (b : LineBuffer) : Z :=
  Z.of_nat (List.length (splitOn 10 (substring (lines b) 0 (insertionPoint b)))) - 1.

Definition numLines (b : LineBuffer) : Z :=
  Z.of_nat (List.length (splitOn 10 (lines b))).

Definition findCurrentLineEnd (b : LineBuffer) : Z :=
  let fromCursor := substringFrom (lines b) (insertionPoint b) in
  let newlineIndex := indexOf fromCursor [10] in
  if newlineIndex =? -1 then len b
  else
    let absoluteIndex := newlineIndex + insertionPoint b in
    if (0 <? absoluteIndex)
       && match charCodeAt (lines b) (absoluteIndex - 1) with
          | Some u => u =? 13
          | None => false
          end
    then absoluteIndex - 1
    else absoluteIndex.

(** *** Grapheme positions *)

Definition graphemeRightIndexFromPos (pos : Z) (b : LineBuffer) : Z :=
  let graphemeIndices := getGraphemeIndices b in
  let currentIndex := findIndex graphemeIndices pos in
  if (currentIndex =? -1)
     || (Z.of_nat (List.length graphemeIndices) <=? currentIndex + 1)
  then len b
  else item graphemeIndices (currentIndex + 1).

Definition graphemeRightIndex (b : LineBuffer) : Z :=
  let graphemeIndices := getGraphemeIndices b in
  let currentIndex := findIndex graphemeIndices (insertionPoint b) in
  if (currentIndex =? -1)
     || (Z.of_nat (List.length graphemeIndices) <=? currentIndex + 1)
  then len b
  else item graphemeIndices (currentIndex + 1).

Definition graphemeLeftIndex (b : LineBuffer) : Z :=
  let graphemeIndices := getGraphemeIndices b in
  let currentIndex := findIndex graphemeIndices (insertionPoint b) in
  if currentIndex <=? 0 then 0
  else item graphemeIndices (currentIndex - 1).

Definition graphemeRight (b : LineBuffer) : JsString :=
  substring (lines b) (insertionPoint b) (graphemeRightIndex b).

Definition graphemeLeft (b : LineBuffer) : JsString :=
  substring (lines b) (graphemeLeftIndex b) (insertionPoint b).

(** *** Word positions

    Each loop of the class over the [index, word] pairs is a recursive
    function returning [Some] at the loop's [return] and [None] when the
    loop runs to its end. *)

Fixpoint firstWordEnd (ip : Z) (words : list (Z * JsString)) : option Z :=
  match words with
  | [] => None
  | (index, word) :: r =>
      if negb (isWhitespaceStr word) then Some (ip + index + Js.length word)
      else firstWordEnd ip r
  end.

Definition wordRightIndex (b : LineBuffer) : Z :=
  let fromCursor := substringFrom (lines b) (insertionPoint b) in
  match firstWordEnd (insertionPoint b) (splitWordBoundaries fromCursor) with
  | Some r => r
  | None => len b
  end.

Fixpoint wordEndAfterSpace (ip : Z) (foundWs : bool) (words : list (Z * JsString))
  : option Z :=
  match words with
  | [] => None
  | (index, word) :: r =>
      let foundWs := foundWs || isWhitespaceStr word in
      if foundWs && negb (isWhitespaceStr word)
      then Some (ip + index + Js.length word)
      else wordEndAfterSpace ip foundWs r
  end.

Definition bigWordRightIndex (b : LineBuffer) : Z :=
  let fromCursor := substringFrom (lines b) (insertionPoint b) in
  match wordEndAfterSpace (insertionPoint b) false (splitWordBoundaries fromCursor) with
  | Some r => r
  | None => len b
  end.

Fixpoint spaceAfterWord (ip : Z) (foundNonWs : bool) (words : list (Z * JsString))
  : option Z :=
  match words with
  | [] => None
  | (index, word) :: r =>
      if negb (isWhitespaceStr word) then spaceAfterWord ip true r
      else if foundNonWs then Some (ip + index)
      else spaceAfterWord ip foundNonWs r
  end.

Definition wordRightEndIndex (b : LineBuffer) : Z :=
  let fromCursor := substringFrom (lines b) (insertionPoint b) in
  match spaceAfterWord (insertionPoint b) false (splitWordBoundaries fromCursor) with
  | Some r => r
  | None => len b
  end.

Definition bigWordRightEndIndex (b : LineBuffer) : Z :=
  let fromCursor := substringFrom (lines b) (insertionPoint b) in
  match spaceAfterWord (insertionPoint b) false (splitWordBoundaries fromCursor) with
  | Some r => r
  | None => len b
  end.

Fixpoint firstWordStart (base : Z) (words : list (Z * JsString)) : option Z :=
  match words with
  | [] => None
  | (index, word) :: r =>
      if negb (isWhitespaceStr word) then Some (base + index)
      else firstWordStart base r
  end.

Definition wordRightStartIndex (b : LineBuffer) : Z :=
  let fromCursor := substringFrom (lines b) (insertionPoint b) in
  match firstWordStart (insertionPoint b) (splitWordBoundaries fromCursor) with
  | Some r => r
  | None => len b
  end.

Fixpoint wordStartAfterSpace (base : Z) (foundWs : bool)
  (words : list (Z * JsString)) : option Z :=
  match words with
  | [] => None
  | (index, word) :: r =>
      let foundWs := foundWs || isWhitespaceStr word in
      if foundWs && negb (isWhitespaceStr word) then Some (base + index)
      else wordStartAfterSpace base foundWs r
  end.

Definition bigWordRightStartIndex (b : LineBuffer) : Z :=
  let fromCursor := substringFrom (lines b) (insertionPoint b) in
  match wordStartAfterSpace (insertionPoint b) false (splitWordBoundaries fromCursor) with
  | Some r => r
  | None => len b
  end.

(** The leftward loops run from the last pair to the first. *)
Definition wordLeftIndex (b : LineBuffer) : Z :=
  let beforeCursor := substring (lines b) 0 (insertionPoint b) in
  match firstWordStart 0 (rev (splitWordBoundaries beforeCursor)) with
  | Some r => r
  | None => 0
  end.

Definition bigWordLeftIndex (b : LineBuffer) : Z :=
  let beforeCursor := substring (lines b) 0 (insertionPoint b) in
  match wordStartAfterSpace 0 false (rev (splitWordBoundaries beforeCursor)) with
  | Some r => r
  | None => 0
  end.

(** [fromCursor.search(/\s/)] *)
Fixpoint searchSpace (s : JsString) : Z :=
  match s with
  | [] => -1
  | c :: t =>
      if isSpaceChar c then 0
      else let k := searchSpace t in if k <? 0 then -1 else k + 1
  end.

Definition nextWhitespace (b : LineBuffer) : Z :=
  let whitespaceIndex := searchSpace (substringFrom (lines b) (insertionPoint b)) in
  if whitespaceIndex =? -1 then len b else insertionPoint b + whitespaceIndex.

Definition onWhitespace (b : LineBuffer) : bool :=
  if len b <=? insertionPoint b then false
  else match charCodeAt (lines b) (insertionPoint b) with
       | Some c => isSpaceChar c
       | None => false
       end.

Definition currentWordRange (b : LineBuffer) : Z * Z :=
  (wordLeftIndex b, wordRightIndex b).

Definition currentLineRange (b : LineBuffer) : Z * Z :=
  let beforeCursor := substring (lines b) 0 (insertionPoint b) in
  (lastIndexOf beforeCursor [10] + 1, findCurrentLineEnd b).

(** *** Navigation *)

(** [this.insertionPoint = p] *)
Definition moveTo (p : Z) (b : LineBuffer) : LineBuffer := mkLineBuffer (lines b) p.

Definition moveToStart (b : LineBuffer) : LineBuffer := moveTo 0 b.

Definition moveToLineStart (b : LineBuffer) : LineBuffer :=
  let beforeCursor := substring (lines b) 0 (insertionPoint b) in
  let lastNewline := lastIndexOf beforeCursor [10] in
  moveTo (if lastNewline =? -1 then 0 else lastNewline + 1) b.

Definition moveToLineEnd (b : LineBuffer) : LineBuffer := moveTo (findCurrentLineEnd b) b.
Definition moveToEnd (b : LineBuffer) : LineBuffer := moveTo (len b) b.
Definition moveRight (b : LineBuffer) : LineBuffer := moveTo (graphemeRightIndex b) b.
Definition moveLeft (b : LineBuffer) : LineBuffer := moveTo (graphemeLeftIndex b) b.
Definition moveWordLeft (b : LineBuffer) : LineBuffer := moveTo (wordLeftIndex b) b.
Definition moveBigWordLeft (b : LineBuffer) : LineBuffer := moveTo (bigWordLeftIndex b) b.
Definition moveWordRight (b : LineBuffer) : LineBuffer := moveTo (wordRightIndex b) b.
Definition moveWordRightStart (b : LineBuffer) : LineBuffer :=
  moveTo (wordRightStartIndex b) b.
Definition moveBigWordRightStart (b : LineBuffer) : LineBuffer :=
  moveTo (bigWordRightStartIndex b) b.
Definition moveWordRightEnd (b : LineBuffer) : LineBuffer :=
  moveTo (wordRightEndIndex b) b.
Definition moveBigWordRightEnd (b : LineBuffer) : LineBuffer :=
  moveTo (bigWordRightEndIndex b) b.

Definition moveLineUp (b : LineBuffer) : LineBuffer :=
  let beforeCursor := substring (lines b) 0 (insertionPoint b) in
  let lines_ := splitOn 10 beforeCursor in
  if Z.of_nat (List.length lines_) <=? 1 then b
  else
    let currentLineIndex := Z.of_nat (List.length lines_) - 1 in
    let currentLineStart := lastIndexOf beforeCursor [10] + 1 in
    let currentLineOffset := insertionPoint b - currentLineStart in
    let targetLine := nth (Z.to_nat (currentLineIndex - 1)) lines_ [] in
    let targetLineStart := lastIndexOfFrom beforeCursor [10] (currentLineStart - 2) + 1 in
    let newOffset := Z.min currentLineOffset (Js.length targetLine) in
    moveTo (targetLineStart + newOffset) b.

Definition moveLineDown (b : LineBuffer) : LineBuffer :=
  let afterCursor := substringFrom (lines b) (insertionPoint b) in
  let lines_ := splitOn 10 afterCursor in
  if Z.of_nat (List.length lines_) <=? 1 then b
  else
    let beforeCursor := substring (lines b) 0 (insertionPoint b) in
    let currentLineStart := lastIndexOf beforeCursor [10] + 1 in
    let currentLineOffset := insertionPoint b - currentLineStart in
    let nextLineStart := insertionPoint b + Js.length (nth 0 lines_ []) + 1 in
    let nextLine := nth 1 lines_ [] in
    let newOffset := Z.min currentLineOffset (Js.length nextLine) in
    moveTo (nextLineStart + newOffset) b.

Definition isCursorAtFirstLine (b : LineBuffer) : bool := line b =? 0.
Definition isCursorAtLastLine (b : LineBuffer) : bool := line b =? numLines b - 1.

(** *** Deletion *)

Definition clear (b : LineBuffer) : LineBuffer := mkLineBuffer [] 0.

Definition clearToEnd (b : LineBuffer) : LineBuffer :=
  mkLineBuffer (substring (lines b) 0 (insertionPoint b)) (insertionPoint b).

Definition clearToLineEnd (b : LineBuffer) : LineBuffer :=
  let lineEnd := findCurrentLineEnd b in
  mkLineBuffer
    (substring (lines b) 0 (insertionPoint b) ++ substringFrom (lines b) lineEnd)
    (insertionPoint b).

Definition clearToInsertionPoint (b : LineBuffer) : LineBuffer :=
  mkLineBuffer (substringFrom (lines b) (insertionPoint b)) 0.

Definition deleteLeftGrapheme (b : LineBuffer) : LineBuffer :=
  let leftIndex := graphemeLeftIndex b in
  clearRangeSafe leftIndex (insertionPoint b) b.

Definition deleteRightGrapheme (b : LineBuffer) : LineBuffer :=
  let rightIndex := graphemeRightIndex b in
  clearRangeSafe (insertionPoint b) rightIndex b.

Definition deleteWordLeft (b : LineBuffer) : LineBuffer :=
  let leftIndex := wordLeftIndex b in
  clearRangeSafe leftIndex (insertionPoint b) b.

Definition deleteWordRight (b : LineBuffer) : LineBuffer :=
  let rightIndex := wordRightIndex b in
  clearRangeSafe (insertionPoint b) rightIndex b.

(** *** Character search; [None] is the [null] result *)

Definition findCharRight (c : JsString) (currentLine : bool) (b : LineBuffer)
  : option Z :=
  let searchStart := insertionPoint b in
  let searchEnd := if currentLine then findCurrentLineEnd b else len b in
  let searchText := substring (lines b) searchStart searchEnd in
  let index := indexOf searchText c in
  if index =? -1 then None else Some (searchStart + index).

Definition findCharLeft (c : JsString) (currentLine : bool) (b : LineBuffer)
  : option Z :=
  let searchEnd := insertionPoint b in
  let searchStart :=
    if currentLine
    then lastIndexOf (substring (lines b) 0 (insertionPoint b)) [10] + 1
    else 0 in
  let searchText := substring (lines b) searchStart searchEnd in
  let index := lastIndexOf searchText c in
  if index =? -1 then None else Some (searchStart + index).

(** The four moves return the new insertion point, which is the
    [insertionPoint] of the state given here. *)
Definition moveRightUntil (c : JsString) (currentLine : bool) (b : LineBuffer)
  : LineBuffer :=
  match findCharRight c currentLine b with
  | Some found => moveTo found b
  | None => b
  end.

Definition moveRightBefore (c : JsString) (currentLine : bool) (b : LineBuffer)
  : LineBuffer :=
  match findCharRight c currentLine b with
  | Some found => moveTo found b
  | None => b
  end.

Definition moveLeftUntil (c : JsString) (currentLine : bool) (b : LineBuffer)
  : LineBuffer :=
  match findCharLeft c currentLine b with
  | Some found => moveTo found b
  | None => b
  end.

Definition moveLeftBefore (c : JsString) (currentLine : bool) (b : LineBuffer)
  : LineBuffer :=
  match findCharLeft c currentLine b with
  | Some found => moveTo found b
  | None => b
  end.

Definition deleteRightUntilChar (c : JsString) (currentLine : bool)
  (b : LineBuffer) : LineBuffer :=
  match findCharRight c currentLine b with
  | Some found => clearRangeSafe (insertionPoint b) found b
  | None => b
  end.

Definition deleteRightBeforeChar (c : JsString) (currentLine : bool)
  (b : LineBuffer) : LineBuffer :=
  match findCharRight c currentLine b with
  | Some found => clearRangeSafe (insertionPoint b) found b
  | None => b
  end.

Definition deleteLeftUntilChar (c : JsString) (currentLine : bool)
  (b : LineBuffer) : LineBuffer :=
  match findCharLeft c currentLine b with
  | Some found => clearRangeSafe found (insertionPoint b) b
  | None => b
  end.

Definition deleteLeftBeforeChar (c : JsString) (currentLine : bool)
  (b : LineBuffer) : LineBuffer :=
  match findCharLeft c currentLine b with
  | Some found => clearRangeSafe found (insertionPoint b) b
  | None => b
  end.

(** *** Swaps *)

(** A string is truthy when it is not empty. *)
Definition truthy (s : JsString) : bool :=
  match s with [] => false | _ :: _ => true end.

Definition swapWords (b : LineBuffer) : LineBuffer :=
  let '(currentStart, currentEnd) := currentWordRange b in
  let currentWord := substring (lines b) currentStart currentEnd in
  let nextWordStart := wordRightStartIndex b in
  let nextWordEnd := wordRightIndex b in
  let nextWord := substring (lines b) nextWordStart nextWordEnd in
  if nextWordStart <? len b
  then replaceRange currentStart currentEnd nextWord
         (replaceRange nextWordStart nextWordEnd currentWord b)
  else b.

Definition swapGraphemes (b : LineBuffer) : LineBuffer :=
  let rightIndex := graphemeRightIndex b in
  if len b <=? rightIndex then b
  else
    let leftGrapheme := graphemeLeft b in
    let rightGrapheme := graphemeRight b in
    if truthy leftGrapheme && truthy rightGrapheme
    then
      let leftIndex := graphemeLeftIndex b in
      let b1 := replaceRange leftIndex (insertionPoint b) rightGrapheme b in
      replaceRange (insertionPoint b1) rightIndex leftGrapheme b1
    else b.

(** *** Matching pairs

    The loop of [findMatchingPair] from offset [i] on: [stack] holds the
    offsets pushed and not yet popped, the most recent first; [rest] is
    the text from [i] on. *)

Fixpoint scanPairs (leftChar rightChar : JsString) (cursor : Z)
  (i : Z) (stack : list Z) (rest : JsString) : option (Z * Z) :=
  match rest with
  | [] => None
  | char :: rest' =>
      if strEq [char] leftChar
      then scanPairs leftChar rightChar cursor (i + 1) (i :: stack) rest'
      else if strEq [char] rightChar
      then match stack with
           | [] => scanPairs leftChar rightChar cursor (i + 1) [] rest'
           | leftIndex :: stack' =>
               if i =? cursor then Some (leftIndex, i)
               else if leftIndex =? cursor then Some (leftIndex, i)
               else scanPairs leftChar rightChar cursor (i + 1) stack' rest'
           end
      else scanPairs leftChar rightChar cursor (i + 1) stack rest'
  end.

Definition findMatchingPair (leftChar rightChar : JsString) (cursor : Z)
  (b : LineBuffer) : option (Z * Z) :=
  scanPairs leftChar rightChar cursor 0 [] (lines b).

(** [assertValid] throws when the buffer is not valid. *)
Definition assertValid (b : LineBuffer) : option unit :=
  if isValid b then Some tt else None.

(** *** Case transforms

    [String.prototype.toUpperCase] and [toLowerCase] are the full
    Unicode mappings of the runtime; they are parameters here. *)

Section CaseTransforms.

Variables toUpperCase toLowerCase : JsString -> JsString.

Definition uppercaseWord (b : LineBuffer) : LineBuffer :=
  let '(start, end_) := currentWordRange b in
  let word := substring (lines b) start end_ in
  replaceRange start end_ (toUpperCase word) b.

Definition lowercaseWord (b : LineBuffer) : LineBuffer :=
  let '(start, end_) := currentWordRange b in
  let word := substring (lines b) start end_ in
  replaceRange start end_ (toLowerCase word) b.

(** With a negative insertion point [this.lines[...]] is undefined and
    the method call on it throws: the result is [None]. *)
Definition switchcaseChar (b : LineBuffer) : option LineBuffer :=
  if len b <=? insertionPoint b then Some b
  else match charAt (lines b) (insertionPoint b) with
       | None => None
       | Some char =>
           let newChar :=
             if strEq char (toUpperCase char) then toLowerCase char
             else toUpperCase char in
           Some (replaceRange (insertionPoint b) (insertionPoint b + 1) newChar b)
       end.

Definition capitalizeChar (b : LineBuffer) : option LineBuffer :=
  if len b <=? insertionPoint b then Some b
  else match charAt (lines b) (insertionPoint b) with
       | None => None
       | Some char =>
           let newChar := toUpperCase char in
           Some (moveRight
                   (replaceRange (insertionPoint b) (insertionPoint b + 1) newChar b))
       end.

(** *** The mutating interface

    One constructor per public mutating method, [setInsertionPoint]
    left out. *)

Inductive Op : Type :=
| OSetBuffer (buffer : JsString)
| OMoveToStart | OMoveToLineStart | OMoveToLineEnd | OMoveToEnd
| OMoveRight | OMoveLeft
| OMoveWordLeft | OMoveBigWordLeft | OMoveWordRight
| OMoveWordRightStart | OMoveBigWordRightStart
| OMoveWordRightEnd | OMoveBigWordRightEnd
| OInsertChar (c : JsString) | OInsertStr (s : JsString) | OInsertNewline
| OClear | OClearToEnd | OClearToLineEnd | OClearToInsertionPoint
| OClearRangeSafe (start end_ : Z)
| OReplaceRange (start end_ : Z) (replaceWith : JsString)
| OUppercaseWord | OLowercaseWord | OSwitchcaseChar | OCapitalizeChar
| ODeleteLeftGrapheme | ODeleteRightGrapheme | ODeleteWordLeft | ODeleteWordRight
| OSwapWords | OSwapGraphemes
| OMoveLineUp | OMoveLineDown
| OMoveRightUntil (c : JsString) (currentLine : bool)
| OMoveRightBefore (c : JsString) (currentLine : bool)
| OMoveLeftUntil (c : JsString) (currentLine : bool)
| OMoveLeftBefore (c : JsString) (currentLine : bool)
| ODeleteRightUntilChar (c : JsString) (currentLine : bool)
| ODeleteRightBeforeChar (c : JsString) (currentLine : bool)
| ODeleteLeftUntilChar (c : JsString) (currentLine : bool)
| ODeleteLeftBeforeChar (c : JsString) (currentLine : bool).

Definition run (op : Op) (b : LineBuffer) : option LineBuffer :=
  match op with
  | OSetBuffer buffer => Some (setBuffer buffer b)
  | OMoveToStart => Some (moveToStart b)
  | OMoveToLineStart => Some (moveToLineStart b)
  | OMoveToLineEnd => Some (moveToLineEnd b)
  | OMoveToEnd => Some (moveToEnd b)
  | OMoveRight => Some (moveRight b)
  | OMoveLeft => Some (moveLeft b)
  | OMoveWordLeft => Some (moveWordLeft b)
  | OMoveBigWordLeft => Some (moveBigWordLeft b)
  | OMoveWordRight => Some (moveWordRight b)
  | OMoveWordRightStart => Some (moveWordRightStart b)
  | OMoveBigWordRightStart => Some (moveBigWordRightStart b)
  | OMoveWordRightEnd => Some (moveWordRightEnd b)
  | OMoveBigWordRightEnd => Some (moveBigWordRightEnd b)
  | OInsertChar c => Some (insertChar c b)
  | OInsertStr s => Some (insertStr s b)
  | OInsertNewline => Some (insertNewline b)
  | OClear => Some (clear b)
  | OClearToEnd => Some (clearToEnd b)
  | OClearToLineEnd => Some (clearToLineEnd b)
  | OClearToInsertionPoint => Some (clearToInsertionPoint b)
  | OClearRangeSafe start end_ => Some (clearRangeSafe start end_ b)
  | OReplaceRange start end_ replaceWith => Some (replaceRange start end_ replaceWith b)
  | OUppercaseWord => Some (uppercaseWord b)
  | OLowercaseWord => Some (lowercaseWord b)
  | OSwitchcaseChar => switchcaseChar b
  | OCapitalizeChar => capitalizeChar b
  | ODeleteLeftGrapheme => Some (deleteLeftGrapheme b)
  | ODeleteRightGrapheme => Some (deleteRightGrapheme b)
  | ODeleteWordLeft => Some (deleteWordLeft b)
  | ODeleteWordRight => Some (deleteWordRight b)
  | OSwapWords => Some (swapWords b)
  | OSwapGraphemes => Some (swapGraphemes b)
  | OMoveLineUp => Some (moveLineUp b)
  | OMoveLineDown => Some (moveLineDown b)
  | OMoveRightUntil c cl => Some (moveRightUntil c cl b)
  | OMoveRightBefore c cl => Some (moveRightBefore c cl b)
  | OMoveLeftUntil c cl => Some (moveLeftUntil c cl b)
  | OMoveLeftBefore c cl => Some (moveLeftBefore c cl b)
  | ODeleteRightUntilChar c cl => Some (deleteRightUntilChar c cl b)
  | ODeleteRightBeforeChar c cl => Some (deleteRightBeforeChar c cl b)
  | ODeleteLeftUntilChar c cl => Some (deleteLeftUntilChar c cl b)
  | ODeleteLeftBeforeChar c cl => Some (deleteLeftBeforeChar c cl b)
  end.

(** The states a client can reach: a fresh buffer, [LineBuffer.from] of
    a string, and what a mutating method that returns makes of a
    reachable state. *)
Inductive reachable : LineBuffer -> Prop :=
| reach_new : reachable new
| reach_from : forall input, reachable (from input)
| reach_run : forall op b b', reachable b -> run op b = Some b' -> reachable b'.

End CaseTransforms.

End LineBuffer.

Import LineBuffer.

(** ** Statements of the specification, written from its words *)

Module Spec.

(** The text with the units of offsets [s <= k < e] replaced by [text]
    (offsets below 0 count as 0, above the length as the length). *)
Definition spliceRange (s e : Z) (text l : JsString) : JsString :=
  firstn (Z.to_nat s) l ++ text ++ skipn (Z.to_nat e) l.

(** The specification's law for [clearRangeSafe]: order the bounds,
    clamp the end to the length, remove the range; the cursor stays
    when it is left of the range, goes to the start when it is inside,
    moves left by the size of the range when it is right of it. *)
Definition clearCursor (ip s e : Z) : Z :=
  if ip <? s then ip
  else if ip <=? e then s
  else ip - (e - s).

Definition clearRangeSafe (start end_ : Z) (b : LineBuffer) : LineBuffer :=
  let s := Z.min start end_ in
  let e := Z.min (Z.max start end_) (len b) in
  mkLineBuffer (spliceRange s e [] (lines b)) (clearCursor (insertionPoint b) s e).

(** The specification's law for [replaceRange]: the same bounds, the
    range replaced by the text, and the cursor of [clearRangeSafe]
    except that right of the range it moves by the change of length. *)
Definition replaceCursor (ip s e n : Z) : Z :=
  if ip <? s then ip
  else if ip <=? e then s
  else ip + (n - (e - s)).

Definition replaceRange (start end_ : Z) (text : JsString) (b : LineBuffer)
  : LineBuffer :=
  let s := Z.min start end_ in
  let e := Z.min (Z.max start end_) (len b) in
  mkLineBuffer (spliceRange s e text (lines b))
    (replaceCursor (insertionPoint b) s e (Js.length text)).

(** The cursor rule [replaceRange] follows: a cursor inside the range
    (right of its start) goes to the end of the inserted text. *)
Definition replaceCursorBehind (ip s e n : Z) : Z :=
  if ip <=? s then ip
  else if ip <=? e then s + n
  else ip + (n - (e - s)).

Definition replaceRangeBehind (start end_ : Z) (text : JsString) (b : LineBuffer)
  : LineBuffer :=
  let s := Z.min start end_ in
  let e := Z.min (Z.max start end_) (len b) in
  mkLineBuffer (spliceRange s e text (lines b))
    (replaceCursorBehind (insertionPoint b) s e (Js.length text)).

End Spec.

(** ** Validation inputs *)

Definition grinningFace : JsString := [55357; 56832].

Definition at_ (text : JsString) (cursor : Z) : LineBuffer := mkLineBuffer text cursor.

(** "hello" with the insertion point assigned to [cursor]. *)
Definition helloAt (cursor : Z) : LineBuffer :=
  setInsertionPoint cursor (from (lit "hello")).

(** U+1F600 alone, cursor at the start. *)
(** A letter between two apostrophes, and between parentheses. *)
Definition quotedLetter : LineBuffer := from (lit "'a'").

Definition bracketedLetter : LineBuffer := from (lit "(a)").

Definition emojiAtStart : LineBuffer := moveToStart (from grinningFace).

(** "a", a line feed and U+1F600, the cursor moved behind the "a". *)
Definition emojiOnSecondLine : LineBuffer :=
  moveRight (moveToStart (from (lit "a" ++ [10] ++ grinningFace))).

(** "a", U+1F600, "b" with the cursor behind the emoji. *)
Definition emojiBetweenLetters : LineBuffer := at_ ([97] ++ grinningFace ++ [98]) 3.

(** "a\r\nb" with the cursor moved between the carriage return and the
    line feed. *)
Definition betweenCrAndLf : LineBuffer :=
  moveLeft (moveLeft (from (lit "a" ++ [13; 10] ++ lit "b"))).

(** A list whose first element is at least [lo] and whose elements do
    not decrease. *)
Fixpoint ascending (lo : Z) (l : list Z) : Prop :=
  match l with
  | [] => True
  | x :: r => lo <= x /\ ascending x r
  end.

(** The insertion point is an offset of the text. *)
Definition inRange (b : LineBuffer) : Prop :=
  0 <= insertionPoint b <= len b.

(** An index clamped into the text, as [substring] clamps its arguments. *)
Definition clampZ (b : LineBuffer) (n : Z) : Z := Z.max 0 (Z.min n (len b)).

(** [pat] occurs in [s] at offset [p]. *)
Definition occursAt (pat s : JsString) (p : Z) : Prop :=
  0 <= p /\ isPrefix pat (skipn (Z.to_nat p) s) = true.

(** The number of line feeds of a text. *)
Definition lineFeeds (s : JsString) : Z := Z.of_nat (count_occ Z.eq_dec s 10).

(** A text without surrogate code units: every unit is a code point. *)
Definition noSurrogate (s : JsString) : Prop :=
  Forall (fun c => isHighSurrogate c || isLowSurrogate c = false) s.

(** The offset [k] separates a high surrogate from the low surrogate
    that follows it. *)
Definition splitsPair (s : JsString) (k : Z) : Prop :=
  exists h l, charCodeAt s (k - 1) = Some h /\ charCodeAt s k = Some l
              /\ isHighSurrogate h = true /\ isLowSurrogate l = true.

(** A list whose first element exceeds [lo] and whose elements grow. *)
Fixpoint increasing (lo : Z) (l : list Z) : Prop :=
  match l with
  | [] => True
  | x :: r => lo < x /\ increasing x r
  end.

(** The text before the cursor and the text from the cursor on, as
    [substring(0, insertionPoint)] and [substring(insertionPoint)] give
    them. *)
Definition textBefore (b : LineBuffer) : JsString :=
  firstn (Z.to_nat (insertionPoint b)) (lines b).

Definition textAfter (b : LineBuffer) : JsString :=
  skipn (Z.to_nat (insertionPoint b)) (lines b).

(** The unit at [k] is a line feed and the unit before it a carriage
    return. *)
Definition betweenCrLf (s : JsString) (k : Z) : Prop :=
  charCodeAt s k = Some 10 /\ charCodeAt s (k - 1) = Some 13.

(** The line end [findCurrentLineEnd] reports for a line feed at
    offset [nl]: the offset of a carriage return right before it, or
    [nl] itself. *)
Definition lineEndBefore (s : JsString) (nl : Z) : Z :=
  match charCodeAt s (nl - 1) with
  | Some u => if u =? 13 then nl - 1 else nl
  | None => nl
  end.

(** What a token of the word pattern looks like: a run of word units,
    a run of whitespace units, or one unit that is neither. *)
Definition tokenShape (w : JsString) : Prop :=
  w <> []
  /\ (forallb isWordChar w = true
      \/ forallb isSpaceChar w = true
      \/ exists c, w = [c] /\ isWordChar c = false /\ isSpaceChar c = false).

(** The range operations with bounds that are not negative. *)
Definition rangeArgumentsNonNegative (op : Op) : Prop :=
  match op with
  | OClearRangeSafe start end_ => 0 <= start /\ 0 <= end_
  | OReplaceRange start end_ _ => 0 <= start /\ 0 <= end_
  | _ => True
  end.

(** A sequence of mutating calls, stopping at the first that throws. *)
Fixpoint runAll (toUpperCase toLowerCase : JsString -> JsString)
  (ops : list Op) (b : LineBuffer) : option LineBuffer :=
  match ops with
  | [] => Some b
  | op :: rest =>
      match run toUpperCase toLowerCase op b with
      | Some b' => runAll toUpperCase toLowerCase rest b'
      | None => None
      end
  end.

(** ** Facts about the string primitives *)

Lemma clampIndex_le (s : JsString) (n : Z) : (clampIndex s n <= List.length s)%nat.
Proof. unfold clampIndex. lia. Qed.

Lemma substring_from_zero (s : JsString) (n : Z) :
  substring s 0 n = firstn (Z.to_nat n) s.
Proof.
  unfold substring, clampIndex. simpl.
  rewrite Nat.sub_0_r.
  destruct (Nat.le_gt_cases (Z.to_nat n) (List.length s)) as [H|H].
  - now rewrite Nat.min_l by lia.
  - rewrite Nat.min_r by lia. rewrite !firstn_all2; auto; lia.
Qed.

Lemma substringFrom_skipn (s : JsString) (n : Z) :
  substringFrom s n = skipn (Z.to_nat n) s.
Proof.
  unfold substringFrom, clampIndex.
  destruct (Nat.le_gt_cases (Z.to_nat n) (List.length s)) as [H|H].
  - now rewrite Nat.min_l by lia.
  - rewrite Nat.min_r by lia. rewrite !skipn_all2; auto; lia.
Qed.

Lemma substring_between (s : JsString) (a b : Z) :
  0 <= a <= b -> b <= Js.length s ->
  substring s a b = firstn (Z.to_nat b - Z.to_nat a) (skipn (Z.to_nat a) s).
Proof.
  intros Hab Hb. unfold Js.length in Hb. unfold substring, clampIndex.
  rewrite (Nat.min_l (Z.to_nat a)) by lia.
  rewrite (Nat.min_l (Z.to_nat b)) by lia.
  rewrite Nat.min_l by lia. rewrite Nat.max_r by lia. reflexivity.
Qed.

Lemma substring_nil (a b : Z) : substring [] a b = [].
Proof. unfold substring. now rewrite skipn_nil, firstn_nil. Qed.

Lemma substringFrom_nil (a : Z) : substringFrom [] a = [].
Proof. unfold substringFrom. now rewrite skipn_nil. Qed.

Lemma strEq_eq (s t : JsString) : strEq s t = true <-> s = t.
Proof.
  revert t. induction s as [|c s IH]; intros [|d t]; simpl; split; intro H;
    try reflexivity; try discriminate.
  - apply andb_true_iff in H. destruct H as [Hc Hs].
    apply Z.eqb_eq in Hc. apply IH in Hs. now subst.
  - injection H as -> ->. apply andb_true_iff. split.
    + apply Z.eqb_refl.
    + now apply IH.
Qed.

Lemma strEq_neq (s t : JsString) : strEq s t = false <-> s <> t.
Proof.
  split; intro H.
  - intro E. apply strEq_eq in E. congruence.
  - destruct (strEq s t) eqn:E; [|reflexivity]. apply strEq_eq in E. contradiction.
Qed.

(** ** The range primitives *)

Lemma length_nonneg (s : JsString) : 0 <= Js.length s.
Proof. unfold Js.length. lia. Qed.

Lemma ordered_bounds (start end_ : Z) :
  (if end_ <? start then (end_, start) else (start, end_))
  = (Z.min start end_, Z.max start end_).
Proof. destruct (Z.ltb_spec end_ start); f_equal; lia. Qed.

Ltac cursor_cases :=
  repeat match goal with
         | |- context [?a <? ?b] => destruct (Z.ltb_spec a b)
         | |- context [?a <=? ?b] => destruct (Z.leb_spec a b)
         end; try reflexivity; try lia.

(** While the insertion point is within the text, the guard of
    [clearRangeSafe] cannot be told from the specification's law. *)
Lemma clearRangeSafe_within_length (b : LineBuffer) (start end_ : Z) :
  insertionPoint b <= len b ->
  clearRangeSafe start end_ b = Spec.clearRangeSafe start end_ b.
Proof.
  intro Hip. unfold clearRangeSafe. rewrite ordered_bounds.
  unfold Spec.clearRangeSafe, Spec.spliceRange, Spec.clearCursor.
  destruct b as [text ip]. unfold len, Js.length in *. cbn [lines insertionPoint] in *.
  destruct (Z.leb_spec (Z.of_nat (List.length text)) (Z.min start end_)) as [Hg|Hg].
  - rewrite (Z.min_r (Z.max start end_)) by lia. cbn [app].
    rewrite firstn_all2, skipn_all2, app_nil_r by lia.
    f_equal. cursor_cases.
  - rewrite substring_from_zero, substringFrom_skipn.
    f_equal; cursor_cases.
Qed.

(** C2, as the specification states it, fails: on "hello" with the
    insertion point assigned to 8, [clearRangeSafe(7, 9)] returns at its
    guard and leaves the cursor at 8, where the stated rule moves it
    (to 10 with the clamped end, to 7 with the end as passed). *)
Lemma clearRangeSafe_guard_counterexample :
  clearRangeSafe 7 9 (helloAt 8) <> Spec.clearRangeSafe 7 9 (helloAt 8)
  /\ insertionPoint (clearRangeSafe 7 9 (helloAt 8)) = 8
  /\ Spec.clearCursor 8 7 (Z.min 9 (len (helloAt 8))) = 10
  /\ Spec.clearCursor 8 7 9 = 7.
Proof. vm_compute. repeat split; congruence. Qed.

(** C2 (amended): for every buffer state and all integers [start] and
    [end_] whose magnitudes, with that of the insertion point, add up to
    at most [Number.MAX_SAFE_INTEGER] (so that the subtractions of the
    method are exact), [clearRangeSafe] changes nothing when the smaller
    of the two bounds is at or beyond the buffer length; otherwise it
    orders the bounds, clamps the end to the length, removes that range,
    and leaves the cursor alone when it is left of the range, puts it on
    the start when it is inside, and moves it left by the size of the
    range when it is right of it.  The size of the range and the new
    cursor are safe integers again. *)
Theorem clearRangeSafe_law (b : LineBuffer) (start end_ : Z) :
  Z.abs (insertionPoint b) + Z.abs start + Z.abs end_ <= maxSafeInteger ->
  clearRangeSafe start end_ b =
    (if len b <=? Z.min start end_ then b
     else Spec.clearRangeSafe start end_ b)
  /\ (Z.min start end_ < len b ->
       isSafeInteger (Z.min (Z.max start end_) (len b) - Z.min start end_))
  /\ isSafeInteger (insertionPoint (clearRangeSafe start end_ b)).
Proof.
  intro Hsafe. pose proof (length_nonneg (lines b)) as Hlen. fold (len b) in Hlen.
  assert (Hlaw : clearRangeSafe start end_ b =
                   if len b <=? Z.min start end_ then b
                   else Spec.clearRangeSafe start end_ b).
  { unfold clearRangeSafe. rewrite ordered_bounds.
    destruct (Z.leb_spec (len b) (Z.min start end_)); [reflexivity|].
    unfold Spec.clearRangeSafe, Spec.spliceRange, Spec.clearCursor.
    rewrite substring_from_zero, substringFrom_skipn.
    f_equal; cursor_cases. }
  split; [exact Hlaw|]. split.
  - intro Hs. unfold isSafeInteger. lia.
  - rewrite Hlaw. unfold isSafeInteger.
    destruct (Z.leb_spec (len b) (Z.min start end_)); [lia|].
    unfold Spec.clearRangeSafe, Spec.clearCursor. cbn [insertionPoint].
    cursor_cases.
Qed.

Lemma clearRangeSafe_law_witness :
  clearRangeSafe 3 1 (helloAt 4) = at_ (lit "hlo") 2
  /\ clearRangeSafe 7 9 (helloAt 8) = helloAt 8.
Proof.
  split.
  - assert (Hsafe : Z.abs (insertionPoint (helloAt 4)) + Z.abs 3 + Z.abs 1
                    <= maxSafeInteger) by (vm_compute; discriminate).
    exact (proj1 (clearRangeSafe_law (helloAt 4) 3 1 Hsafe)).
  - assert (Hsafe : Z.abs (insertionPoint (helloAt 8)) + Z.abs 7 + Z.abs 9
                    <= maxSafeInteger) by (vm_compute; discriminate).
    exact (proj1 (clearRangeSafe_law (helloAt 8) 7 9 Hsafe)).
Defined.

(** C3, as the specification states it, fails twice: a cursor inside the
    replaced range goes behind the inserted text, not to the start of the
    range ("hello", cursor 2, [replaceRange(1, 4, "XYZW")] gives cursor
    5); and [replaceRange(length, length, text)] returns at its guard
    without appending. *)
Lemma replaceRange_counterexample :
  replaceRange 1 4 (lit "XYZW") (helloAt 2)
    <> Spec.replaceRange 1 4 (lit "XYZW") (helloAt 2)
  /\ replaceRange 1 4 (lit "XYZW") (helloAt 2) = at_ (lit "hXYZWo") 5
  /\ Spec.replaceRange 1 4 (lit "XYZW") (helloAt 2) = at_ (lit "hXYZWo") 1
  /\ getBuffer (replaceRange 5 5 (lit "!") (from (lit "hello"))) = lit "hello"
  /\ getBuffer (Spec.replaceRange 5 5 (lit "!") (from (lit "hello"))) = lit "hello!".
Proof. vm_compute. repeat split; congruence. Qed.

(** C3 (amended): for every buffer state, all integers [start] and
    [end_] and every [text] such that the magnitudes of the insertion
    point, of [start] and of [end_] and the length of [text] add up to at
    most [Number.MAX_SAFE_INTEGER] (so that the sums of the method are
    exact), [replaceRange] changes nothing when the smaller bound is at
    or beyond the buffer length, so [replaceRange(length, length, text)]
    does not append; otherwise it orders the bounds, clamps the end to
    the length and replaces that range by [text]; the cursor is unchanged
    when it is at or left of the start, becomes [start + len(text)] when
    it is inside the range, and is shifted by [len(text) - (end - start)]
    when it is right of it.  The two operands the method adds and the
    new cursor are safe integers again. *)
Theorem replaceRange_law (b : LineBuffer) (start end_ : Z) (text : JsString) :
  Z.abs (insertionPoint b) + Z.abs start + Z.abs end_ + Js.length text
    <= maxSafeInteger ->
  replaceRange start end_ text b =
    (if len b <=? Z.min start end_ then b
     else Spec.replaceRangeBehind start end_ text b)
  /\ replaceRange (len b) (len b) text b = b
  /\ (Z.min start end_ < len b ->
       isSafeInteger (Z.min start end_ + Js.length text)
       /\ isSafeInteger (insertionPoint b - Z.min (Z.max start end_) (len b)))
  /\ isSafeInteger (insertionPoint (replaceRange start end_ text b)).
Proof.
  intro Hsafe. pose proof (length_nonneg (lines b)) as Hlen. fold (len b) in Hlen.
  pose proof (length_nonneg text) as Htext.
  assert (Hlaw : replaceRange start end_ text b =
                   if len b <=? Z.min start end_ then b
                   else Spec.replaceRangeBehind start end_ text b).
  { unfold replaceRange. rewrite ordered_bounds.
    destruct (Z.leb_spec (len b) (Z.min start end_)); [reflexivity|].
    unfold Spec.replaceRangeBehind, Spec.spliceRange, Spec.replaceCursorBehind.
    rewrite substring_from_zero, substringFrom_skipn.
    f_equal; cursor_cases. }
  split; [exact Hlaw|]. split; [|split].
  - unfold replaceRange. rewrite Z.ltb_irrefl, Z.leb_refl. reflexivity.
  - intro Hs. unfold isSafeInteger. split; lia.
  - rewrite Hlaw. unfold isSafeInteger.
    destruct (Z.leb_spec (len b) (Z.min start end_)); [lia|].
    unfold Spec.replaceRangeBehind, Spec.replaceCursorBehind. cbn [insertionPoint].
    cursor_cases.
Qed.

Lemma replaceRange_law_witness :
  replaceRange 4 1 (lit "XYZW") (helloAt 2) = at_ (lit "hXYZWo") 5
  /\ replaceRange 1 2 (lit "XY") (helloAt 4) = at_ (lit "hXYllo") 5
  /\ replaceRange 5 5 (lit "!") (helloAt 5) = helloAt 5.
Proof.
  split; [|split].
  - assert (Hsafe : Z.abs (insertionPoint (helloAt 2)) + Z.abs 4 + Z.abs 1
                      + Js.length (lit "XYZW") <= maxSafeInteger)
      by (vm_compute; discriminate).
    exact (proj1 (replaceRange_law (helloAt 2) 4 1 (lit "XYZW") Hsafe)).
  - assert (Hsafe : Z.abs (insertionPoint (helloAt 4)) + Z.abs 1 + Z.abs 2
                      + Js.length (lit "XY") <= maxSafeInteger)
      by (vm_compute; discriminate).
    exact (proj1 (replaceRange_law (helloAt 4) 1 2 (lit "XY") Hsafe)).
  - assert (Hsafe : Z.abs (insertionPoint (helloAt 5)) + Z.abs 5 + Z.abs 5
                      + Js.length (lit "!") <= maxSafeInteger)
      by (vm_compute; discriminate).
    exact (proj1 (replaceRange_law (helloAt 5) 5 5 (lit "!") Hsafe)).
Defined.

(** ** Grapheme indices *)

Lemma runningIndices_ascending (chars : list JsString) (cur : Z) :
  ascending cur (runningIndices cur chars).
Proof.
  revert cur. induction chars as [|ch r IH]; intro cur; simpl; [exact I|].
  split; [pose proof (length_nonneg ch); lia | apply IH].
Qed.

Lemma getGraphemeIndices_ascending (b : LineBuffer) :
  ascending 0 (getGraphemeIndices b).
Proof.
  unfold getGraphemeIndices. simpl. split; [lia|apply runningIndices_ascending].
Qed.

Lemma ascending_lower (l : list Z) (lo x : Z) :
  ascending lo l -> In x l -> lo <= x.
Proof.
  revert lo. induction l as [|y r IH]; intros lo Ha Hin; [contradiction|].
  destruct Ha as [Hy Hr]. destruct Hin as [->|Hin]; [assumption|].
  specialize (IH y Hr Hin). lia.
Qed.

Lemma findIndex_lower (l : list Z) (v : Z) : -1 <= findIndex l v.
Proof.
  induction l as [|x r IH]; simpl; [lia|].
  destruct (x =? v); [lia|]. destruct (Z.ltb_spec (findIndex r v) 0); lia.
Qed.

Lemma findIndex_item (l : list Z) (v : Z) :
  0 <= findIndex l v -> item l (findIndex l v) = v.
Proof.
  induction l as [|x r IH]; simpl; [lia|].
  destruct (Z.eqb_spec x v) as [->|Hne]; [reflexivity|].
  destruct (Z.ltb_spec (findIndex r v) 0) as [Hlt|Hge]; [lia|]. intros _.
  unfold item in *. replace (Z.to_nat (findIndex r v + 1)) with (S (Z.to_nat (findIndex r v))) by lia.
  simpl. now apply IH.
Qed.

Lemma findIndex_previous (l : list Z) (lo v : Z) :
  ascending lo l -> 0 < findIndex l v ->
  lo <= item l (findIndex l v - 1) <= v.
Proof.
  revert lo. induction l as [|x r IH]; intro lo; simpl; [lia|].
  intros [Hlo Hr]. destruct (Z.eqb_spec x v) as [->|Hne]; [lia|].
  destruct (Z.ltb_spec (findIndex r v) 0) as [Hlt|Hge]; [lia|]. intros _.
  replace (findIndex r v + 1 - 1) with (findIndex r v) by lia.
  destruct (Z.eq_dec (findIndex r v) 0) as [E|E].
  - rewrite E. unfold item. simpl. split; [assumption|].
    pose proof (findIndex_item r v) as Hi. rewrite E in Hi.
    specialize (Hi ltac:(lia)). unfold item in Hi. simpl in Hi.
    destruct r as [|y r']; simpl in *; [discriminate|]. lia.
  - assert (Hpos : 0 < findIndex r v) by lia.
    specialize (IH x Hr Hpos). unfold item in *.
    replace (Z.to_nat (findIndex r v)) with (S (Z.to_nat (findIndex r v - 1))) by lia.
    simpl. lia.
Qed.

Lemma isValid_bounds (b : LineBuffer) :
  isValid b = true -> 0 <= insertionPoint b <= len b.
Proof.
  unfold isValid. destruct (Z.ltb_spec (len b) (insertionPoint b)); [discriminate|].
  intro Hb. apply orb_true_iff in Hb. destruct Hb as [Hb|Hb].
  - apply existsb_exists in Hb. destruct Hb as [x [Hin Hx]].
    apply Z.eqb_eq in Hx. subst x.
    pose proof (ascending_lower _ _ _ (getGraphemeIndices_ascending b) Hin). lia.
  - apply Z.eqb_eq in Hb. pose proof (length_nonneg (lines b)). unfold len in *. lia.
Qed.

Lemma graphemeLeftIndex_bounds (b : LineBuffer) :
  0 <= insertionPoint b -> 0 <= graphemeLeftIndex b <= insertionPoint b.
Proof.
  intro Hip. unfold graphemeLeftIndex.
  destruct (Z.leb_spec (findIndex (getGraphemeIndices b) (insertionPoint b)) 0); [lia|].
  now apply findIndex_previous; [apply getGraphemeIndices_ascending|].
Qed.

(** ** Deleting left and inserting back *)

Lemma splice_back {A : Type} (l : list A) (a c : nat) :
  (a <= c <= List.length l)%nat ->
  firstn a (firstn a l ++ skipn c l) ++ firstn (c - a) (skipn a l)
    ++ skipn a (firstn a l ++ skipn c l) = l.
Proof.
  intros [Hac Hc].
  assert (Hla : List.length (firstn a l) = a) by (rewrite length_firstn; lia).
  rewrite firstn_app, skipn_app, Hla, Nat.sub_diag. simpl.
  rewrite firstn_firstn, Nat.min_id, app_nil_r.
  rewrite (skipn_all2 (firstn a l)) by lia. simpl.
  replace (skipn c l) with (skipn (c - a) (skipn a l)).
  - rewrite firstn_skipn. apply firstn_skipn.
  - rewrite skipn_skipn. f_equal. lia.
Qed.

(** C4: in a valid state, deleting the grapheme left of the cursor and
    inserting the deleted text ([graphemeLeft()] taken beforehand) gives
    back the original text and the original insertion point. *)
Theorem deleteLeftGrapheme_insertStr_roundtrip (b : LineBuffer) :
  isValid b = true ->
  insertStr (graphemeLeft b) (deleteLeftGrapheme b) = b.
Proof.
  intro Hv. apply isValid_bounds in Hv. destruct Hv as [H0 Hlen].
  pose proof (graphemeLeftIndex_bounds b H0) as [HL0 HLip].
  unfold graphemeLeft, deleteLeftGrapheme.
  remember (graphemeLeftIndex b) as L eqn:EL. clear EL.
  destruct b as [text ip]. unfold len in Hlen. simpl in *.
  rewrite (substring_between text L ip) by lia.
  unfold clearRangeSafe. rewrite ordered_bounds.
  rewrite Z.min_l, Z.max_r by lia. simpl.
  unfold len. simpl.
  destruct (Z.leb_spec (Js.length text) L) as [Hg|Hg].
  - assert (L = ip) by lia. subst L.
    unfold insertStr. simpl.
    rewrite substring_from_zero, substringFrom_skipn, Nat.sub_diag. simpl.
    rewrite firstn_skipn. f_equal. unfold Js.length. simpl. lia.
  - rewrite Z.min_l by lia.
    rewrite substring_from_zero, substringFrom_skipn.
    assert (Hcur : (if L <? ip then if ip <? ip then ip - (ip - L) else L else ip) = L)
      by (destruct (Z.ltb_spec L ip); [rewrite Z.ltb_irrefl; reflexivity | lia]).
    rewrite Hcur. unfold insertStr. simpl.
    rewrite substring_from_zero, substringFrom_skipn.
    unfold Js.length in *. f_equal.
    + apply splice_back. lia.
    + rewrite length_firstn, length_skipn. lia.
Qed.

Lemma deleteLeftGrapheme_insertStr_roundtrip_witness :
  isValid emojiBetweenLetters = true
  /\ graphemeLeft emojiBetweenLetters = grinningFace
  /\ deleteLeftGrapheme emojiBetweenLetters = at_ [97; 98] 1
  /\ insertStr (graphemeLeft emojiBetweenLetters)
       (deleteLeftGrapheme emojiBetweenLetters) = emojiBetweenLetters.
Proof.
  do 3 (split; [reflexivity|]).
  apply (deleteLeftGrapheme_insertStr_roundtrip emojiBetweenLetters).
  reflexivity.
Defined.

(** ** The word tokenizer never runs out of fuel *)

Lemma span_length (p : Z -> bool) (s run rest : JsString) :
  span p s = (run, rest) ->
  (List.length run + List.length rest = List.length s)%nat.
Proof.
  revert run rest. induction s as [|c t IH]; intros run rest; simpl.
  - intros [= <- <-]. reflexivity.
  - destruct (p c).
    + destruct (span p t) as [run' rest'] eqn:E. intros [= <- <-].
      specialize (IH _ _ eq_refl). simpl. lia.
    + intros [= <- <-]. reflexivity.
Qed.

Lemma span_head (p : Z -> bool) (c : Z) (t run rest : JsString) :
  p c = true -> span p (c :: t) = (run, rest) -> exists run', run = c :: run'.
Proof.
  intro H. simpl. rewrite H. destruct (span p t) as [run' rest'].
  intros [= <- <-]. now exists run'.
Qed.

Lemma matchWordTokenAt_consumes (prev : option Z) (s m rest : JsString) :
  matchWordTokenAt prev s = Some (m, rest) ->
  (List.length rest < List.length s)%nat.
Proof.
  destruct s as [|c t]; [discriminate|]. unfold matchWordTokenAt.
  set (prevIsWord := match prev with Some q => isWordChar q | None => false end).
  destruct (negb (Bool.eqb prevIsWord (isWordChar c)) && isWordChar c) eqn:E1.
  - apply andb_true_iff in E1. destruct E1 as [_ Hw]. intros [= E].
    destruct (span_head isWordChar c t m rest Hw E) as [run ->].
    pose proof (span_length isWordChar (c :: t) _ rest E) as Hl.
    simpl in Hl. simpl. lia.
  - destruct (isSpaceChar c) eqn:E2.
    + intros [= E].
      destruct (span_head isSpaceChar c t m rest E2 E) as [run ->].
      pose proof (span_length isSpaceChar (c :: t) _ rest E) as Hl.
      simpl in Hl. simpl. lia.
    + destruct (negb (isWordChar c) && negb false); [|discriminate].
      intros [= <- <-]. simpl. lia.
Qed.

Lemma matchWordTokens_fuel (n m : nat) (prev : option Z) (s : JsString) :
  (List.length s <= n)%nat -> (List.length s <= m)%nat ->
  matchWordTokens n prev s = matchWordTokens m prev s.
Proof.
  revert m prev s. induction n as [|n IH]; intros m prev s Hn Hm.
  - destruct s; [|simpl in Hn; lia]. destruct m; reflexivity.
  - destruct m as [|m].
    + destruct s; [reflexivity|simpl in Hm; lia].
    + destruct s as [|c t]; [reflexivity|].
      cbn [matchWordTokens].
      destruct (matchWordTokenAt prev (c :: t)) as [[tok rest]|] eqn:E.
      * apply matchWordTokenAt_consumes in E. f_equal.
        apply IH; simpl in *; lia.
      * apply IH; simpl in *; lia.
Qed.

(** The tokens are consecutive pieces of the text: no unit is skipped,
    which is what the running index of [splitWordBoundaries] assumes. *)

Lemma span_app (p : Z -> bool) (s run rest : JsString) :
  span p s = (run, rest) -> run ++ rest = s.
Proof.
  revert run rest. induction s as [|c t IH]; intros run rest; simpl.
  - now intros [= <- <-].
  - destruct (p c).
    + destruct (span p t) as [run' rest']. intros [= <- <-].
      simpl. f_equal. now apply IH.
    + now intros [= <- <-].
Qed.

Lemma span_run (p : Z -> bool) (s run rest : JsString) :
  span p s = (run, rest) -> Forall (fun c => p c = true) run.
Proof.
  revert run rest. induction s as [|c t IH]; intros run rest; simpl.
  - intros [= <- <-]. constructor.
  - destruct (p c) eqn:E.
    + destruct (span p t) as [run' rest']. intros [= <- <-].
      constructor; [assumption|]. now apply (IH _ rest').
    + intros [= <- <-]. constructor.
Qed.

Lemma span_stops (p : Z -> bool) (s run rest : JsString) (d : Z) (rest' : JsString) :
  span p s = (run, rest) -> rest = d :: rest' -> p d = false.
Proof.
  revert run rest. induction s as [|c t IH]; intros run rest; simpl.
  - intros [= <- <-]. discriminate.
  - destruct (p c) eqn:E.
    + destruct (span p t) as [run1 rest1]. intros [= <- <-].
      now apply (IH run1 rest1).
    + intros [= <- <-] [= <- <-]. assumption.
Qed.

Lemma last_satisfies (p : Z -> bool) (run : JsString) (c : Z) :
  p c = true -> Forall (fun x => p x = true) run -> p (last run c) = true.
Proof.
  intros Hc Hrun. induction Hrun as [|x r Hx Hr IH]; [assumption|].
  destruct r; [assumption|]. exact IH.
Qed.

Lemma space_is_not_word (c : Z) : isSpaceChar c = true -> isWordChar c = false.
Proof.
  unfold isSpaceChar, isWordChar. intro H.
  apply not_true_iff_false. intro W.
  repeat rewrite ?orb_true_iff, ?andb_true_iff, ?Z.leb_le, ?Z.eqb_eq in H.
  repeat rewrite ?orb_true_iff, ?andb_true_iff, ?Z.leb_le, ?Z.eqb_eq in W.
  lia.
Qed.

Lemma matchWordTokens_partition (fuel : nat) :
  forall (prev : option Z) (s : JsString),
    (List.length s <= fuel)%nat ->
    (forall q c t, prev = Some q -> s = c :: t ->
                   isWordChar q = true -> isWordChar c = false) ->
    List.concat (matchWordTokens fuel prev s) = s.
Proof.
  induction fuel as [|fuel IH]; intros prev s Hlen Hprev.
  - destruct s; [reflexivity|simpl in Hlen; lia].
  - destruct s as [|c t]; [reflexivity|].
    cbn [matchWordTokens]. unfold matchWordTokenAt.
    assert (Hb : isWordChar c = true ->
                 match prev with Some q => isWordChar q | None => false end = false).
    { intro Hw. destruct prev as [q|]; [|reflexivity].
      destruct (isWordChar q) eqn:Eq; [|reflexivity].
      specialize (Hprev q c t eq_refl eq_refl Eq). congruence. }
    destruct (isWordChar c) eqn:Ew.
    + rewrite (Hb eq_refl). cbn [Bool.eqb negb andb].
      destruct (span isWordChar (c :: t)) as [run rest] eqn:Es.
      pose proof (span_app _ _ _ _ Es) as Happ.
      pose proof (span_length _ _ _ _ Es) as Hl.
      destruct (span_head _ _ _ _ _ Ew Es) as [run' ->].
      cbn [List.concat]. rewrite IH; [assumption|simpl in *; lia|].
      intros q d t' _ Hrest _. exact (span_stops _ _ _ _ _ _ Es Hrest).
    + replace (negb (Bool.eqb match prev with Some q => isWordChar q | None => false end false)
               && false) with false by (now rewrite andb_false_r).
      destruct (isSpaceChar c) eqn:Esp.
      * destruct (span isSpaceChar (c :: t)) as [run rest] eqn:Es.
        pose proof (span_app _ _ _ _ Es) as Happ.
        pose proof (span_length _ _ _ _ Es) as Hl.
        pose proof (span_run _ _ _ _ Es) as Hrun.
        destruct (span_head _ _ _ _ _ Esp Es) as [run' ->].
        cbn [List.concat]. rewrite IH; [assumption|simpl in *; lia|].
        intros q d t' [= <-] _ Hq.
        pose proof (last_satisfies isSpaceChar (c :: run') c Esp Hrun) as Hs.
        apply space_is_not_word in Hs.
        change (isWordChar (last (c :: run') c) = true) in Hq. congruence.
      * cbn [negb andb tl List.concat]. rewrite IH; [reflexivity|simpl in *; lia|].
        intros q d t' [= <-] _ Hq. simpl in Hq. congruence.
Qed.

Lemma splitWordBoundaries_covers (text : JsString) :
  List.concat (map snd (splitWordBoundaries text)) = text.
Proof.
  unfold splitWordBoundaries.
  assert (Hsnd : forall ms k, map snd (indexMatches k ms) = ms).
  { induction ms as [|m r IHm]; intro k; simpl; [reflexivity|]. now rewrite IHm. }
  rewrite Hsnd. apply matchWordTokens_partition; [lia|]. discriminate.
Qed.

(** ** Behaviour on concrete buffers *)

(** C6: on the empty buffer every navigation method leaves the state as
    it is (cursor 0), and every deletion method leaves the text as it
    is, whatever the arguments. *)
Theorem empty_buffer_is_fixed (c : JsString) (currentLine : bool) (start end_ : Z) :
  len new = 0 /\ getInsertionPoint new = 0
  /\ Forall (fun method : LineBuffer -> LineBuffer =>
               method new = new /\ getInsertionPoint (method new) = 0)
       [ moveToStart; moveToLineStart; moveToLineEnd; moveToEnd;
         moveLeft; moveRight;
         moveWordLeft; moveBigWordLeft; moveWordRight;
         moveWordRightStart; moveBigWordRightStart;
         moveWordRightEnd; moveBigWordRightEnd;
         moveLineUp; moveLineDown;
         moveRightUntil c currentLine; moveRightBefore c currentLine;
         moveLeftUntil c currentLine; moveLeftBefore c currentLine ]
  /\ Forall (fun method : LineBuffer -> LineBuffer =>
               getBuffer (method new) = getBuffer new)
       [ clear; clearToEnd; clearToLineEnd; clearToInsertionPoint;
         clearRangeSafe start end_;
         deleteLeftGrapheme; deleteRightGrapheme;
         deleteWordLeft; deleteWordRight;
         deleteRightUntilChar c currentLine; deleteRightBeforeChar c currentLine;
         deleteLeftUntilChar c currentLine; deleteLeftBeforeChar c currentLine ].
Proof.
  assert (Hclear : getBuffer (clearRangeSafe start end_ new) = getBuffer new).
  { unfold clearRangeSafe. rewrite ordered_bounds.
    destruct (len new <=? Z.min start end_); [reflexivity|].
    simpl. now rewrite substring_nil, substringFrom_nil. }
  split; [reflexivity|]. split; [reflexivity|]. split.
  - repeat (apply Forall_cons || apply Forall_nil);
      try (split; reflexivity);
      destruct c, currentLine; split; reflexivity.
  - repeat (apply Forall_cons || apply Forall_nil);
      try reflexivity; try exact Hclear;
      destruct c, currentLine; reflexivity.
Qed.

(** C5 (what the code does): the word pattern sees code units, so the
    two units of U+1F600 are two one-unit tokens; from cursor 0
    [moveWordRight] stops at offset 1, between the surrogates, and the
    buffer is no longer valid. *)
Theorem moveWordRight_stops_inside_emoji :
  len emojiAtStart = 2 /\ getInsertionPoint emojiAtStart = 0
  /\ isValid emojiAtStart = true
  /\ splitWordBoundaries grinningFace = [(0, [55357]); (1, [56832])]
  /\ getInsertionPoint (moveWordRight emojiAtStart) = 1
  /\ isValid (moveWordRight emojiAtStart) = false.
Proof. vm_compute. repeat split; reflexivity. Qed.

(** C7 (what the code does): on "word and another one" at cursor 0
    [moveWordRightEnd] returns the offset of the first whitespace token
    after the word, 4, not the offset 3 of the word's last unit. *)
Theorem moveWordRightEnd_stops_behind_word :
  wordRightEndIndex (setInsertionPoint 0 (from (lit "word and another one"))) = 4
  /\ getInsertionPoint
       (moveWordRightEnd (setInsertionPoint 0 (from (lit "word and another one")))) = 4.
Proof. vm_compute. split; reflexivity. Qed.

(** C8 (what the code does): on "ab" at cursor 0 the grapheme left of
    the cursor is the empty string, which is falsy, so [swapGraphemes]
    changes nothing. *)
Theorem swapGraphemes_at_start_is_identity :
  graphemeRightIndex (setInsertionPoint 0 (from (lit "ab"))) = 1
  /\ graphemeLeft (setInsertionPoint 0 (from (lit "ab"))) = []
  /\ graphemeRight (setInsertionPoint 0 (from (lit "ab"))) = lit "a"
  /\ swapGraphemes (setInsertionPoint 0 (from (lit "ab"))) = at_ (lit "ab") 0.
Proof. vm_compute. repeat split; reflexivity. Qed.

(** C1 (what the code does): a state that is not valid is reachable
    without assigning the insertion point.  From "a\n" followed by
    U+1F600, [moveToStart], [moveRight] and [moveLineDown] carry column 1
    into the second line and stop between the two surrogates. *)
Theorem reachable_state_not_valid (toUpperCase toLowerCase : JsString -> JsString) :
  reachable toUpperCase toLowerCase (moveLineDown emojiOnSecondLine)
  /\ isValid emojiOnSecondLine = true
  /\ getInsertionPoint emojiOnSecondLine = 1
  /\ getInsertionPoint (moveLineDown emojiOnSecondLine) = 3
  /\ len (moveLineDown emojiOnSecondLine) = 4
  /\ isValid (moveLineDown emojiOnSecondLine) = false.
Proof.
  split; [|repeat split; reflexivity].
  apply (reach_run _ _ OMoveLineDown emojiOnSecondLine); [|reflexivity].
  apply (reach_run _ _ OMoveRight
           (moveToStart (from (lit "a" ++ [10] ++ grinningFace)))); [|reflexivity].
  apply (reach_run _ _ OMoveToStart (from (lit "a" ++ [10] ++ grinningFace)));
    [|reflexivity].
  apply reach_from.
Qed.

(** ** Which offsets are grapheme indices *)

Lemma arrayFrom_pair (c d : Z) (t : JsString) :
  isHighSurrogate c && isLowSurrogate d = true ->
  arrayFrom (c :: d :: t) = [c; d] :: arrayFrom t.
Proof. intro H. simpl. now rewrite H. Qed.

Lemma arrayFrom_single (c d : Z) (t : JsString) :
  isHighSurrogate c && isLowSurrogate d = false ->
  arrayFrom (c :: d :: t) = [c] :: arrayFrom (d :: t).
Proof. intro H. simpl. now rewrite H. Qed.

(** An offset of the text is a grapheme index unless it separates a high
    surrogate from the low surrogate that follows it. *)
Lemma offset_is_index_or_splits_pair (n : nat) :
  forall (s : JsString) (base : Z) (k : nat),
    (List.length s <= n)%nat -> (k <= List.length s)%nat ->
    In (base + Z.of_nat k) (base :: runningIndices base (arrayFrom s))
    \/ exists h l, nth_error s (k - 1) = Some h /\ nth_error s k = Some l
                   /\ (1 <= k)%nat
                   /\ isHighSurrogate h = true /\ isLowSurrogate l = true.
Proof.
  induction n as [|n IH]; intros s base k Hn Hk.
  - destruct s; [|simpl in Hn; lia]. simpl in Hk.
    left. left. lia.
  - destruct s as [|c [|d t]].
    + simpl in Hk. left. left. lia.
    + simpl in Hk. left. simpl. unfold Js.length. simpl.
      destruct k as [|[|k]]; [left|right; left|]; lia.
    + destruct k as [|k]; [left; left; lia|].
      destruct (isHighSurrogate c && isLowSurrogate d) eqn:E.
      * rewrite (arrayFrom_pair c d t E). cbn [runningIndices].
        destruct k as [|k].
        -- right. exists c, d. apply andb_true_iff in E.
           destruct E. repeat split; auto.
        -- simpl in Hn, Hk.
           destruct (IH t (base + Js.length [c; d]) k ltac:(lia) ltac:(lia))
             as [Hin|[h [l [Hh [Hl [Hk1 [HH HL]]]]]]].
           ++ left. right.
              replace (base + Z.of_nat (S (S k)))
                with (base + Js.length [c; d] + Z.of_nat k)
                by (unfold Js.length; simpl; lia).
              exact Hin.
           ++ right. exists h, l.
              replace (S (S k) - 1)%nat with (S (S (k - 1))) by lia.
              simpl. repeat split; auto; lia.
      * rewrite (arrayFrom_single c d t E). cbn [runningIndices].
        simpl in Hn, Hk.
        destruct (IH (d :: t) (base + Js.length [c]) k ltac:(simpl; lia) ltac:(simpl; lia))
          as [Hin|[h [l [Hh [Hl [Hk1 [HH HL]]]]]]].
        -- left. right.
           replace (base + Z.of_nat (S k))
             with (base + Js.length [c] + Z.of_nat k)
             by (unfold Js.length; simpl; lia).
           exact Hin.
        -- right. exists h, l.
           replace (S k - 1)%nat with (S (k - 1)) by lia.
           repeat split; auto; lia.
Qed.

Lemma skipn_at_nth_error {A : Type} (l : list A) (n : nat) (x : A) :
  nth_error l n = Some x -> skipn n l = x :: skipn (S n) l.
Proof.
  revert n. induction l as [|y r IH]; intros [|n]; simpl; try discriminate.
  - now intros [= ->].
  - intro H. now apply IH.
Qed.

(** ** The cursor between a carriage return and a line feed *)

(** C10: when the unit at the insertion point is a line feed and the
    unit before it a carriage return, the state is valid,
    [findCurrentLineEnd] returns the offset before the cursor, and
    [moveToLineEnd] moves the cursor left onto the carriage return. *)
Theorem findCurrentLineEnd_between_cr_and_lf (b : LineBuffer) :
  charCodeAt (lines b) (insertionPoint b) = Some 10 ->
  charCodeAt (lines b) (insertionPoint b - 1) = Some 13 ->
  isValid b = true
  /\ findCurrentLineEnd b = insertionPoint b - 1
  /\ findCurrentLineEnd b < insertionPoint b
  /\ getInsertionPoint (moveToLineEnd b) = insertionPoint b - 1
  /\ charCodeAt (lines b) (getInsertionPoint (moveToLineEnd b)) = Some 13.
Proof.
  destruct b as [text ip]. simpl. intros Hlf Hcr.
  assert (Hpos : 1 <= ip).
  { unfold charCodeAt in Hcr. destruct (Z.ltb_spec (ip - 1) 0); [discriminate|lia]. }
  assert (Hnth : nth_error text (Z.to_nat ip) = Some 10).
  { unfold charCodeAt in Hlf. destruct (Z.ltb_spec ip 0); [lia|assumption]. }
  assert (Hprev : nth_error text (Z.to_nat ip - 1) = Some 13).
  { unfold charCodeAt in Hcr. destruct (Z.ltb_spec (ip - 1) 0); [lia|].
    now replace (Z.to_nat ip - 1)%nat with (Z.to_nat (ip - 1)) by lia. }
  assert (Hlt : (Z.to_nat ip < List.length text)%nat).
  { apply nth_error_Some. congruence. }
  assert (Hend : findCurrentLineEnd (mkLineBuffer text ip) = ip - 1).
  { unfold findCurrentLineEnd. simpl.
    rewrite substringFrom_skipn, (skipn_at_nth_error _ _ _ Hnth).
    cbn [indexOf isPrefix]. rewrite Z.eqb_refl. simpl.
    rewrite Hcr. destruct (Z.ltb_spec 0 ip); [reflexivity|lia]. }
  split.
  - unfold isValid, len, Js.length. cbn [lines insertionPoint].
    destruct (Z.ltb_spec (Z.of_nat (List.length text)) ip); [lia|].
    apply orb_true_iff. left. apply existsb_exists. exists ip.
    split; [|apply Z.eqb_refl].
    destruct (offset_is_index_or_splits_pair (List.length text) text 0 (Z.to_nat ip)
                (le_n _) ltac:(lia)) as [Hin|[h [l [Hh [_ [_ [HH _]]]]]]].
    + unfold getGraphemeIndices. cbn [lines].
      now replace (0 + Z.of_nat (Z.to_nat ip)) with ip in Hin by lia.
    + rewrite Hprev in Hh. injection Hh as <-. discriminate.
  - unfold moveToLineEnd, moveTo, getInsertionPoint. simpl.
    rewrite Hend. repeat split; try assumption; lia.
Qed.

Lemma findCurrentLineEnd_between_cr_and_lf_witness :
  getInsertionPoint betweenCrAndLf = 2
  /\ isValid betweenCrAndLf = true
  /\ findCurrentLineEnd betweenCrAndLf = 1
  /\ moveToLineEnd betweenCrAndLf = at_ (lit "a" ++ [13; 10] ++ lit "b") 1.
Proof.
  pose proof (findCurrentLineEnd_between_cr_and_lf betweenCrAndLf
                eq_refl eq_refl) as [Hv [He _]].
  split; [reflexivity|]. split; [exact Hv|]. split; [exact He|]. reflexivity.
Defined.

(** ** Matching pairs *)

Section MatchingPairs.

Variables (text leftChar rightChar : JsString) (cursor : Z).

Local Abbreviation scan := (scanPairs leftChar rightChar cursor).

Lemma skipn_cons_nth_error (i : nat) (c : Z) (rest : JsString) :
  skipn i text = c :: rest -> nth_error text i = Some c /\ skipn (S i) text = rest.
Proof.
  intro H. split.
  - rewrite <- hd_error_skipn, H. reflexivity.
  - replace (S i) with (1 + i)%nat by lia. rewrite <- skipn_skipn, H. reflexivity.
Qed.

(** A reported pair is a left delimiter and a later right delimiter, one
    of them at the cursor; [stack] holds offsets of left delimiters
    before [i]. *)
Lemma scanPairs_sound (rest : JsString) :
  forall (i : nat) (stack : list Z) (l r : Z),
    skipn i text = rest ->
    Forall (fun j => 0 <= j < Z.of_nat i /\ charAt text j = Some leftChar) stack ->
    scan (Z.of_nat i) stack rest = Some (l, r) ->
    0 <= l < r /\ r < Js.length text
    /\ charAt text l = Some leftChar /\ charAt text r = Some rightChar
    /\ (r = cursor \/ l = cursor).
Proof.
  induction rest as [|c rest IH]; intros i stack l r Hs Hst; [discriminate|].
  destruct (skipn_cons_nth_error i c rest Hs) as [Hc Hrest].
  assert (Hi : Z.of_nat i < Js.length text).
  { unfold Js.length. apply Nat2Z.inj_lt. apply nth_error_Some. congruence. }
  assert (Hat : charAt text (Z.of_nat i) = Some [c]).
  { unfold charAt, charCodeAt. destruct (Z.ltb_spec (Z.of_nat i) 0); [lia|].
    now rewrite Nat2Z.id, Hc. }
  cbn [scanPairs]. replace (Z.of_nat i + 1) with (Z.of_nat (S i)) by lia.
  destruct (strEq [c] leftChar) eqn:EL.
  - apply strEq_eq in EL. apply IH; [assumption|].
    constructor; [split; [lia|now rewrite <- EL]|].
    eapply Forall_impl; [|exact Hst]. cbn beta. intros j [Hj Hjc]. split; [lia|assumption].
  - destruct (strEq [c] rightChar) eqn:ER.
    + apply strEq_eq in ER. destruct stack as [|l0 stack].
      * apply IH; [assumption|constructor].
      * apply Forall_cons_iff in Hst. destruct Hst as [[Hl0 Hl0c] Hst'].
        destruct (Z.eqb_spec (Z.of_nat i) cursor) as [Ei|Ei].
        -- intros [= <- <-]. rewrite <- ER.
           repeat split; try assumption; try lia; now left.
        -- destruct (Z.eqb_spec l0 cursor) as [El|El].
           ++ intros [= <- <-]. rewrite <- ER.
              repeat split; try assumption; try lia; now right.
           ++ apply IH; [assumption|].
              eapply Forall_impl; [|exact Hst']. cbn beta.
              intros j [Hj Hjc]. split; [lia|assumption].
    + apply IH; [assumption|].
      eapply Forall_impl; [|exact Hst]. cbn beta. intros j [Hj Hjc]. split; [lia|assumption].
Qed.

(** Without a right delimiter nothing is ever popped. *)
Lemma scanPairs_without_right (rest : JsString) :
  forall (i : Z) (stack : list Z),
    Forall (fun c => [c] <> rightChar) rest -> scan i stack rest = None.
Proof.
  induction rest as [|c rest IH]; intros i stack Hall; [reflexivity|].
  apply Forall_cons_iff in Hall. destruct Hall as [Hc Hrest]. cbn [scanPairs].
  apply strEq_neq in Hc. rewrite Hc.
  destruct (strEq [c] leftChar); now apply IH.
Qed.

End MatchingPairs.

(** When both delimiters are the same string, the first test of the loop
    takes every occurrence: each one is pushed, the second test is never
    reached, and nothing is popped. *)
Lemma scanPairs_equal_delimiters (delimiter : JsString) (cursor : Z) (rest : JsString) :
  forall (i : Z) (stack : list Z),
    scanPairs delimiter delimiter cursor i stack rest = None.
Proof.
  induction rest as [|c rest IH]; intros i stack; [reflexivity|].
  cbn [scanPairs]. destruct (strEq [c] delimiter); apply IH.
Qed.

(** C9 fails on the code: on the text of an apostrophe, [a] and an
    apostrophe, [findMatchingPair] with the apostrophe as both delimiters
    and cursor 2 returns null, where the second apostrophe, a right
    delimiter, pops the offset 0 of the first and the pair [0, 2] has its
    right offset at the cursor; the same call on "(a)" with parentheses
    returns [0, 2].  With equal delimiters the method returns null for
    every text and every cursor.  On "(hello) world" with cursor 6 it
    returns [0, 6]. *)
Theorem findMatchingPair_equal_delimiters_is_null :
  findMatchingPair (lit "'") (lit "'") 2 quotedLetter = None
  /\ findMatchingPair (lit "(") (lit ")") 2 bracketedLetter = Some (0, 2)
  /\ (forall (delimiter : JsString) (cursor : Z) (b : LineBuffer),
        findMatchingPair delimiter delimiter cursor b = None)
  /\ findMatchingPair (lit "(") (lit ")") 6 (from (lit "(hello) world")) = Some (0, 6).
Proof.
  split; [reflexivity|]. split; [reflexivity|]. split; [|reflexivity].
  intros delimiter cursor b. apply scanPairs_equal_delimiters.
Qed.

(** A pair returned by [findMatchingPair] is a left delimiter followed
    by a right one, one of them at the cursor; a text without right
    delimiter gives null. *)
Lemma findMatchingPair_sound
  (b : LineBuffer) (leftChar rightChar : JsString) (cursor : Z) :
  (forall l r, findMatchingPair leftChar rightChar cursor b = Some (l, r) ->
     0 <= l < r /\ r < len b
     /\ charAt (lines b) l = Some leftChar /\ charAt (lines b) r = Some rightChar
     /\ (r = cursor \/ l = cursor))
  /\ (Forall (fun c => [c] <> rightChar) (lines b) ->
      findMatchingPair leftChar rightChar cursor b = None).
Proof.
  split.
  - intros l r H.
    apply (scanPairs_sound (lines b) leftChar rightChar cursor (lines b) 0 [] l r
             eq_refl (Forall_nil _) H).
  - intro H. now apply scanPairs_without_right.
Qed.

(** ** Further properties of the class *)

(** *** Construction and insertion *)

Lemma isValid_at_end (text : JsString) :
  isValid (mkLineBuffer text (Js.length text)) = true.
Proof.
  unfold isValid, len. cbn [lines insertionPoint].
  rewrite Z.ltb_irrefl, Z.eqb_refl. apply orb_true_r.
Qed.

Lemma from_eq (input : JsString) :
  from input = mkLineBuffer input (Js.length input).
Proof.
  unfold from, insertStr, new. cbn [lines insertionPoint].
  rewrite substring_nil, substringFrom_nil, app_nil_r. reflexivity.
Qed.

(** X1: [LineBuffer.from(input)] holds exactly [input] with the cursor
    behind its last unit, and it is valid; [setBuffer] gives such a
    state from any state. *)
Theorem from_and_setBuffer_are_valid (input : JsString) (b : LineBuffer) :
  getBuffer (from input) = input
  /\ getInsertionPoint (from input) = Js.length input
  /\ isValid (from input) = true
  /\ setBuffer input b = from input
  /\ isValid (setBuffer input b) = true.
Proof.
  rewrite from_eq. unfold setBuffer, getBuffer, getInsertionPoint.
  cbn [lines insertionPoint]. repeat split; apply isValid_at_end.
Qed.

Lemma insertStr_text (s : JsString) (b : LineBuffer) :
  lines (insertStr s b)
  = firstn (Z.to_nat (insertionPoint b)) (lines b) ++ s
      ++ skipn (Z.to_nat (insertionPoint b)) (lines b).
Proof.
  unfold insertStr. cbn [lines]. now rewrite substring_from_zero, substringFrom_skipn.
Qed.

Lemma length_app (s t : JsString) : Js.length (s ++ t) = Js.length s + Js.length t.
Proof. unfold Js.length. rewrite List.length_app. lia. Qed.

(** X2: two insertions in a row are one insertion of the concatenated
    text, whenever the insertion point is not negative and, moved behind
    both texts, is at most [Number.MAX_SAFE_INTEGER] (so that both
    additions are exact); the cursor is then that safe integer. *)
Theorem insertStr_twice (s t : JsString) (b : LineBuffer) :
  0 <= insertionPoint b ->
  insertionPoint b + Js.length s + Js.length t <= maxSafeInteger ->
  insertStr t (insertStr s b) = insertStr (s ++ t) b
  /\ isSafeInteger (insertionPoint (insertStr s b))
  /\ isSafeInteger (insertionPoint (insertStr t (insertStr s b))).
Proof.
  intros H0 Hsafe.
  pose proof (length_nonneg s) as Hs. pose proof (length_nonneg t) as Ht.
  split; [|unfold insertStr, isSafeInteger; cbn [insertionPoint]; lia].
  destruct b as [text ip]. cbn [insertionPoint] in H0, Hsafe.
  unfold insertStr at 1. rewrite insertStr_text.
  unfold insertStr. cbn [lines insertionPoint].
  rewrite !substring_from_zero, !substringFrom_skipn.
  rewrite length_app. f_equal; [|lia].
  replace (Z.to_nat (ip + Js.length s)) with (Z.to_nat ip + List.length s)%nat
    by (unfold Js.length; lia).
  set (n := Z.to_nat ip).
  destruct (Nat.le_gt_cases n (List.length text)) as [Hn|Hn].
  - assert (Hl : List.length (firstn n text) = n) by (rewrite length_firstn; lia).
    rewrite (app_assoc (firstn n text) s).
    rewrite firstn_app, skipn_app, List.length_app, Hl.
    replace (n + List.length s - (n + List.length s))%nat with 0%nat by lia.
    rewrite firstn_all2 by (rewrite List.length_app; lia).
    rewrite (skipn_all2 (firstn n text ++ s)) by (rewrite List.length_app; lia).
    cbn [firstn skipn app]. rewrite app_nil_r, <- !app_assoc. reflexivity.
  - rewrite (firstn_all2 (n := n) text), (skipn_all2 (n := n) text) by lia.
    rewrite !app_nil_r.
    rewrite firstn_all2 by (rewrite List.length_app; lia).
    rewrite skipn_all2 by (rewrite List.length_app; lia).
    rewrite app_nil_r, <- app_assoc. reflexivity.
Qed.

Lemma insertStr_twice_witness :
  insertStr (lit "c") (insertStr (lit "b") (helloAt 2))
  = insertStr (lit "bc") (helloAt 2).
Proof.
  assert (H0 : 0 <= insertionPoint (helloAt 2)) by (vm_compute; discriminate).
  assert (Hsafe : insertionPoint (helloAt 2) + Js.length (lit "b") + Js.length (lit "c")
                  <= maxSafeInteger) by (vm_compute; discriminate).
  exact (proj1 (insertStr_twice (lit "b") (lit "c") (helloAt 2) H0 Hsafe)).
Defined.

(** X3: removing with [clearRangeSafe] the range a text was just
    inserted into gives back the state before the insertion. *)
Theorem insertStr_then_clearRangeSafe (s : JsString) (b : LineBuffer) :
  inRange b ->
  clearRangeSafe (insertionPoint b) (insertionPoint b + Js.length s) (insertStr s b) = b.
Proof.
  intros [H0 Hlen]. destruct b as [text ip]. unfold len, Js.length in *.
  cbn [lines insertionPoint] in *.
  unfold clearRangeSafe. rewrite ordered_bounds.
  rewrite Z.min_l, Z.max_r by lia.
  unfold len. rewrite insertStr_text. unfold insertStr. cbn [lines insertionPoint].
  unfold Js.length. rewrite !List.length_app, length_firstn, length_skipn.
  rewrite substring_from_zero, substringFrom_skipn.
  set (n := Z.to_nat ip).
  assert (Hl : List.length (firstn n text) = n) by (rewrite length_firstn; lia).
  destruct (Z.leb_spec
              (Z.of_nat (Nat.min n (List.length text)
                         + (List.length s + (List.length text - n)))) ip) as [Hg|Hg].
  - assert (Hs : s = []) by (destruct s; [reflexivity|simpl in Hg; lia]).
    subst s. cbn [app List.length]. rewrite firstn_skipn. f_equal. lia.
  - rewrite Z.min_l by lia.
    rewrite substring_from_zero, substringFrom_skipn. fold n.
    replace (Z.to_nat (ip + Z.of_nat (List.length s))) with (n + List.length s)%nat by lia.
    rewrite firstn_app, Hl, Nat.sub_diag, firstn_firstn, Nat.min_id.
    cbn [firstn]. rewrite app_nil_r.
    rewrite (app_assoc (firstn n text) s), skipn_app, List.length_app, Hl.
    rewrite skipn_all2 by (rewrite List.length_app; lia).
    replace (n + List.length s - (n + List.length s))%nat with 0%nat by lia.
    cbn [skipn app]. rewrite firstn_skipn. f_equal.
    cursor_cases.
Qed.

Lemma insertStr_then_clearRangeSafe_witness :
  clearRangeSafe 2 4 (insertStr grinningFace (helloAt 2)) = helloAt 2.
Proof.
  apply (insertStr_then_clearRangeSafe grinningFace (helloAt 2)).
  vm_compute. split; discriminate.
Defined.

(** X4: [clearToEnd] keeps what [clearToInsertionPoint] removes and the
    other way round: the two remainders, in this order, are the text.
    [clearToInsertionPoint] leaves the cursor at 0, [clearToEnd] leaves
    it where it was. *)
Theorem clearToEnd_and_clearToInsertionPoint_split (b : LineBuffer) :
  getBuffer (clearToEnd b) ++ getBuffer (clearToInsertionPoint b) = getBuffer b
  /\ getInsertionPoint (clearToInsertionPoint b) = 0
  /\ getInsertionPoint (clearToEnd b) = getInsertionPoint b
  /\ len (clearToEnd b) = clampZ b (insertionPoint b).
Proof.
  unfold clearToEnd, clearToInsertionPoint, getBuffer, getInsertionPoint, clampZ, len.
  cbn [lines insertionPoint].
  rewrite substring_from_zero, substringFrom_skipn.
  repeat split; [apply firstn_skipn|].
  unfold Js.length. rewrite length_firstn. lia.
Qed.

(** X5: [clearRangeSafe] never lengthens the text: whatever the
    arguments, the new length is the old one minus the distance between
    the two bounds once both are clamped into the text. *)
Theorem clearRangeSafe_length (b : LineBuffer) (start end_ : Z) :
  len (clearRangeSafe start end_ b)
  = len b - (clampZ b (Z.max start end_) - clampZ b (Z.min start end_))
  /\ len (clearRangeSafe start end_ b) <= len b.
Proof.
  assert (H : len (clearRangeSafe start end_ b)
              = len b - (clampZ b (Z.max start end_) - clampZ b (Z.min start end_))).
  { unfold clearRangeSafe. rewrite ordered_bounds. unfold clampZ.
    destruct (Z.leb_spec (len b) (Z.min start end_)) as [Hg|Hg]; [lia|].
    unfold len in *. cbn [lines].
    rewrite substring_from_zero, substringFrom_skipn.
    unfold Js.length in *. rewrite List.length_app, length_firstn, length_skipn. lia. }
  split; [exact H|]. rewrite H. unfold clampZ. lia.
Qed.

(** *** The list of grapheme indices *)

Lemma pairs_ind (P : JsString -> Prop) :
  P [] -> (forall c, P [c]) ->
  (forall c d t, P t -> P (d :: t) -> P (c :: d :: t)) ->
  forall s, P s.
Proof.
  intros Hnil Hone Hstep.
  assert (H : forall s, P s /\ forall c, P (c :: s)).
  { induction s as [|d t [IH1 IH2]]; split; auto. }
  intro s. apply H.
Qed.

Lemma arrayFrom_concat (s : JsString) : List.concat (arrayFrom s) = s.
Proof.
  induction s as [| c | c d t IH1 IH2] using pairs_ind; try reflexivity.
  destruct (isHighSurrogate c && isLowSurrogate d) eqn:E.
  - rewrite (arrayFrom_pair c d t E). cbn [List.concat app]. now rewrite IH1.
  - rewrite (arrayFrom_single c d t E). cbn [List.concat app]. now rewrite IH2.
Qed.

Lemma arrayFrom_nonempty (s : JsString) :
  Forall (fun ch => 1 <= Js.length ch <= 2) (arrayFrom s).
Proof.
  induction s as [| c | c d t IH1 IH2] using pairs_ind.
  - constructor.
  - repeat constructor; unfold Js.length; simpl; lia.
  - destruct (isHighSurrogate c && isLowSurrogate d) eqn:E.
    + rewrite (arrayFrom_pair c d t E). constructor; [unfold Js.length; simpl; lia|exact IH1].
    + rewrite (arrayFrom_single c d t E). constructor; [unfold Js.length; simpl; lia|exact IH2].
Qed.

Lemma runningIndices_increasing (chars : list JsString) (cur : Z) :
  Forall (fun ch => 1 <= Js.length ch <= 2) chars ->
  increasing cur (runningIndices cur chars).
Proof.
  intro H. revert cur. induction H as [|ch r Hch Hr IH]; intro cur; simpl; [exact I|].
  split; [lia|apply IH].
Qed.

Lemma runningIndices_length (chars : list JsString) (cur : Z) :
  List.length (runningIndices cur chars) = List.length chars.
Proof. revert cur. induction chars; intro cur; simpl; [reflexivity|]. now rewrite IHchars. Qed.

Lemma runningIndices_last (chars : list JsString) (cur : Z) :
  item (cur :: runningIndices cur chars) (Z.of_nat (List.length chars))
  = cur + Js.length (List.concat chars).
Proof.
  revert cur. induction chars as [|ch r IH]; intro cur.
  - unfold item, Js.length. simpl. lia.
  - specialize (IH (cur + Js.length ch)). unfold item in *.
    rewrite Nat2Z.id in *. cbn [List.concat]. rewrite length_app, Z.add_assoc, <- IH.
    reflexivity.
Qed.

Lemma runningIndices_upper (chars : list JsString) (cur x : Z) :
  In x (runningIndices cur chars) -> x <= cur + Js.length (List.concat chars).
Proof.
  revert cur. induction chars as [|ch r IH]; intros cur Hin; [contradiction|].
  cbn [runningIndices] in Hin. cbn [List.concat]. rewrite length_app.
  pose proof (length_nonneg (List.concat r)).
  destruct Hin as [<-|Hin]; [lia|]. specialize (IH _ Hin). lia.
Qed.

Lemma getGraphemeIndices_increasing (b : LineBuffer) :
  increasing (-1) (getGraphemeIndices b).
Proof.
  unfold getGraphemeIndices. split; [lia|].
  apply runningIndices_increasing, arrayFrom_nonempty.
Qed.

Lemma getGraphemeIndices_length (b : LineBuffer) :
  Z.of_nat (List.length (getGraphemeIndices b))
  = Z.of_nat (List.length (arrayFrom (lines b))) + 1.
Proof.
  unfold getGraphemeIndices. cbn [List.length]. rewrite runningIndices_length. lia.
Qed.

Lemma getGraphemeIndices_last (b : LineBuffer) :
  item (getGraphemeIndices b) (Z.of_nat (List.length (arrayFrom (lines b)))) = len b.
Proof.
  unfold getGraphemeIndices. rewrite runningIndices_last, arrayFrom_concat.
  unfold len. lia.
Qed.

Lemma getGraphemeIndices_bounds (b : LineBuffer) (x : Z) :
  In x (getGraphemeIndices b) -> 0 <= x <= len b.
Proof.
  intro Hin. split.
  - exact (ascending_lower _ _ _ (getGraphemeIndices_ascending b) Hin).
  - unfold getGraphemeIndices in Hin. destruct Hin as [<-|Hin].
    + apply length_nonneg.
    + apply runningIndices_upper in Hin. rewrite arrayFrom_concat in Hin.
      unfold len. lia.
Qed.

Lemma item_In (l : list Z) (k : Z) :
  0 <= k < Z.of_nat (List.length l) -> In (item l k) l.
Proof. intro H. unfold item. apply nth_In. lia. Qed.

Lemma increasing_lower (l : list Z) (lo x : Z) :
  increasing lo l -> In x l -> lo < x.
Proof.
  revert lo. induction l as [|y r IH]; intros lo Hinc Hin; [contradiction|].
  destruct Hinc as [Hy Hr]. destruct Hin as [->|Hin]; [assumption|].
  specialize (IH y Hr Hin). lia.
Qed.

Lemma findIndex_upper (l : list Z) (v : Z) :
  findIndex l v < Z.of_nat (List.length l) \/ l = [].
Proof.
  induction l as [|x r IH]; [now right|]. left. cbn [findIndex List.length].
  destruct (x =? v); [lia|].
  destruct (Z.ltb_spec (findIndex r v) 0); [lia|].
  destruct IH as [IH | ->]; [lia|]. simpl in *. lia.
Qed.

Lemma findIndex_In (l : list Z) (v : Z) : In v l -> 0 <= findIndex l v.
Proof.
  induction l as [|x r IH]; [contradiction|]. intros [->|Hin]; simpl.
  - rewrite Z.eqb_refl. lia.
  - destruct (x =? v); [lia|]. specialize (IH Hin).
    destruct (Z.ltb_spec (findIndex r v) 0); lia.
Qed.

Lemma findIndex_of_item (l : list Z) (lo k : Z) :
  increasing lo l -> 0 <= k < Z.of_nat (List.length l) ->
  findIndex l (item l k) = k.
Proof.
  revert lo k. induction l as [|x r IH]; intros lo k Hinc Hk; [simpl in Hk; lia|].
  destruct Hinc as [Hx Hr].
  destruct (Z.eq_dec k 0) as [->|Hk0].
  - unfold item. simpl. now rewrite Z.eqb_refl.
  - assert (Hitem : item (x :: r) k = item r (k - 1)).
    { unfold item. replace (Z.to_nat k) with (S (Z.to_nat (k - 1))) by lia. reflexivity. }
    rewrite Hitem. cbn [findIndex List.length] in *.
    assert (Hk' : 0 <= k - 1 < Z.of_nat (List.length r)) by lia.
    pose proof (increasing_lower r x _ Hr (item_In r (k - 1) Hk')) as Hlt.
    destruct (Z.eqb_spec x (item r (k - 1))); [lia|].
    rewrite (IH x (k - 1) Hr Hk').
    destruct (Z.ltb_spec (k - 1) 0); lia.
Qed.

Lemma item_step (l : list Z) (lo k : Z) :
  increasing lo l -> 0 <= k -> k + 1 < Z.of_nat (List.length l) ->
  item l k < item l (k + 1).
Proof.
  revert lo k. induction l as [|x r IH]; intros lo k Hinc Hk Hlen; [simpl in Hlen; lia|].
  destruct Hinc as [Hx Hr]. cbn [List.length] in Hlen.
  destruct (Z.eq_dec k 0) as [->|Hk0].
  - unfold item. simpl. destruct r as [|y r']; [simpl in Hlen; lia|]. now destruct Hr.
  - unfold item in *.
    replace (Z.to_nat k) with (S (Z.to_nat (k - 1))) by lia.
    replace (Z.to_nat (k + 1)) with (S (Z.to_nat (k - 1 + 1))) by lia.
    cbn [nth]. apply (IH x); [assumption|lia|lia].
Qed.

Lemma isValid_findIndex (b : LineBuffer) :
  isValid b = true ->
  0 <= findIndex (getGraphemeIndices b) (insertionPoint b)
    < Z.of_nat (List.length (getGraphemeIndices b))
  /\ item (getGraphemeIndices b) (findIndex (getGraphemeIndices b) (insertionPoint b))
     = insertionPoint b.
Proof.
  intro Hv.
  assert (Hin : In (insertionPoint b) (getGraphemeIndices b)).
  { unfold isValid in Hv.
    destruct (Z.ltb_spec (len b) (insertionPoint b)); [discriminate|].
    apply orb_true_iff in Hv. destruct Hv as [Hv|Hv].
    - apply existsb_exists in Hv. destruct Hv as [x [Hx Hxe]].
      apply Z.eqb_eq in Hxe. now subst x.
    - apply Z.eqb_eq in Hv. rewrite Hv, <- getGraphemeIndices_last.
      apply item_In. rewrite getGraphemeIndices_length. lia. }
  pose proof (findIndex_In _ _ Hin) as H0.
  split; [|now apply findIndex_item].
  split; [assumption|].
  destruct (findIndex_upper (getGraphemeIndices b) (insertionPoint b)) as [H|H];
    [assumption|discriminate].
Qed.

Lemma isValid_of_index (b : LineBuffer) (p : Z) :
  In p (getGraphemeIndices b) -> isValid (mkLineBuffer (lines b) p) = true.
Proof.
  intro Hin. pose proof (getGraphemeIndices_bounds b p Hin) as [H0 Hl].
  unfold isValid, len in *. cbn [lines insertionPoint].
  destruct (Z.ltb_spec (Js.length (lines b)) p); [lia|].
  apply orb_true_iff. left. apply existsb_exists. exists p.
  split; [exact Hin|apply Z.eqb_refl].
Qed.

Lemma graphemeRightIndex_cases (b : LineBuffer) :
  graphemeRightIndex b = len b
  \/ (let k := findIndex (getGraphemeIndices b) (insertionPoint b) in
      0 <= k /\ k + 1 < Z.of_nat (List.length (getGraphemeIndices b))
      /\ graphemeRightIndex b = item (getGraphemeIndices b) (k + 1)).
Proof.
  unfold graphemeRightIndex.
  pose proof (findIndex_lower (getGraphemeIndices b) (insertionPoint b)) as Hlow.
  destruct (Z.eqb_spec (findIndex (getGraphemeIndices b) (insertionPoint b)) (-1));
    [now left|].
  destruct (Z.leb_spec (Z.of_nat (List.length (getGraphemeIndices b)))
              (findIndex (getGraphemeIndices b) (insertionPoint b) + 1));
    [now left|].
  right. cbn zeta. repeat split; try lia.
Qed.

(** *** Moving by graphemes *)

(** X6: whatever the state, also one whose insertion point was assigned
    out of range or inside a surrogate pair, [moveRight] and [moveLeft]
    leave the text alone and put the cursor on a grapheme index: the
    state they give is valid. *)
Theorem moveRight_moveLeft_give_valid_state (b : LineBuffer) :
  isValid (moveRight b) = true /\ getBuffer (moveRight b) = getBuffer b
  /\ isValid (moveLeft b) = true /\ getBuffer (moveLeft b) = getBuffer b.
Proof.
  split; [|split; [reflexivity|split; [|reflexivity]]].
  - unfold moveRight, moveTo.
    destruct (graphemeRightIndex_cases b) as [->|[Hk [Hlen ->]]].
    + apply isValid_at_end.
    + apply isValid_of_index, item_In. lia.
  - unfold moveLeft, moveTo, graphemeLeftIndex.
    pose proof (findIndex_upper (getGraphemeIndices b) (insertionPoint b)) as [Hu|Hu];
      [|discriminate].
    destruct (Z.leb_spec (findIndex (getGraphemeIndices b) (insertionPoint b)) 0).
    + apply isValid_of_index. now left.
    + apply isValid_of_index, item_In. lia.
Qed.

(** X7: in a valid state with the cursor before the end, [moveRight]
    moves the cursor forward and [moveLeft] brings it back; with the
    cursor behind the start, [moveLeft] moves it backward and [moveRight]
    brings it back. *)
Theorem moveRight_moveLeft_inverse (b : LineBuffer) :
  isValid b = true ->
  (insertionPoint b < len b ->
     insertionPoint b < insertionPoint (moveRight b) <= len b
     /\ moveLeft (moveRight b) = b)
  /\ (0 < insertionPoint b ->
        0 <= insertionPoint (moveLeft b) < insertionPoint b
        /\ moveRight (moveLeft b) = b).
Proof.
  intro Hv. destruct (isValid_findIndex b Hv) as [[Hk0 Hklen] Hitem].
  pose proof (getGraphemeIndices_increasing b) as Hinc.
  pose proof (getGraphemeIndices_length b) as HL.
  pose proof (getGraphemeIndices_last b) as Hlast.
  destruct b as [text ip]. cbn [lines insertionPoint] in *.
  set (ix := getGraphemeIndices (mkLineBuffer text ip)) in *.
  assert (Hix : forall p, getGraphemeIndices (mkLineBuffer text p) = ix) by reflexivity.
  set (k := findIndex ix ip) in *.
  split; intro Hip.
  - assert (Hnext : k + 1 < Z.of_nat (List.length ix)).
    { destruct (Z.eq_dec k (Z.of_nat (List.length (arrayFrom text)))) as [E|E]; [|lia].
      rewrite <- E in Hlast. unfold len in *. cbn [lines] in *. lia. }
    assert (HR : graphemeRightIndex (mkLineBuffer text ip) = item ix (k + 1)).
    { unfold graphemeRightIndex. cbn [insertionPoint]. rewrite Hix. fold k.
      destruct (Z.eqb_spec k (-1)); [lia|].
      destruct (Z.leb_spec (Z.of_nat (List.length ix)) (k + 1)); [lia|]. reflexivity. }
    pose proof (item_step ix (-1) k Hinc Hk0 Hnext) as Hstep.
    pose proof (getGraphemeIndices_bounds (mkLineBuffer text ip) (item ix (k + 1))
                  (item_In ix (k + 1) ltac:(lia))) as [_ Hup].
    unfold moveRight, moveTo. rewrite HR. cbn [lines insertionPoint].
    split; [lia|].
    unfold moveLeft, moveTo, graphemeLeftIndex. cbn [lines insertionPoint].
    rewrite Hix, (findIndex_of_item ix (-1) (k + 1) Hinc) by lia.
    destruct (Z.leb_spec (k + 1) 0); [lia|].
    replace (k + 1 - 1) with k by lia. now rewrite Hitem.
  - assert (Hk1 : 1 <= k).
    { destruct (Z.eq_dec k 0) as [E|E]; [|lia].
      rewrite E in Hitem. unfold item in Hitem. simpl in Hitem. lia. }
    assert (HLi : graphemeLeftIndex (mkLineBuffer text ip) = item ix (k - 1)).
    { unfold graphemeLeftIndex. cbn [insertionPoint]. rewrite Hix. fold k.
      destruct (Z.leb_spec k 0); [lia|]. reflexivity. }
    pose proof (item_step ix (-1) (k - 1) Hinc ltac:(lia) ltac:(lia)) as Hstep.
    replace (k - 1 + 1) with k in Hstep by lia.
    pose proof (getGraphemeIndices_bounds (mkLineBuffer text ip) (item ix (k - 1))
                  (item_In ix (k - 1) ltac:(lia))) as [Hlo _].
    unfold moveLeft, moveTo. rewrite HLi. cbn [lines insertionPoint].
    split; [lia|].
    unfold moveRight, moveTo, graphemeRightIndex. cbn [lines insertionPoint].
    rewrite Hix, (findIndex_of_item ix (-1) (k - 1) Hinc) by lia.
    destruct (Z.eqb_spec (k - 1) (-1)); [lia|].
    replace (k - 1 + 1) with k by lia.
    destruct (Z.leb_spec (Z.of_nat (List.length ix)) k); [lia|].
    cbn [orb]. now rewrite Hitem.
Qed.

Lemma moveRight_moveLeft_inverse_witness :
  moveLeft (moveRight (at_ ([97] ++ grinningFace ++ [98]) 1))
    = at_ ([97] ++ grinningFace ++ [98]) 1
  /\ moveRight (moveLeft emojiBetweenLetters) = emojiBetweenLetters.
Proof.
  split.
  - apply (moveRight_moveLeft_inverse (at_ ([97] ++ grinningFace ++ [98]) 1) eq_refl).
    reflexivity.
  - apply (moveRight_moveLeft_inverse emojiBetweenLetters eq_refl). reflexivity.
Defined.

Lemma graphemeRightIndex_bounds (b : LineBuffer) :
  isValid b = true -> insertionPoint b <= graphemeRightIndex b <= len b.
Proof.
  intro Hv. pose proof (isValid_bounds b Hv) as [H0 Hl].
  destruct (isValid_findIndex b Hv) as [[Hk0 Hklen] Hitem].
  destruct (graphemeRightIndex_cases b) as [->|[_ [Hnext ->]]]; [lia|].
  pose proof (item_step _ (-1) _ (getGraphemeIndices_increasing b) Hk0 Hnext) as Hstep.
  pose proof (getGraphemeIndices_bounds b _
                (item_In (getGraphemeIndices b)
                   (findIndex (getGraphemeIndices b) (insertionPoint b) + 1)
                   ltac:(lia))) as [_ Hup].
  lia.
Qed.

(** X8: in a valid state, deleting the grapheme right of the cursor and
    inserting the deleted text ([graphemeRight()] taken beforehand) gives
    the original text with the cursor behind that grapheme, which is the
    state [moveRight] gives. *)
Theorem deleteRightGrapheme_insertStr_is_moveRight (b : LineBuffer) :
  isValid b = true ->
  insertStr (graphemeRight b) (deleteRightGrapheme b) = moveRight b.
Proof.
  intro Hv. pose proof (isValid_bounds b Hv) as [H0 Hlen].
  pose proof (graphemeRightIndex_bounds b Hv) as [HR0 HRl].
  unfold graphemeRight, deleteRightGrapheme, moveRight, moveTo.
  remember (graphemeRightIndex b) as R eqn:ER. clear ER.
  destruct b as [text ip]. unfold len in *. cbn [lines insertionPoint] in *.
  rewrite (substring_between text ip R) by lia.
  unfold clearRangeSafe. rewrite ordered_bounds.
  rewrite Z.min_l, Z.max_r by lia. unfold len. cbn [lines insertionPoint].
  destruct (Z.leb_spec (Js.length text) ip) as [Hg|Hg].
  - assert (R = ip) by lia. subst R.
    unfold insertStr. cbn [lines insertionPoint].
    rewrite substring_from_zero, substringFrom_skipn, Nat.sub_diag. cbn [firstn app].
    rewrite firstn_skipn. f_equal. unfold Js.length. simpl. lia.
  - rewrite Z.min_l by lia.
    rewrite substring_from_zero, substringFrom_skipn.
    rewrite Z.ltb_irrefl. unfold insertStr. cbn [lines insertionPoint].
    rewrite substring_from_zero, substringFrom_skipn.
    unfold Js.length in *. f_equal.
    + apply splice_back. lia.
    + rewrite length_firstn, length_skipn. lia.
Qed.

Lemma deleteRightGrapheme_insertStr_is_moveRight_witness :
  insertStr (graphemeRight (at_ ([97] ++ grinningFace ++ [98]) 1))
    (deleteRightGrapheme (at_ ([97] ++ grinningFace ++ [98]) 1))
  = emojiBetweenLetters.
Proof.
  apply (deleteRightGrapheme_insertStr_is_moveRight
           (at_ ([97] ++ grinningFace ++ [98]) 1)).
  reflexivity.
Defined.

(** X9: at the start of the text [deleteLeftGrapheme] changes nothing,
    and at its end [deleteRightGrapheme] changes nothing. *)
Theorem delete_grapheme_at_the_edges (b : LineBuffer) :
  (insertionPoint b = 0 -> deleteLeftGrapheme b = b)
  /\ (insertionPoint b = len b -> deleteRightGrapheme b = b).
Proof.
  split; intro Hip.
  - unfold deleteLeftGrapheme, graphemeLeftIndex. rewrite Hip.
    unfold getGraphemeIndices. cbn [findIndex]. rewrite Z.eqb_refl. cbn [Z.leb Z.compare].
    unfold clearRangeSafe. rewrite ordered_bounds, Z.min_id, Z.max_id.
    destruct (Z.leb_spec (len b) 0); [reflexivity|].
    rewrite substring_from_zero, substringFrom_skipn.
    pose proof (length_nonneg (lines b)). unfold len in *.
    rewrite Z.min_l by lia. cbn [Z.to_nat firstn skipn app].
    destruct b as [text ip]. cbn [lines insertionPoint] in *. subst ip. reflexivity.
  - assert (HR : graphemeRightIndex b = len b).
    { destruct (graphemeRightIndex_cases b) as [H|[Hk0 [Hnext HR]]]; [exact H|].
      pose proof (item_step _ (-1) _ (getGraphemeIndices_increasing b) Hk0 Hnext) as Hstep.
      rewrite (findIndex_item _ _ Hk0) in Hstep.
      pose proof (getGraphemeIndices_bounds b _
                    (item_In (getGraphemeIndices b)
                       (findIndex (getGraphemeIndices b) (insertionPoint b) + 1)
                       ltac:(lia))) as [_ Hup].
      lia. }
    unfold deleteRightGrapheme. rewrite HR, Hip.
    unfold clearRangeSafe. rewrite Z.ltb_irrefl, Z.leb_refl. reflexivity.
Qed.

Lemma delete_grapheme_at_the_edges_witness :
  deleteLeftGrapheme (helloAt 0) = helloAt 0
  /\ deleteRightGrapheme (helloAt 5) = helloAt 5.
Proof.
  split.
  - apply (delete_grapheme_at_the_edges (helloAt 0)). reflexivity.
  - apply (delete_grapheme_at_the_edges (helloAt 5)). reflexivity.
Defined.

(** *** What [isValid] accepts *)

Lemma surrogates_disjoint (c : Z) :
  isHighSurrogate c = true -> isLowSurrogate c = true -> False.
Proof.
  unfold isHighSurrogate, isLowSurrogate. intros H L.
  apply andb_true_iff in H, L. destruct H as [_ H], L as [L _].
  apply Z.leb_le in H, L. lia.
Qed.

Lemma index_does_not_split_pair (s : JsString) :
  forall (base : Z) (k : nat) (h l : Z),
    In (base + Z.of_nat k) (base :: runningIndices base (arrayFrom s)) ->
    (1 <= k)%nat ->
    nth_error s (k - 1) = Some h -> nth_error s k = Some l ->
    isHighSurrogate h = true -> isLowSurrogate l = true -> False.
Proof.
  induction s as [| c | c d t IH1 IH2] using pairs_ind;
    intros base k h l Hin Hk Hh Hl HH HL.
  - destruct k; discriminate.
  - destruct k as [|[|k]]; simpl in Hl; try discriminate; lia.
  - destruct Hin as [Hin|Hin]; [lia|].
    destruct (isHighSurrogate c && isLowSurrogate d) eqn:E.
    + rewrite (arrayFrom_pair c d t E) in Hin. cbn [runningIndices] in Hin.
      assert (Hge : base + Js.length [c; d] <= base + Z.of_nat k).
      { apply (ascending_lower (base + Js.length [c; d]
                                  :: runningIndices (base + Js.length [c; d]) (arrayFrom t)));
          [|exact Hin].
        split; [lia|apply runningIndices_ascending]. }
      unfold Js.length in Hge. simpl in Hge.
      destruct k as [|[|k]]; try lia.
      apply andb_true_iff in E. destruct E as [_ Ed].
      destruct k as [|k].
      * simpl in Hh. injection Hh as <-. exact (surrogates_disjoint d HH Ed).
      * apply (IH1 (base + Js.length [c; d]) (S k) h l); auto; try lia.
        -- replace (base + Js.length [c; d] + Z.of_nat (S k))
             with (base + Z.of_nat (S (S (S k))))
             by (unfold Js.length; simpl; lia).
           exact Hin.
        -- simpl in Hh. now replace (S k - 1)%nat with k by lia.
    + rewrite (arrayFrom_single c d t E) in Hin. cbn [runningIndices] in Hin.
      destruct k as [|[|k]]; try lia.
      * simpl in Hh, Hl. injection Hh as <-. injection Hl as <-.
        rewrite HH, HL in E. discriminate.
      * apply (IH2 (base + Js.length [c]) (S k) h l); auto; try lia.
        -- replace (base + Js.length [c] + Z.of_nat (S k))
             with (base + Z.of_nat (S (S k)))
             by (unfold Js.length; simpl; lia).
           exact Hin.
        -- simpl in Hh. now replace (S k - 1)%nat with k by lia.
Qed.

(** X10: [isValid] accepts exactly the insertion points that are
    offsets of the text and do not separate a high surrogate from the
    low surrogate after it: the check is on code points. *)
Theorem isValid_iff_code_point_boundary (b : LineBuffer) :
  isValid b = true
  <-> inRange b /\ ~ splitsPair (lines b) (insertionPoint b).
Proof.
  split.
  - intro Hv. pose proof (isValid_bounds b Hv) as Hr. split; [exact Hr|].
    destruct (isValid_findIndex b Hv) as [[Hk0 Hklen] Hitem].
    pose proof (item_In _ _ (conj Hk0 Hklen)) as Hin. rewrite Hitem in Hin.
    intros [h [l [Hh [Hl [HH HL]]]]].
    destruct b as [text ip]. cbn [lines insertionPoint] in *.
    unfold charCodeAt in Hh, Hl.
    destruct (Z.ltb_spec (ip - 1) 0); [discriminate|].
    destruct (Z.ltb_spec ip 0); [discriminate|].
    apply (index_does_not_split_pair text 0 (Z.to_nat ip) h l); auto; try lia.
    + unfold getGraphemeIndices in Hin. cbn [lines] in Hin.
      now replace (0 + Z.of_nat (Z.to_nat ip)) with ip by lia.
    + now replace (Z.to_nat ip - 1)%nat with (Z.to_nat (ip - 1)) by lia.
  - intros [[H0 Hl] Hns]. destruct b as [text ip].
    unfold len, Js.length in Hl. cbn [lines insertionPoint] in *.
    destruct (offset_is_index_or_splits_pair (List.length text) text 0 (Z.to_nat ip)
                (le_n _) ltac:(lia)) as [Hin|[h [l [Hh [Hlo [Hk [HH HL]]]]]]].
    + replace (0 + Z.of_nat (Z.to_nat ip)) with ip in Hin by lia.
      exact (isValid_of_index (mkLineBuffer text ip) ip Hin).
    + exfalso. apply Hns. exists h, l. unfold charCodeAt.
      destruct (Z.ltb_spec (ip - 1) 0); [lia|].
      destruct (Z.ltb_spec ip 0); [lia|].
      replace (Z.to_nat (ip - 1)) with (Z.to_nat ip - 1)%nat by lia.
      repeat split; assumption.
Qed.

(** *** Lines *)

Lemma lineFeeds_app (s t : JsString) : lineFeeds (s ++ t) = lineFeeds s + lineFeeds t.
Proof. unfold lineFeeds. rewrite count_occ_app. lia. Qed.

Lemma lineFeeds_nonneg (s : JsString) : 0 <= lineFeeds s.
Proof. unfold lineFeeds. lia. Qed.

Lemma lineFeeds_cons (c : Z) (s : JsString) :
  lineFeeds (c :: s) = (if c =? 10 then 1 else 0) + lineFeeds s.
Proof.
  unfold lineFeeds. destruct (Z.eqb_spec c 10) as [->|Hne].
  - rewrite count_occ_cons_eq by reflexivity. lia.
  - rewrite count_occ_cons_neq by assumption. lia.
Qed.

Lemma lineFeeds_firstn (s : JsString) (n : nat) :
  lineFeeds (firstn n s) <= lineFeeds s.
Proof.
  rewrite <- (firstn_skipn n s) at 2. rewrite lineFeeds_app.
  pose proof (lineFeeds_nonneg (skipn n s)). lia.
Qed.

Lemma splitOn_not_nil (sep : Z) (s : JsString) : splitOn sep s <> [].
Proof.
  destruct s as [|c t]; simpl; [discriminate|].
  destruct (c =? sep); [discriminate|]. destruct (splitOn sep t); discriminate.
Qed.

Lemma splitOn_length (s : JsString) :
  Z.of_nat (List.length (splitOn 10 s)) = lineFeeds s + 1.
Proof.
  induction s as [|c t IH]; [reflexivity|].
  rewrite lineFeeds_cons. cbn [splitOn]. destruct (c =? 10).
  - cbn [List.length]. lia.
  - pose proof (splitOn_not_nil 10 t) as Hne.
    destruct (splitOn 10 t) as [|w r]; [contradiction|]. cbn [List.length] in *. lia.
Qed.

(** The first piece of a split, then the separator and the split of
    the rest, or the whole text when it has no separator. *)
Lemma splitOn_head (s : JsString) :
  forall w r, splitOn 10 s = w :: r ->
    lineFeeds w = 0
    /\ ((r = [] /\ s = w) \/ (exists t, s = w ++ 10 :: t /\ splitOn 10 t = r)).
Proof.
  induction s as [|c t IH]; intros w r; cbn [splitOn].
  - intros [= <- <-]. split; [reflexivity|left; now split].
  - destruct (Z.eqb_spec c 10) as [->|Hne].
    + intros [= <- <-]. split; [reflexivity|]. right. now exists t.
    + pose proof (splitOn_not_nil 10 t) as Hnn.
      destruct (splitOn 10 t) as [|w' r'] eqn:E; [contradiction|].
      intros [= <- <-]. destruct (IH w' r' eq_refl) as [Hw Hcase].
      split.
      * rewrite lineFeeds_cons. destruct (Z.eqb_spec c 10); [contradiction|lia].
      * destruct Hcase as [[-> ->]|[t' [-> Ht']]].
        -- left. now split.
        -- right. exists t'. now split.
Qed.

Lemma line_eq (b : LineBuffer) :
  line b = lineFeeds (firstn (Z.to_nat (insertionPoint b)) (lines b)).
Proof. unfold line. rewrite splitOn_length, substring_from_zero. lia. Qed.

Lemma numLines_eq (b : LineBuffer) : numLines b = lineFeeds (lines b) + 1.
Proof. unfold numLines. apply splitOn_length. Qed.

(** X11: [line()] is the number of line feeds before the cursor and
    [numLines()] the number of line feeds plus one, so in every state
    the line index is at least 0 and below the number of lines. *)
Theorem line_below_numLines (b : LineBuffer) :
  line b = lineFeeds (firstn (Z.to_nat (insertionPoint b)) (lines b))
  /\ numLines b = lineFeeds (lines b) + 1
  /\ 0 <= line b < numLines b.
Proof.
  rewrite line_eq, numLines_eq. repeat split.
  - apply lineFeeds_nonneg.
  - pose proof (lineFeeds_firstn (lines b) (Z.to_nat (insertionPoint b))). lia.
Qed.

(** X12: on the first line [moveLineUp] changes nothing, and on the
    last line [moveLineDown] changes nothing. *)
Theorem line_moves_stop_at_the_edges (b : LineBuffer) :
  (isCursorAtFirstLine b = true -> moveLineUp b = b)
  /\ (isCursorAtLastLine b = true -> moveLineDown b = b).
Proof.
  split; intro H.
  - unfold isCursorAtFirstLine in H. apply Z.eqb_eq in H. unfold line in H.
    unfold moveLineUp.
    destruct (Z.leb_spec
                (Z.of_nat (List.length (splitOn 10 (substring (lines b) 0 (insertionPoint b)))))
                1); [reflexivity|lia].
  - unfold isCursorAtLastLine in H. apply Z.eqb_eq in H.
    rewrite line_eq, numLines_eq in H.
    rewrite <- (firstn_skipn (Z.to_nat (insertionPoint b)) (lines b)) in H at 2.
    rewrite lineFeeds_app in H.
    unfold moveLineDown. rewrite splitOn_length, substringFrom_skipn.
    destruct (Z.leb_spec (lineFeeds (skipn (Z.to_nat (insertionPoint b)) (lines b)) + 1) 1);
      [reflexivity|lia].
Qed.

Lemma line_moves_stop_at_the_edges_witness :
  moveLineUp (helloAt 3) = helloAt 3 /\ moveLineDown (helloAt 3) = helloAt 3.
Proof.
  split.
  - apply (line_moves_stop_at_the_edges (helloAt 3)). reflexivity.
  - apply (line_moves_stop_at_the_edges (helloAt 3)). reflexivity.
Defined.

(** X13: inserting a text adds its line feeds to the number of lines
    and, the insertion point not being negative, to the line index of
    the cursor; [insertNewline] adds one to both. *)
Theorem insertStr_adds_lines (s : JsString) (b : LineBuffer) :
  0 <= insertionPoint b ->
  numLines (insertStr s b) = numLines b + lineFeeds s
  /\ line (insertStr s b) = line b + lineFeeds s
  /\ numLines (insertNewline b) = numLines b + 1
  /\ line (insertNewline b) = line b + 1.
Proof.
  intro H0.
  assert (Hn : forall t, numLines (insertStr t b) = numLines b + lineFeeds t).
  { intro t. rewrite !numLines_eq, insertStr_text, !lineFeeds_app.
    rewrite <- (firstn_skipn (Z.to_nat (insertionPoint b)) (lines b)) at 3.
    rewrite lineFeeds_app. lia. }
  assert (Hl : forall t, line (insertStr t b) = line b + lineFeeds t).
  { intro t. rewrite !line_eq, insertStr_text. unfold insertStr. cbn [insertionPoint].
    replace (Z.to_nat (insertionPoint b + Js.length t))
      with (Z.to_nat (insertionPoint b) + List.length t)%nat
      by (unfold Js.length; lia).
    set (n := Z.to_nat (insertionPoint b)).
    assert (Hf : firstn (n + List.length t) (firstn n (lines b) ++ t ++ skipn n (lines b))
                 = firstn n (lines b) ++ t).
    { destruct (Nat.le_gt_cases n (List.length (lines b))) as [Hle|Hgt].
      - assert (Hlen : List.length (firstn n (lines b)) = n)
          by (rewrite length_firstn; lia).
        rewrite app_assoc, firstn_app, List.length_app, Hlen.
        replace (n + List.length t - (n + List.length t))%nat with 0%nat by lia.
        rewrite firstn_all2 by (rewrite List.length_app; lia).
        cbn [firstn]. apply app_nil_r.
      - rewrite (skipn_all2 (n := n) (lines b)) by lia. rewrite app_nil_r.
        apply firstn_all2. rewrite List.length_app, length_firstn. lia. }
    rewrite Hf, lineFeeds_app. reflexivity. }
  split; [apply Hn|]. split; [apply Hl|].
  unfold insertNewline.
  change (insertChar [10] b) with (insertStr [10] b).
  rewrite Hn, Hl. split; reflexivity.
Qed.

Lemma insertStr_adds_lines_witness :
  numLines (insertStr ([10] ++ lit "x" ++ [10]) (helloAt 2)) = 3
  /\ line (insertNewline (helloAt 2)) = 1.
Proof.
  destruct (insertStr_adds_lines ([10] ++ lit "x" ++ [10]) (helloAt 2))
    as [Hn [_ [_ Hl]]]; [vm_compute; discriminate|].
  split; [rewrite Hn|rewrite Hl]; reflexivity.
Defined.

(** *** The search primitives *)

Lemma isPrefix_length (pat s : JsString) :
  isPrefix pat s = true -> (List.length pat <= List.length s)%nat.
Proof.
  revert s. induction pat as [|c p IH]; intros [|d s]; simpl; try lia; try discriminate.
  intro H. apply andb_true_iff in H. destruct H as [_ H]. specialize (IH _ H). lia.
Qed.

Lemma lastOccurrenceUpTo_bounds (s pat : JsString) (k : nat) :
  -1 <= lastOccurrenceUpTo s pat k <= Z.of_nat k.
Proof.
  induction k as [|k IH]; cbn [lastOccurrenceUpTo].
  - destruct (isPrefix pat (skipn 0 s)); lia.
  - destruct (isPrefix pat (skipn (S k) s)); lia.
Qed.

Lemma lastOccurrenceUpTo_occurs (s pat : JsString) (k : nat) :
  0 <= lastOccurrenceUpTo s pat k ->
  occursAt pat s (lastOccurrenceUpTo s pat k).
Proof.
  induction k as [|k IH]; cbn [lastOccurrenceUpTo].
  - destruct (isPrefix pat (skipn 0 s)) eqn:E; [|lia]. intros _. split; [lia|exact E].
  - destruct (isPrefix pat (skipn (S k) s)) eqn:E; [|exact IH].
    intros _. split; [lia|]. now rewrite Nat2Z.id.
Qed.

Lemma lastOccurrenceUpTo_last (s pat : JsString) (k : nat) (p : Z) :
  lastOccurrenceUpTo s pat k < p <= Z.of_nat k -> ~ occursAt pat s p.
Proof.
  induction k as [|k IH]; cbn [lastOccurrenceUpTo].
  - destruct (isPrefix pat (skipn 0 s)) eqn:E; [lia|].
    intros Hp [_ Ho]. replace (Z.to_nat p) with 0%nat in Ho by lia. congruence.
  - destruct (isPrefix pat (skipn (S k) s)) eqn:E; [lia|].
    intros Hp [H0 Ho]. destruct (Z.eq_dec p (Z.of_nat (S k))) as [->|Hne].
    + rewrite Nat2Z.id in Ho. congruence.
    + apply IH; [lia|]. now split.
Qed.

Lemma occursAt_fits (pat s : JsString) (p : Z) :
  occursAt pat s p -> pat <> [] -> p + Js.length pat <= Js.length s.
Proof.
  intros [H0 Ho] Hne. apply isPrefix_length in Ho. rewrite length_skipn in Ho.
  unfold Js.length. destruct pat; [contradiction|]. simpl in *. lia.
Qed.

Lemma lastIndexOf_lineFeed (s : JsString) :
  -1 <= lastIndexOf s [10] < Js.length s \/ (s = [] /\ lastIndexOf s [10] = -1).
Proof.
  unfold lastIndexOf.
  pose proof (lastOccurrenceUpTo_bounds s [10] (List.length s)) as Hb.
  destruct (Z.eq_dec (lastOccurrenceUpTo s [10] (List.length s)) (-1)) as [E|E].
  - rewrite E. destruct s; [now right|left]. unfold Js.length. simpl List.length. lia.
  - left. pose proof (lastOccurrenceUpTo_occurs s [10] (List.length s) ltac:(lia)) as Ho.
    apply occursAt_fits in Ho; [|discriminate]. unfold Js.length in *. simpl in Ho. lia.
Qed.

Lemma lastIndexOf_lineFeed_le (s : JsString) : 0 <= lastIndexOf s [10] + 1 <= Js.length s.
Proof.
  destruct (lastIndexOf_lineFeed s) as [H|[-> H]]; [lia|].
  rewrite H. unfold Js.length. simpl. lia.
Qed.

Lemma indexOf_bounds (s pat : JsString) : -1 <= indexOf s pat <= Js.length s.
Proof.
  unfold Js.length. induction s as [|c t IH]; cbn [indexOf].
  - destruct (isPrefix pat []); simpl; lia.
  - destruct (isPrefix pat (c :: t)); [simpl; lia|].
    destruct (Z.ltb_spec (indexOf t pat) 0); simpl List.length; lia.
Qed.

Lemma indexOf_occurs (s pat : JsString) :
  0 <= indexOf s pat -> occursAt pat s (indexOf s pat).
Proof.
  induction s as [|c t IH]; cbn [indexOf].
  - destruct (isPrefix pat []) eqn:E; [|lia]. intros _. split; [lia|exact E].
  - destruct (isPrefix pat (c :: t)) eqn:E; [intros _; split; [lia|exact E]|].
    destruct (Z.ltb_spec (indexOf t pat) 0) as [Hlt|Hge]; [lia|]. intros _.
    destruct (IH Hge) as [_ Ho]. split; [lia|].
    now replace (Z.to_nat (indexOf t pat + 1)) with (S (Z.to_nat (indexOf t pat))) by lia.
Qed.

Lemma indexOf_first (s pat : JsString) (p : Z) :
  occursAt pat s p -> 0 <= indexOf s pat <= p.
Proof.
  revert p. induction s as [|c t IH]; intros p [H0 Ho]; cbn [indexOf].
  - rewrite skipn_nil in Ho. rewrite Ho. lia.
  - destruct (isPrefix pat (c :: t)) eqn:E; [lia|].
    assert (Hp : 1 <= p).
    { destruct (Z.eq_dec p 0) as [->|]; [simpl in Ho; congruence|lia]. }
    replace (Z.to_nat p) with (S (Z.to_nat (p - 1))) in Ho by lia.
    assert (Ho' : occursAt pat t (p - 1)) by (split; [lia|exact Ho]).
    specialize (IH (p - 1) Ho').
    destruct (Z.ltb_spec (indexOf t pat) 0); lia.
Qed.

(** *** Moving down a line *)

Lemma firstn_within {A : Type} (n : nat) (l1 t : list A) :
  (n <= List.length l1)%nat ->
  (t = l1 \/ exists c t', t = l1 ++ c :: t') ->
  firstn n t = firstn n l1.
Proof.
  intros Hn [->|[c [t' ->]]]; [reflexivity|].
  rewrite firstn_app. replace (n - List.length l1)%nat with 0%nat by lia.
  cbn [firstn]. apply app_nil_r.
Qed.

(** X14: with the cursor within the text and not on the last line,
    [moveLineDown] puts the cursor on the next line (the line index
    grows by one), strictly further right, and still within the text. *)
Theorem moveLineDown_reaches_next_line (b : LineBuffer) :
  inRange b -> isCursorAtLastLine b = false ->
  line (moveLineDown b) = line b + 1
  /\ insertionPoint b < insertionPoint (moveLineDown b)
  /\ inRange (moveLineDown b)
  /\ getBuffer (moveLineDown b) = getBuffer b.
Proof.
  intros [H0 Hlen] Hlast.
  unfold isCursorAtLastLine in Hlast. apply Z.eqb_neq in Hlast.
  rewrite line_eq, numLines_eq in Hlast.
  destruct b as [text ip]. unfold inRange, len, Js.length in *.
  cbn [lines insertionPoint] in *.
  set (n := Z.to_nat ip) in *.
  assert (Hsplit : firstn n text ++ skipn n text = text) by apply firstn_skipn.
  assert (Hfeeds : 1 <= lineFeeds (skipn n text)).
  { rewrite <- Hsplit in Hlast at 2. rewrite lineFeeds_app in Hlast.
    pose proof (lineFeeds_nonneg (skipn n text)). lia. }
  pose proof (splitOn_length (skipn n text)) as Hcount.
  unfold moveLineDown. cbn [lines insertionPoint].
  rewrite substringFrom_skipn, substring_from_zero. fold n.
  destruct (Z.leb_spec (Z.of_nat (List.length (splitOn 10 (skipn n text)))) 1); [lia|].
  destruct (splitOn 10 (skipn n text)) as [|l0 [|l1 r]] eqn:Es;
    try (cbn [List.length] in *; lia).
  destruct (splitOn_head _ _ _ Es) as [Hl0 [[Hr _]|[t [Ht Est]]]]; [discriminate|].
  destruct (splitOn_head _ _ _ Est) as [Hl1 Hcase].
  assert (Hshape : t = l1 \/ exists c t', t = l1 ++ c :: t').
  { destruct Hcase as [[_ ->]|[t' [-> _]]]; [now left|right; now exists 10, t']. }
  assert (Htl : (List.length l1 <= List.length t)%nat).
  { destruct Hshape as [->|[c [t' ->]]]; [lia|rewrite List.length_app; lia]. }
  cbn [nth].
  pose proof (lastIndexOf_lineFeed_le (firstn n text)) as Hcls.
  unfold Js.length in *. rewrite length_firstn in Hcls.
  set (off := Z.min (ip - (lastIndexOf (firstn n text) [10] + 1)) (Z.of_nat (List.length l1))).
  assert (Hoff : 0 <= off <= Z.of_nat (List.length l1)) by (unfold off; lia).
  assert (Htext : text = (firstn n text ++ l0 ++ [10]) ++ t).
  { rewrite <- Hsplit at 1. rewrite Ht, <- !app_assoc. reflexivity. }
  assert (Hlenpre : List.length (firstn n text ++ l0 ++ [10]) = (n + List.length l0 + 1)%nat).
  { rewrite !List.length_app, length_firstn. simpl. lia. }
  assert (Hlentext : List.length text = (n + List.length l0 + 1 + List.length t)%nat).
  { rewrite Htext at 1. rewrite List.length_app, Hlenpre. reflexivity. }
  unfold moveTo, getBuffer. cbn [lines insertionPoint]. repeat split; try lia.
  rewrite !line_eq. cbn [lines insertionPoint]. fold n.
  replace (Z.to_nat (ip + Z.of_nat (List.length l0) + 1 + off))
    with (List.length (firstn n text ++ l0 ++ [10%Z]) + Z.to_nat off)%nat
    by (rewrite Hlenpre; lia).
  set (pre := firstn n text ++ l0 ++ [10]) in *.
  assert (Hf : firstn (List.length pre + Z.to_nat off) text
               = pre ++ firstn (Z.to_nat off) l1).
  { rewrite Htext, firstn_app_2.
    now rewrite (firstn_within (Z.to_nat off) l1 t) by (assumption || lia). }
  rewrite Hf. unfold pre. rewrite !lineFeeds_app.
  pose proof (lineFeeds_firstn l1 (Z.to_nat off)).
  pose proof (lineFeeds_nonneg (firstn (Z.to_nat off) l1)).
  change (lineFeeds [10]) with 1. lia.
Qed.

Lemma moveLineDown_reaches_next_line_witness :
  line (moveLineDown emojiOnSecondLine) = 1
  /\ getInsertionPoint (moveLineDown emojiOnSecondLine) = 3.
Proof.
  destruct (moveLineDown_reaches_next_line emojiOnSecondLine) as [Hl _].
  - vm_compute. split; discriminate.
  - reflexivity.
  - split; [rewrite Hl|]; reflexivity.
Defined.

(** *** Searching a character *)

Lemma substring_to_end (s : JsString) (a : Z) :
  0 <= a -> substring s a (Js.length s) = skipn (Z.to_nat a) s.
Proof.
  intro H0. unfold substring, clampIndex, Js.length. rewrite Nat2Z.id, Nat.min_id.
  set (n := Z.to_nat a). set (L := List.length s).
  replace (Nat.max (Nat.min n L) L) with L by lia.
  replace (Nat.min (Nat.min n L) L) with (Nat.min n L) by lia.
  rewrite firstn_all2 by (rewrite length_skipn; lia).
  subst n L.
  destruct (Nat.le_gt_cases (Z.to_nat a) (List.length s)).
  - now rewrite Nat.min_l by lia.
  - rewrite Nat.min_r by lia. rewrite !skipn_all2; auto; lia.
Qed.

Lemma substring_length (s : JsString) (a b : Z) :
  Js.length (substring s a b)
  = Z.abs (Z.max 0 (Z.min a (Js.length s)) - Z.max 0 (Z.min b (Js.length s))).
Proof.
  unfold substring, clampIndex, Js.length. rewrite length_firstn, length_skipn. lia.
Qed.

Lemma occursAt_shift (pat s : JsString) (n : nat) (p : Z) :
  occursAt pat (skipn n s) p <-> occursAt pat s (Z.of_nat n + p) /\ 0 <= p.
Proof.
  unfold occursAt. rewrite skipn_skipn. split.
  - intros [H0 H]. repeat split; try lia.
    now replace (Z.to_nat (Z.of_nat n + p)) with (Z.to_nat p + n)%nat by lia.
  - intros [[_ H] H0]. split; [assumption|].
    now replace (Z.to_nat (Z.of_nat n + p)) with (Z.to_nat p + n)%nat in H by lia.
Qed.

(** X15: searching the whole rest of the buffer ([currentLine] false)
    from an insertion point that is not negative, [findCharRight]
    returns the first offset at or after the cursor where [c] occurs,
    and null exactly when [c] occurs nowhere from the cursor on;
    [moveRightUntil] and [moveRightBefore] both put the cursor on that
    offset, that is on the occurrence itself. *)
Theorem findCharRight_finds_first_occurrence (c : JsString) (b : LineBuffer) :
  0 <= insertionPoint b ->
  match findCharRight c false b with
  | Some p =>
      insertionPoint b <= p /\ occursAt c (lines b) p
      /\ (forall q, insertionPoint b <= q < p -> ~ occursAt c (lines b) q)
      /\ moveRightUntil c false b = moveTo p b
      /\ moveRightBefore c false b = moveTo p b
  | None =>
      (forall q, insertionPoint b <= q -> ~ occursAt c (lines b) q)
      /\ moveRightUntil c false b = b /\ moveRightBefore c false b = b
  end.
Proof.
  intro H0. unfold moveRightUntil, moveRightBefore.
  unfold findCharRight. unfold len. rewrite substring_to_end by assumption.
  set (n := Z.to_nat (insertionPoint b)).
  set (rest := skipn n (lines b)).
  pose proof (indexOf_bounds rest c) as Hb.
  destruct (Z.eqb_spec (indexOf rest c) (-1)) as [E|E].
  - split; [|split; reflexivity].
    intros q Hq Ho.
    assert (Ho' : occursAt c rest (q - insertionPoint b)).
    { apply occursAt_shift. split; [|lia].
      now replace (Z.of_nat n + (q - insertionPoint b)) with q by lia. }
    apply indexOf_first in Ho'. lia.
  - assert (Hi : 0 <= indexOf rest c) by lia.
    pose proof (indexOf_occurs rest c Hi) as Ho.
    apply occursAt_shift in Ho. destruct Ho as [Ho _].
    replace (Z.of_nat n + indexOf rest c) with (insertionPoint b + indexOf rest c)
      in Ho by lia.
    split; [lia|]. split; [exact Ho|]. split; [|split; reflexivity].
    intros q Hq Hoq.
    assert (Ho' : occursAt c rest (q - insertionPoint b)).
    { apply occursAt_shift. split; [|lia].
      now replace (Z.of_nat n + (q - insertionPoint b)) with q by lia. }
    apply indexOf_first in Ho'. lia.
Qed.

Lemma findCharRight_finds_first_occurrence_witness :
  findCharRight (lit "l") false (helloAt 0) = Some 2
  /\ occursAt (lit "l") (lit "hello") 2
  /\ ~ occursAt (lit "l") (lit "hello") 1.
Proof.
  pose proof (findCharRight_finds_first_occurrence (lit "l") (helloAt 0)) as H.
  change (findCharRight (lit "l") false (helloAt 0)) with (Some 2) in H.
  destruct H as [_ [Ho [Hfirst _]]]; [vm_compute; discriminate|].
  split; [reflexivity|]. split; [exact Ho|].
  apply Hfirst. cbn. lia.
Defined.

(** X16: searching the whole buffer before the cursor ([currentLine]
    false), [findCharLeft] returns the last offset at which [c] occurs
    within the text before the cursor, and null exactly when it does not
    occur there; [moveLeftUntil] and [moveLeftBefore] both put the cursor
    on that offset. *)
Theorem findCharLeft_finds_last_occurrence (c : JsString) (b : LineBuffer) :
  match findCharLeft c false b with
  | Some p =>
      occursAt c (textBefore b) p /\ p <= Js.length (textBefore b)
      /\ (forall q, p < q <= Js.length (textBefore b) -> ~ occursAt c (textBefore b) q)
      /\ moveLeftUntil c false b = moveTo p b
      /\ moveLeftBefore c false b = moveTo p b
  | None =>
      (forall q, 0 <= q <= Js.length (textBefore b) -> ~ occursAt c (textBefore b) q)
      /\ moveLeftUntil c false b = b /\ moveLeftBefore c false b = b
  end.
Proof.
  unfold moveLeftUntil, moveLeftBefore, findCharLeft, textBefore.
  rewrite substring_from_zero.
  set (before := firstn (Z.to_nat (insertionPoint b)) (lines b)).
  unfold lastIndexOf, Js.length.
  pose proof (lastOccurrenceUpTo_bounds before c (List.length before)) as Hb.
  destruct (Z.eqb_spec (lastOccurrenceUpTo before c (List.length before)) (-1)) as [E|E].
  - split; [|split; reflexivity].
    intros q Hq. apply (lastOccurrenceUpTo_last before c (List.length before)). lia.
  - cbn [Z.add]. split; [apply lastOccurrenceUpTo_occurs; lia|].
    split; [lia|]. split; [|split; reflexivity].
    intros q Hq. apply (lastOccurrenceUpTo_last before c (List.length before)). lia.
Qed.

Lemma findCharLeft_finds_last_occurrence_witness :
  findCharLeft (lit "l") false (helloAt 5) = Some 3
  /\ ~ occursAt (lit "l") (textBefore (helloAt 5)) 4.
Proof.
  pose proof (findCharLeft_finds_last_occurrence (lit "l") (helloAt 5)) as H.
  change (findCharLeft (lit "l") false (helloAt 5)) with (Some 3) in H.
  destruct H as [_ [_ [Hlast _]]].
  split; [reflexivity|]. apply Hlast.
  change (Js.length (textBefore (helloAt 5))) with 5. lia.
Defined.

(** *** The end of the current line *)

Lemma occursAt_unit (c : Z) (s : JsString) (p : Z) :
  occursAt [c] s p <-> charCodeAt s p = Some c.
Proof.
  unfold occursAt, charCodeAt. destruct (Z.ltb_spec p 0) as [Hlt|Hge].
  - split; [intros [H _]; lia|discriminate].
  - rewrite <- hd_error_skipn. destruct (skipn (Z.to_nat p) s) as [|d r]; simpl.
    + split; [intros [_ H]; discriminate|discriminate].
    + rewrite andb_true_r. split.
      * intros [_ H]. apply Z.eqb_eq in H. now subst.
      * intros [= ->]. split; [assumption|apply Z.eqb_refl].
Qed.

Lemma findCurrentLineEnd_cases (b : LineBuffer) :
  0 <= insertionPoint b ->
  (findCurrentLineEnd b = len b
   /\ forall q, insertionPoint b <= q -> charCodeAt (lines b) q <> Some 10)
  \/ exists nl,
       insertionPoint b <= nl /\ charCodeAt (lines b) nl = Some 10
       /\ (forall q, insertionPoint b <= q < nl -> charCodeAt (lines b) q <> Some 10)
       /\ findCurrentLineEnd b = lineEndBefore (lines b) nl.
Proof.
  intro H0. unfold findCurrentLineEnd. rewrite substringFrom_skipn.
  set (n := Z.to_nat (insertionPoint b)). set (rest := skipn n (lines b)).
  assert (Hshift : forall q, insertionPoint b <= q -> charCodeAt (lines b) q = Some 10 ->
                             0 <= indexOf rest [10] <= q - insertionPoint b).
  { intros q Hq Hc. apply indexOf_first, occursAt_shift. split; [|lia].
    apply occursAt_unit. now replace (Z.of_nat n + (q - insertionPoint b)) with q by lia. }
  pose proof (indexOf_bounds rest [10]) as Hb.
  destruct (Z.eqb_spec (indexOf rest [10]) (-1)) as [E|E].
  - left. split; [reflexivity|]. intros q Hq Hc. specialize (Hshift q Hq Hc). lia.
  - right. exists (indexOf rest [10] + insertionPoint b).
    assert (Hi : 0 <= indexOf rest [10]) by lia.
    pose proof (indexOf_occurs rest [10] Hi) as Ho.
    apply occursAt_shift in Ho. destruct Ho as [Ho _]. apply occursAt_unit in Ho.
    replace (Z.of_nat n + indexOf rest [10]) with (indexOf rest [10] + insertionPoint b)
      in Ho by lia.
    split; [lia|]. split; [exact Ho|]. split.
    + intros q Hq Hc. specialize (Hshift q ltac:(lia) Hc). lia.
    + unfold lineEndBefore.
      destruct (Z.ltb_spec 0 (indexOf rest [10] + insertionPoint b)) as [Hpos|Hzero].
      * cbn [andb]. destruct (charCodeAt (lines b) (indexOf rest [10] + insertionPoint b - 1));
          reflexivity.
      * cbn [andb]. unfold charCodeAt.
        destruct (Z.ltb_spec (indexOf rest [10] + insertionPoint b - 1) 0); [reflexivity|lia].
Qed.

Lemma charCodeAt_Some_range (s : JsString) (k c : Z) :
  charCodeAt s k = Some c -> 0 <= k < Js.length s.
Proof.
  unfold charCodeAt, Js.length. destruct (Z.ltb_spec k 0); [discriminate|].
  intro Hc. assert (Hs : nth_error s (Z.to_nat k) <> None) by congruence.
  apply nth_error_Some in Hs. lia.
Qed.

Lemma lineEndBefore_range (s : JsString) (nl : Z) :
  charCodeAt s nl = Some 10 ->
  0 <= lineEndBefore s nl < Js.length s /\ nl - 1 <= lineEndBefore s nl <= nl
  /\ (lineEndBefore s nl = nl - 1 <-> betweenCrLf s nl).
Proof.
  intro Hnl. pose proof (charCodeAt_Some_range _ _ _ Hnl) as Hr.
  unfold lineEndBefore, betweenCrLf.
  destruct (charCodeAt s (nl - 1)) as [u|] eqn:E.
  - pose proof (charCodeAt_Some_range _ _ _ E) as Hr'.
    destruct (Z.eqb_spec u 13) as [->|Hne].
    + repeat split; auto; lia.
    + repeat split; try lia. intros [_ [= Hu]]. contradiction.
  - repeat split; try lia. intros [_ H]. discriminate.
Qed.

(** X17: from an insertion point that is not negative,
    [findCurrentLineEnd] returns the buffer length when no line feed
    follows; otherwise it looks at the first line feed at or after the
    cursor and returns the offset of the carriage return right before
    it, if there is one, and the offset of the line feed if not. *)
Theorem findCurrentLineEnd_first_line_feed (b : LineBuffer) :
  0 <= insertionPoint b ->
  (findCurrentLineEnd b = len b
   /\ forall q, insertionPoint b <= q -> charCodeAt (lines b) q <> Some 10)
  \/ exists nl,
       insertionPoint b <= nl /\ charCodeAt (lines b) nl = Some 10
       /\ (forall q, insertionPoint b <= q < nl -> charCodeAt (lines b) q <> Some 10)
       /\ findCurrentLineEnd b = lineEndBefore (lines b) nl
       /\ nl - 1 <= findCurrentLineEnd b <= nl.
Proof.
  intro H0. destruct (findCurrentLineEnd_cases b H0) as [H|[nl [H1 [H2 [H3 H4]]]]].
  - now left.
  - right. exists nl. pose proof (lineEndBefore_range _ _ H2) as [_ [Hr _]].
    rewrite H4. repeat split; auto; lia.
Qed.

Lemma findCurrentLineEnd_first_line_feed_witness :
  findCurrentLineEnd betweenCrAndLf = lineEndBefore (lines betweenCrAndLf) 2
  /\ findCurrentLineEnd (helloAt 2) = 5.
Proof.
  split; [reflexivity|].
  destruct (findCurrentLineEnd_first_line_feed (helloAt 2)) as [[H _]|[nl [_ [H _]]]].
  - cbn. lia.
  - exact H.
  - exfalso. pose proof (charCodeAt_Some_range _ _ _ H) as Hr.
    change (Js.length (lines (helloAt 2))) with 5 in Hr.
    assert (Hc : nl = 0 \/ nl = 1 \/ nl = 2 \/ nl = 3 \/ nl = 4) by lia.
    destruct Hc as [->|[->|[->|[->| ->]]]]; discriminate.
Defined.

Lemma findCurrentLineEnd_range (b : LineBuffer) :
  inRange b ->
  0 <= findCurrentLineEnd b <= len b
  /\ ((betweenCrLf (lines b) (insertionPoint b)
       /\ findCurrentLineEnd b = insertionPoint b - 1)
      \/ (~ betweenCrLf (lines b) (insertionPoint b)
          /\ insertionPoint b <= findCurrentLineEnd b)).
Proof.
  intros [H0 Hlen].
  destruct (findCurrentLineEnd_cases b H0) as [[Hr Hno]|[nl [Hnl [Hc [Hfirst Hr]]]]].
  - rewrite Hr. split; [lia|]. right. split; [|lia].
    intros [Hc _]. exact (Hno _ (Z.le_refl _) Hc).
  - destruct (lineEndBefore_range _ _ Hc) as [Hrange [Hnear Hiff]].
    rewrite Hr. unfold len. split; [lia|].
    destruct (Z.eq_dec nl (insertionPoint b)) as [->|Hne].
    + destruct (Z.eq_dec (lineEndBefore (lines b) (insertionPoint b)) (insertionPoint b - 1))
        as [E|E].
      * left. split; [now apply Hiff|exact E].
      * right. split; [|lia]. intro Hb. apply Hiff in Hb. contradiction.
    + right. split; [|lia]. intros [Hc' _]. apply (Hfirst (insertionPoint b)); [lia|exact Hc'].
Qed.

(** X18: with the cursor within the text and not between a carriage
    return and a line feed, [clearToLineEnd] is [clearRangeSafe] from the
    cursor to [findCurrentLineEnd()]: it removes the rest of the line and
    leaves the cursor where it is. *)
Theorem clearToLineEnd_is_clearRangeSafe (b : LineBuffer) :
  inRange b -> ~ betweenCrLf (lines b) (insertionPoint b) ->
  clearToLineEnd b = clearRangeSafe (insertionPoint b) (findCurrentLineEnd b) b
  /\ getInsertionPoint (clearToLineEnd b) = getInsertionPoint b
  /\ len (clearToLineEnd b) = len b - (findCurrentLineEnd b - insertionPoint b).
Proof.
  intros Hr Hnb. destruct (findCurrentLineEnd_range b Hr) as [Hrange [[Hb _]|[_ Hge]]];
    [contradiction|].
  destruct Hr as [H0 Hlen].
  assert (Hl : len (clearToLineEnd b) = len b - (findCurrentLineEnd b - insertionPoint b)).
  { unfold clearToLineEnd, len in *. cbn [lines].
    rewrite substring_from_zero, substringFrom_skipn.
    unfold Js.length in *. rewrite List.length_app, length_firstn, length_skipn. lia. }
  split; [|split; [reflexivity|exact Hl]].
  unfold clearToLineEnd, clearRangeSafe. rewrite ordered_bounds.
  rewrite Z.min_l, Z.max_r by lia.
  destruct (Z.leb_spec (len b) (insertionPoint b)) as [Hg|Hg].
  - assert (Hend : findCurrentLineEnd b = insertionPoint b) by lia.
    rewrite Hend, substring_from_zero, substringFrom_skipn, firstn_skipn.
    now destruct b.
  - rewrite (Z.min_l (findCurrentLineEnd b)) by lia.
    rewrite Z.ltb_irrefl. reflexivity.
Qed.

Lemma clearToLineEnd_is_clearRangeSafe_witness :
  clearToLineEnd emojiOnSecondLine = clearRangeSafe 1 1 emojiOnSecondLine
  /\ clearToLineEnd (helloAt 2) = clearRangeSafe 2 5 (helloAt 2).
Proof.
  split.
  - apply (clearToLineEnd_is_clearRangeSafe emojiOnSecondLine).
    + vm_compute. split; discriminate.
    + intros [_ H]. discriminate.
  - apply (clearToLineEnd_is_clearRangeSafe (helloAt 2)).
    + vm_compute. split; discriminate.
    + intros [H _]. discriminate.
Defined.

(** X19: with the cursor between a carriage return and a line feed,
    [findCurrentLineEnd()] lies before the cursor and [clearToLineEnd]
    removes nothing: it inserts a second carriage return at the cursor,
    so the text grows by one unit. *)
Theorem clearToLineEnd_between_cr_and_lf (b : LineBuffer) :
  betweenCrLf (lines b) (insertionPoint b) ->
  getBuffer (clearToLineEnd b) = textBefore b ++ 13 :: textAfter b
  /\ len (clearToLineEnd b) = len b + 1
  /\ getInsertionPoint (clearToLineEnd b) = getInsertionPoint b.
Proof.
  intros Hb. pose proof Hb as [Hlf Hcr].
  pose proof (charCodeAt_Some_range _ _ _ Hlf) as Hr1.
  pose proof (charCodeAt_Some_range _ _ _ Hcr) as Hr2.
  assert (Hr : inRange b) by (unfold inRange, len; lia).
  destruct (findCurrentLineEnd_range b Hr) as [_ [[_ He]|[Hn _]]]; [|contradiction].
  assert (Htext : lines (clearToLineEnd b) = textBefore b ++ 13 :: textAfter b).
  { unfold clearToLineEnd, textBefore, textAfter. cbn [lines].
    rewrite He, substring_from_zero, substringFrom_skipn. f_equal.
    unfold charCodeAt in Hcr. destruct (Z.ltb_spec (insertionPoint b - 1) 0); [lia|].
    rewrite (skipn_at_nth_error _ _ _ Hcr). repeat f_equal. lia. }
  split; [exact Htext|]. split; [|reflexivity].
  unfold len. rewrite Htext. unfold textBefore, textAfter, Js.length in *.
  rewrite List.length_app. cbn [List.length]. rewrite length_firstn, length_skipn. lia.
Qed.

Lemma clearToLineEnd_between_cr_and_lf_witness :
  getBuffer (clearToLineEnd betweenCrAndLf) = lit "a" ++ [13; 13; 10] ++ lit "b".
Proof.
  destruct (clearToLineEnd_between_cr_and_lf betweenCrAndLf) as [H _].
  - split; reflexivity.
  - rewrite H. reflexivity.
Defined.

(** *** Line start and line end *)

Lemma lastIndexOf_after_lineFeed (l : JsString) :
  lastIndexOf (l ++ [10]) [10] = Js.length l.
Proof.
  unfold lastIndexOf, Js.length. rewrite List.length_app, Nat.add_comm.
  cbn [List.length Nat.add lastOccurrenceUpTo].
  rewrite skipn_all2 by (rewrite List.length_app; simpl; lia). cbn [isPrefix].
  assert (Hs : skipn (List.length l) (l ++ [10]) = [10]).
  { rewrite skipn_app, Nat.sub_diag, skipn_all. reflexivity. }
  destruct (List.length l) eqn:El; cbn [lastOccurrenceUpTo]; rewrite Hs; reflexivity.
Qed.

Lemma firstn_succ_nth_error {A : Type} (l : list A) (n : nat) (x : A) :
  nth_error l n = Some x -> firstn (S n) l = firstn n l ++ [x].
Proof.
  revert n. induction l as [|y r IH]; intros [|n]; simpl; try discriminate.
  - now intros [= ->].
  - intro H. f_equal. exact (IH _ H).
Qed.

Lemma charCodeAt_firstn (s : JsString) (n : nat) (q : Z) :
  q < Z.of_nat n -> charCodeAt (firstn n s) q = charCodeAt s q.
Proof.
  intro Hq. unfold charCodeAt. destruct (Z.ltb_spec q 0); [reflexivity|].
  rewrite nth_error_firstn.
  destruct (Nat.ltb_spec (Z.to_nat q) n); [reflexivity|lia].
Qed.

(** X20: [moveToLineStart] puts the cursor at offset 0 or right behind
    a line feed, with no line feed between the new and the old cursor;
    applying it a second time changes nothing. *)
Theorem moveToLineStart_lands_behind_line_feed (b : LineBuffer) :
  0 <= insertionPoint (moveToLineStart b) <= Js.length (textBefore b)
  /\ (insertionPoint (moveToLineStart b) = 0
      \/ charCodeAt (lines b) (insertionPoint (moveToLineStart b) - 1) = Some 10)
  /\ (forall q, insertionPoint (moveToLineStart b) <= q < Js.length (textBefore b) ->
                charCodeAt (lines b) q <> Some 10)
  /\ getBuffer (moveToLineStart b) = getBuffer b
  /\ moveToLineStart (moveToLineStart b) = moveToLineStart b.
Proof.
  unfold moveToLineStart, moveTo, getBuffer. cbn [lines insertionPoint].
  rewrite substring_from_zero. fold (textBefore b).
  set (before := textBefore b).
  pose proof (lastOccurrenceUpTo_bounds before [10] (List.length before)) as Hb.
  assert (Hlast : forall q, lastIndexOf before [10] < q < Js.length before ->
                            charCodeAt (lines b) q <> Some 10).
  { intros q Hq Hc.
    apply (lastOccurrenceUpTo_last before [10] (List.length before) q);
      [unfold lastIndexOf, Js.length in Hq; lia|].
    apply occursAt_unit. unfold before, textBefore.
    rewrite charCodeAt_firstn; [exact Hc|].
    unfold before, textBefore, Js.length in Hq. rewrite length_firstn in Hq. lia. }
  unfold lastIndexOf in *.
  destruct (Z.eqb_spec (lastOccurrenceUpTo before [10] (List.length before)) (-1)) as [E|E].
  - split; [pose proof (length_nonneg before); lia|]. split; [now left|].
    split; [intros q Hq; apply Hlast; lia|]. split; [reflexivity|].
    rewrite substring_from_zero. reflexivity.
  - set (r := lastOccurrenceUpTo before [10] (List.length before)) in *.
    assert (Ho : occursAt [10] before r) by (apply lastOccurrenceUpTo_occurs; lia).
    pose proof (occursAt_fits _ _ _ Ho ltac:(discriminate)) as Hfit.
    change (Js.length [10]) with 1 in Hfit.
    apply occursAt_unit in Ho.
    assert (Hc : charCodeAt (lines b) r = Some 10).
    { rewrite <- Ho. unfold before, textBefore. symmetry. apply charCodeAt_firstn.
      unfold before, textBefore, Js.length in Hfit. rewrite length_firstn in Hfit. lia. }
    split; [lia|]. split; [right; now replace (r + 1 - 1) with r by lia|].
    split; [intros q Hq; apply Hlast; lia|]. split; [reflexivity|].
    rewrite substring_from_zero. f_equal.
    assert (Hpre : firstn (Z.to_nat (r + 1)) (lines b) = firstn (Z.to_nat r) (lines b) ++ [10]).
    { replace (Z.to_nat (r + 1)) with (S (Z.to_nat r)) by lia.
      apply firstn_succ_nth_error. unfold charCodeAt in Hc.
      destruct (Z.ltb_spec r 0); [lia|exact Hc]. }
    pose proof (lastIndexOf_after_lineFeed (firstn (Z.to_nat r) (lines b))) as Ha.
    unfold lastIndexOf in Ha. rewrite Hpre, Ha.
    assert (Hl : Js.length (firstn (Z.to_nat r) (lines b)) = r).
    { pose proof (charCodeAt_Some_range _ _ _ Hc) as Hrange.
      unfold Js.length in *. rewrite length_firstn. lia. }
    rewrite Hl. destruct (Z.eqb_spec r (-1)); [lia|reflexivity].
Qed.

(** X21: from an insertion point that is not negative, applying
    [moveToLineEnd] a second time changes nothing. *)
Theorem moveToLineEnd_twice (b : LineBuffer) :
  0 <= insertionPoint b ->
  moveToLineEnd (moveToLineEnd b) = moveToLineEnd b.
Proof.
  intro H0. unfold moveToLineEnd, moveTo. cbn [lines]. f_equal.
  set (b' := mkLineBuffer (lines b) (findCurrentLineEnd b)).
  destruct (findCurrentLineEnd_cases b H0) as [[Hr Hno]|[nl [Hnl [Hc [Hfirst Hr]]]]].
  - assert (H0' : 0 <= insertionPoint b').
    { unfold b'. cbn [insertionPoint]. rewrite Hr. apply length_nonneg. }
    destruct (findCurrentLineEnd_cases b' H0') as [[Hr' _]|[nl' [Hnl' [Hc' _]]]].
    + rewrite Hr'. unfold b', len. cbn [lines]. now rewrite Hr.
    + exfalso. unfold b' in Hnl', Hc'. cbn [lines insertionPoint] in *.
      pose proof (charCodeAt_Some_range _ _ _ Hc'). unfold len in *. lia.
  - destruct (lineEndBefore_range _ _ Hc) as [Hrange [Hnear Hiff]].
    assert (H0' : 0 <= insertionPoint b').
    { unfold b'. cbn [insertionPoint]. rewrite Hr. lia. }
    destruct (findCurrentLineEnd_cases b' H0') as [[_ Hno']|[nl' [Hnl' [Hc' [Hfirst' Hr']]]]].
    + exfalso. apply (Hno' nl); [|exact Hc].
      unfold b'. cbn [insertionPoint]. rewrite Hr. lia.
    + unfold b' in Hnl', Hc', Hfirst', Hr'. cbn [lines insertionPoint] in *.
      rewrite Hr in Hnl', Hfirst'.
      assert (Hle : nl' <= nl).
      { destruct (Z.le_gt_cases nl' nl); [assumption|].
        exfalso. apply (Hfirst' nl); [lia|exact Hc]. }
      assert (Heq : nl' = nl).
      { destruct (Z.eq_dec nl' nl); [assumption|].
        assert (Hn1 : nl' = nl - 1) by lia.
        assert (Hb : betweenCrLf (lines b) nl) by (apply Hiff; lia).
        destruct Hb as [_ Hcr]. rewrite <- Hn1 in Hcr. congruence. }
      subst nl'. etransitivity; [exact Hr'|symmetry; exact Hr].
Qed.

Lemma moveToLineEnd_twice_witness :
  moveToLineEnd (moveToLineEnd betweenCrAndLf) = moveToLineEnd betweenCrAndLf.
Proof. apply (moveToLineEnd_twice betweenCrAndLf). vm_compute. discriminate. Defined.

(** *** Word tokens and word positions *)

Lemma indexMatches_bounds (ms : list JsString) :
  forall (k index : Z) (word : JsString),
    In (index, word) (indexMatches k ms) ->
    k <= index /\ index + Js.length word <= k + Js.length (List.concat ms).
Proof.
  induction ms as [|m r IH]; intros k index word Hin; [contradiction|].
  cbn [indexMatches List.concat] in *. rewrite length_app.
  pose proof (length_nonneg m). pose proof (length_nonneg (List.concat r)).
  destruct Hin as [[= <- <-]|Hin]; [lia|].
  specialize (IH _ _ _ Hin). lia.
Qed.

Lemma splitWordBoundaries_bounds (text : JsString) (index : Z) (word : JsString) :
  In (index, word) (splitWordBoundaries text) ->
  0 <= index /\ index + Js.length word <= Js.length text /\ 0 <= Js.length word.
Proof.
  intro Hin. unfold splitWordBoundaries in Hin.
  apply indexMatches_bounds in Hin.
  rewrite matchWordTokens_partition in Hin by (lia || discriminate).
  pose proof (length_nonneg word). lia.
Qed.

Lemma firstWordEnd_In (ip : Z) (words : list (Z * JsString)) (r : Z) :
  firstWordEnd ip words = Some r ->
  exists index word, In (index, word) words /\ r = ip + index + Js.length word.
Proof.
  induction words as [|[index word] rest IH]; [discriminate|]. cbn [firstWordEnd].
  destruct (negb (isWhitespaceStr word)).
  - intros [= <-]. exists index, word. split; [now left|reflexivity].
  - intro H. destruct (IH H) as [i [w [Hin Hr]]]. exists i, w. split; [now right|exact Hr].
Qed.

Lemma wordEndAfterSpace_In (ip : Z) (words : list (Z * JsString)) :
  forall (foundWs : bool) (r : Z),
    wordEndAfterSpace ip foundWs words = Some r ->
    exists index word, In (index, word) words /\ r = ip + index + Js.length word.
Proof.
  induction words as [|[index word] rest IH]; intros foundWs r; [discriminate|].
  cbn [wordEndAfterSpace].
  destruct ((foundWs || isWhitespaceStr word) && negb (isWhitespaceStr word)).
  - intros [= <-]. exists index, word. split; [now left|reflexivity].
  - intro H. destruct (IH _ _ H) as [i [w [Hin Hr]]]. exists i, w. split; [now right|exact Hr].
Qed.

Lemma spaceAfterWord_In (ip : Z) (words : list (Z * JsString)) :
  forall (foundNonWs : bool) (r : Z),
    spaceAfterWord ip foundNonWs words = Some r ->
    exists index word, In (index, word) words /\ r = ip + index.
Proof.
  induction words as [|[index word] rest IH]; intros foundNonWs r; [discriminate|].
  cbn [spaceAfterWord]. destruct (negb (isWhitespaceStr word)).
  - intro H. destruct (IH _ _ H) as [i [w [Hin Hr]]]. exists i, w. split; [now right|exact Hr].
  - destruct foundNonWs.
    + intros [= <-]. exists index, word. split; [now left|reflexivity].
    + intro H. destruct (IH _ _ H) as [i [w [Hin Hr]]]. exists i, w.
      split; [now right|exact Hr].
Qed.

Lemma firstWordStart_In (base : Z) (words : list (Z * JsString)) (r : Z) :
  firstWordStart base words = Some r ->
  exists index word, In (index, word) words /\ r = base + index.
Proof.
  induction words as [|[index word] rest IH]; [discriminate|]. cbn [firstWordStart].
  destruct (negb (isWhitespaceStr word)).
  - intros [= <-]. exists index, word. split; [now left|reflexivity].
  - intro H. destruct (IH H) as [i [w [Hin Hr]]]. exists i, w. split; [now right|exact Hr].
Qed.

Lemma wordStartAfterSpace_In (base : Z) (words : list (Z * JsString)) :
  forall (foundWs : bool) (r : Z),
    wordStartAfterSpace base foundWs words = Some r ->
    exists index word, In (index, word) words /\ r = base + index.
Proof.
  induction words as [|[index word] rest IH]; intros foundWs r; [discriminate|].
  cbn [wordStartAfterSpace].
  destruct ((foundWs || isWhitespaceStr word) && negb (isWhitespaceStr word)).
  - intros [= <-]. exists index, word. split; [now left|reflexivity].
  - intro H. destruct (IH _ _ H) as [i [w [Hin Hr]]]. exists i, w. split; [now right|exact Hr].
Qed.

Lemma textAfter_length (b : LineBuffer) :
  inRange b -> Js.length (skipn (Z.to_nat (insertionPoint b)) (lines b))
               = len b - insertionPoint b.
Proof. intros [H0 Hl]. unfold len, Js.length in *. rewrite length_skipn. lia. Qed.

Lemma textBefore_length (b : LineBuffer) :
  inRange b -> Js.length (firstn (Z.to_nat (insertionPoint b)) (lines b))
               = insertionPoint b.
Proof. intros [H0 Hl]. unfold len, Js.length in *. rewrite length_firstn. lia. Qed.

Ltac right_word_bounds Hr lemma :=
  let H := fresh "H" in
  let i := fresh "i" in
  let w := fresh "w" in
  let Hin := fresh "Hin" in
  let E := fresh "E" in
  rewrite substringFrom_skipn;
  pose proof (textAfter_length _ Hr) as H;
  match goal with
  | |- context [match ?x with Some _ => _ | None => _ end] =>
      destruct x as [?r|] eqn:E;
      [ apply lemma in E; destruct E as [i [w [Hin ->]]];
        apply splitWordBoundaries_bounds in Hin; destruct Hr; lia
      | destruct Hr; lia ]
  end.

Ltac left_word_bounds Hr lemma :=
  let H := fresh "H" in
  let i := fresh "i" in
  let w := fresh "w" in
  let Hin := fresh "Hin" in
  let E := fresh "E" in
  rewrite substring_from_zero;
  pose proof (textBefore_length _ Hr) as H;
  match goal with
  | |- context [match ?x with Some _ => _ | None => _ end] =>
      destruct x as [?r|] eqn:E;
      [ apply lemma in E; destruct E as [i [w [Hin ->]]];
        apply in_rev in Hin;
        apply splitWordBoundaries_bounds in Hin; destruct Hr; lia
      | destruct Hr; lia ]
  end.

Lemma word_indices_in_range (b : LineBuffer) :
  inRange b ->
  Forall (fun index : LineBuffer -> Z => insertionPoint b <= index b <= len b)
    [wordRightIndex; bigWordRightIndex; wordRightEndIndex; bigWordRightEndIndex;
     wordRightStartIndex; bigWordRightStartIndex]
  /\ Forall (fun index : LineBuffer -> Z => 0 <= index b <= insertionPoint b)
       [wordLeftIndex; bigWordLeftIndex].
Proof.
  intro Hr. split; repeat (apply Forall_cons || apply Forall_nil).
  - unfold wordRightIndex. right_word_bounds Hr firstWordEnd_In.
  - unfold bigWordRightIndex. right_word_bounds Hr wordEndAfterSpace_In.
  - unfold wordRightEndIndex. right_word_bounds Hr spaceAfterWord_In.
  - unfold bigWordRightEndIndex. right_word_bounds Hr spaceAfterWord_In.
  - unfold wordRightStartIndex. right_word_bounds Hr firstWordStart_In.
  - unfold bigWordRightStartIndex. right_word_bounds Hr wordStartAfterSpace_In.
  - unfold wordLeftIndex. left_word_bounds Hr firstWordStart_In.
  - unfold bigWordLeftIndex. left_word_bounds Hr wordStartAfterSpace_In.
Qed.

(** X22: with the cursor within the text, the six word positions to the
    right ([wordRightIndex], [bigWordRightIndex], the two end and the two
    start variants) lie between the cursor and the end of the text, and
    the two to the left between the start of the text and the cursor: a
    word move to the right never moves left, one to the left never moves
    right, and neither leaves the text. *)
Theorem word_moves_stay_on_their_side (b : LineBuffer) :
  inRange b ->
  Forall (fun move : LineBuffer -> LineBuffer =>
            insertionPoint b <= insertionPoint (move b) <= len b
            /\ getBuffer (move b) = getBuffer b)
    [moveWordRight; moveBigWordRightStart; moveWordRightStart;
     moveWordRightEnd; moveBigWordRightEnd]
  /\ insertionPoint b <= bigWordRightIndex b <= len b
  /\ Forall (fun move : LineBuffer -> LineBuffer =>
               0 <= insertionPoint (move b) <= insertionPoint b
               /\ getBuffer (move b) = getBuffer b)
       [moveWordLeft; moveBigWordLeft].
Proof.
  intro Hr. destruct (word_indices_in_range b Hr) as [HR HL].
  repeat match goal with
         | H : Forall _ (_ :: _) |- _ => apply Forall_cons_iff in H; destruct H
         end.
  split; [|split; [assumption|]];
    repeat (apply Forall_cons || apply Forall_nil); split; (assumption || reflexivity).
Qed.

Lemma word_moves_stay_on_their_side_witness :
  insertionPoint emojiAtStart <= insertionPoint (moveWordRight emojiAtStart)
    <= len emojiAtStart.
Proof.
  destruct (word_moves_stay_on_their_side emojiAtStart) as [H _].
  - vm_compute. split; discriminate.
  - apply Forall_cons_iff in H. destruct H as [[H _] _]. exact H.
Defined.

Lemma forallb_of_Forall (p : Z -> bool) (l : JsString) :
  Forall (fun c => p c = true) l -> forallb p l = true.
Proof. intro H. apply forallb_forall. now apply Forall_forall. Qed.

Lemma matchWordTokens_shape (fuel : nat) :
  forall (prev : option Z) (s : JsString),
    (forall q c t, prev = Some q -> s = c :: t ->
                   isWordChar q = true -> isWordChar c = false) ->
    Forall tokenShape (matchWordTokens fuel prev s).
Proof.
  induction fuel as [|fuel IH]; intros prev s Hprev; [constructor|].
  destruct s as [|c t]; [constructor|].
  cbn [matchWordTokens]. unfold matchWordTokenAt.
  assert (Hb : isWordChar c = true ->
               match prev with Some q => isWordChar q | None => false end = false).
  { intro Hw. destruct prev as [q|]; [|reflexivity].
    destruct (isWordChar q) eqn:Eq; [|reflexivity].
    specialize (Hprev q c t eq_refl eq_refl Eq). congruence. }
  destruct (isWordChar c) eqn:Ew.
  - rewrite (Hb eq_refl). cbn [Bool.eqb negb andb].
    destruct (span isWordChar (c :: t)) as [run rest] eqn:Es.
    pose proof (span_run _ _ _ _ Es) as Hrun.
    destruct (span_head _ _ _ _ _ Ew Es) as [run' ->].
    constructor.
    + split; [discriminate|]. left. now apply forallb_of_Forall.
    + apply IH. intros q d t' _ Hrest _. exact (span_stops _ _ _ _ _ _ Es Hrest).
  - replace (negb (Bool.eqb match prev with Some q => isWordChar q | None => false end false)
             && false) with false by (now rewrite andb_false_r).
    destruct (isSpaceChar c) eqn:Esp.
    + destruct (span isSpaceChar (c :: t)) as [run rest] eqn:Es.
      pose proof (span_run _ _ _ _ Es) as Hrun.
      destruct (span_head _ _ _ _ _ Esp Es) as [run' ->].
      constructor.
      * split; [discriminate|]. right. left. now apply forallb_of_Forall.
      * apply IH. intros q d t' [= <-] _ Hq.
        pose proof (last_satisfies isSpaceChar (c :: run') c Esp Hrun) as Hs.
        apply space_is_not_word in Hs.
        change (isWordChar (last (c :: run') c) = true) in Hq. congruence.
    + cbn [negb andb tl]. constructor.
      * split; [discriminate|]. right. right. exists c. repeat split; assumption.
      * apply IH. intros q d t' [= <-] _ Hq. simpl in Hq. congruence.
Qed.

Lemma indexMatches_running (ms : list JsString) :
  forall (k : Z) (pre post : list (Z * JsString)) (index : Z) (word : JsString),
    indexMatches k ms = pre ++ (index, word) :: post ->
    index = k + Js.length (List.concat (map snd pre)).
Proof.
  induction ms as [|m r IH]; intros k pre post index word H.
  - destruct pre; discriminate.
  - cbn [indexMatches] in H. destruct pre as [|[i w] pre].
    + cbn [app] in H. injection H as <- _ _. unfold Js.length. simpl. lia.
    + cbn [app] in H. injection H as <- <- H.
      rewrite (IH _ _ _ _ _ H). cbn [map snd List.concat]. rewrite length_app. lia.
Qed.

Lemma indexMatches_snd (ms : list JsString) (k : Z) : map snd (indexMatches k ms) = ms.
Proof. revert k. induction ms as [|m r IH]; intro k; simpl; [reflexivity|]. now rewrite IH. Qed.

(** X23: [splitWordBoundaries] cuts the text into consecutive tokens
    and drops nothing: the tokens in order give back the text, each one
    is a non-empty run of word units, a non-empty run of whitespace
    units, or a single other unit, and the index stored with a token is
    the total length of the tokens before it. *)
Theorem splitWordBoundaries_partitions_text (text : JsString) :
  List.concat (map snd (splitWordBoundaries text)) = text
  /\ Forall (fun token => tokenShape (snd token)) (splitWordBoundaries text)
  /\ forall pre post index word,
       splitWordBoundaries text = pre ++ (index, word) :: post ->
       index = Js.length (List.concat (map snd pre)).
Proof.
  unfold splitWordBoundaries. split; [|split].
  - rewrite indexMatches_snd. apply matchWordTokens_partition; [lia|discriminate].
  - apply Forall_map. rewrite indexMatches_snd.
    apply matchWordTokens_shape. discriminate.
  - intros pre post index word H. rewrite (indexMatches_running _ _ _ _ _ _ H). lia.
Qed.

(** *** The insertion point stays within the text *)

Lemma graphemeRightIndex_range (b : LineBuffer) : 0 <= graphemeRightIndex b <= len b.
Proof.
  destruct (graphemeRightIndex_cases b) as [->|[Hk [Hlen ->]]].
  - pose proof (length_nonneg (lines b)). unfold len. lia.
  - apply getGraphemeIndices_bounds, item_In. lia.
Qed.

Lemma graphemeLeftIndex_range (b : LineBuffer) : 0 <= graphemeLeftIndex b <= len b.
Proof.
  unfold graphemeLeftIndex.
  pose proof (findIndex_upper (getGraphemeIndices b) (insertionPoint b)) as [Hu|Hu];
    [|discriminate].
  destruct (Z.leb_spec (findIndex (getGraphemeIndices b) (insertionPoint b)) 0).
  - pose proof (length_nonneg (lines b)). unfold len. lia.
  - apply getGraphemeIndices_bounds, item_In. lia.
Qed.

Lemma moveTo_inRange (b : LineBuffer) (p : Z) :
  0 <= p <= len b -> inRange (moveTo p b).
Proof. intro H. exact H. Qed.

Lemma clearRangeSafe_inRange (b : LineBuffer) (start end_ : Z) :
  inRange b -> 0 <= start -> 0 <= end_ -> inRange (clearRangeSafe start end_ b).
Proof.
  intros [H0 Hl] Hs He. unfold clearRangeSafe. rewrite ordered_bounds.
  destruct (Z.leb_spec (len b) (Z.min start end_)) as [Hg|Hg]; [now split|].
  unfold inRange, len in *. cbn [lines insertionPoint].
  rewrite substring_from_zero, substringFrom_skipn.
  unfold Js.length in *. rewrite List.length_app, length_firstn, length_skipn.
  repeat match goal with
         | |- context [?a <? ?b] => destruct (Z.ltb_spec a b)
         end; lia.
Qed.

Lemma replaceRange_inRange (b : LineBuffer) (start end_ : Z) (text : JsString) :
  inRange b -> 0 <= start -> 0 <= end_ -> inRange (replaceRange start end_ text b).
Proof.
  intros [H0 Hl] Hs He. unfold replaceRange. rewrite ordered_bounds.
  destruct (Z.leb_spec (len b) (Z.min start end_)) as [Hg|Hg]; [now split|].
  unfold inRange, len in *. cbn [lines insertionPoint].
  rewrite substring_from_zero, substringFrom_skipn.
  unfold Js.length in *. rewrite !List.length_app, length_firstn, length_skipn.
  repeat match goal with
         | |- context [?a <? ?b] => destruct (Z.ltb_spec a b)
         end; lia.
Qed.

Lemma insertStr_inRange (s : JsString) (b : LineBuffer) :
  inRange b -> inRange (insertStr s b).
Proof.
  intros [H0 Hl]. unfold inRange, len in *. rewrite insertStr_text.
  unfold insertStr. cbn [insertionPoint]. unfold Js.length in *.
  rewrite !List.length_app, length_firstn, length_skipn. lia.
Qed.

Lemma lineFeeds_lastIndexOf (s : JsString) :
  1 <= lineFeeds s -> 0 <= lastIndexOf s [10].
Proof.
  intro H. unfold lineFeeds in H.
  assert (Hin : In 10 s) by (apply (count_occ_In Z.eq_dec); lia).
  apply in_split in Hin. destruct Hin as [l1 [l2 ->]].
  unfold lastIndexOf.
  pose proof (lastOccurrenceUpTo_bounds (l1 ++ 10 :: l2) [10]
                (List.length (l1 ++ 10 :: l2))) as Hb.
  destruct (Z.eq_dec (lastOccurrenceUpTo (l1 ++ 10 :: l2) [10]
                        (List.length (l1 ++ 10 :: l2))) (-1)) as [E|E]; [|lia].
  exfalso.
  apply (lastOccurrenceUpTo_last (l1 ++ 10 :: l2) [10] (List.length (l1 ++ 10 :: l2))
           (Z.of_nat (List.length l1))).
  - rewrite E, List.length_app. simpl. lia.
  - apply occursAt_unit. unfold charCodeAt.
    destruct (Z.ltb_spec (Z.of_nat (List.length l1)) 0); [lia|].
    rewrite Nat2Z.id, nth_error_app2, Nat.sub_diag by lia. reflexivity.
Qed.

Lemma moveLineUp_inRange (b : LineBuffer) : inRange b -> inRange (moveLineUp b).
Proof.
  intros Hr. pose proof Hr as [H0 Hl]. unfold moveLineUp.
  rewrite substring_from_zero.
  set (before := firstn (Z.to_nat (insertionPoint b)) (lines b)).
  pose proof (textBefore_length b Hr) as Hbl. fold before in Hbl.
  pose proof (splitOn_length before) as Hcount.
  destruct (Z.leb_spec (Z.of_nat (List.length (splitOn 10 before))) 1); [exact Hr|].
  pose proof (lineFeeds_lastIndexOf before ltac:(lia)) as Hlast.
  pose proof (lastIndexOf_lineFeed_le before) as Hcls.
  apply moveTo_inRange.
  set (cls := lastIndexOf before [10] + 1) in *.
  pose proof (lastOccurrenceUpTo_bounds before [10] (clampIndex before (cls - 2))) as Hb.
  unfold lastIndexOfFrom.
  assert (Hclamp : Z.of_nat (clampIndex before (cls - 2)) + 1 <= cls)
    by (unfold clampIndex; lia).
  pose proof (length_nonneg
                (nth (Z.to_nat (Z.of_nat (List.length (splitOn 10 before)) - 1 - 1))
                   (splitOn 10 before) [])).
  lia.
Qed.

Lemma moveLineDown_inRange (b : LineBuffer) : inRange b -> inRange (moveLineDown b).
Proof.
  intros Hr. pose proof Hr as [H0 Hl]. unfold moveLineDown.
  rewrite substringFrom_skipn, substring_from_zero.
  set (n := Z.to_nat (insertionPoint b)).
  pose proof (textAfter_length b Hr) as Hal. fold n in Hal.
  destruct (Z.leb_spec (Z.of_nat (List.length (splitOn 10 (skipn n (lines b))))) 1);
    [exact Hr|].
  destruct (splitOn 10 (skipn n (lines b))) as [|l0 [|l1 r]] eqn:Es;
    try (cbn [List.length] in *; lia).
  destruct (splitOn_head _ _ _ Es) as [_ [[Hnil _]|[t [Ht Est]]]]; [discriminate|].
  destruct (splitOn_head _ _ _ Est) as [_ Hcase].
  assert (Htl : Js.length l1 <= Js.length t).
  { unfold Js.length. destruct Hcase as [[_ ->]|[t' [-> _]]]; [lia|].
    rewrite List.length_app. lia. }
  rewrite Ht in Hal. rewrite length_app in Hal.
  change (Js.length (10 :: t)) with (Z.of_nat (S (List.length t))) in Hal.
  unfold Js.length in *.
  pose proof (lastIndexOf_lineFeed_le (firstn n (lines b))) as Hcls.
  pose proof (textBefore_length b Hr) as Hbl. fold n in Hbl.
  unfold Js.length in *.
  apply moveTo_inRange. cbn [nth]. lia.
Qed.

Lemma findCharRight_range (c : JsString) (currentLine : bool) (b : LineBuffer) (p : Z) :
  inRange b -> findCharRight c currentLine b = Some p ->
  insertionPoint b <= p <= len b.
Proof.
  intros Hr. pose proof Hr as [H0 Hl]. unfold findCharRight.
  set (searchEnd := if currentLine then findCurrentLineEnd b else len b).
  pose proof (indexOf_bounds (substring (lines b) (insertionPoint b) searchEnd) c) as Hb.
  rewrite substring_length in Hb.
  assert (Hlen : Z.abs (Z.max 0 (Z.min (insertionPoint b) (Js.length (lines b)))
                        - Z.max 0 (Z.min searchEnd (Js.length (lines b))))
                 <= len b - insertionPoint b).
  { unfold len in *. destruct currentLine; unfold searchEnd; [|lia].
    destruct (findCurrentLineEnd_range b Hr) as [Hrange [[[Hlf _] He]|[_ Hge]]].
    - apply charCodeAt_Some_range in Hlf. unfold len in *. lia.
    - unfold len in *. lia. }
  destruct (Z.eqb_spec (indexOf (substring (lines b) (insertionPoint b) searchEnd) c) (-1));
    [discriminate|].
  intros [= <-]. lia.
Qed.

Lemma findCharLeft_range (c : JsString) (currentLine : bool) (b : LineBuffer) (p : Z) :
  inRange b -> findCharLeft c currentLine b = Some p ->
  0 <= p <= insertionPoint b.
Proof.
  intros Hr. pose proof Hr as [H0 Hl]. unfold findCharLeft.
  set (searchStart := if currentLine
                      then lastIndexOf (substring (lines b) 0 (insertionPoint b)) [10] + 1
                      else 0).
  assert (Hstart : 0 <= searchStart <= insertionPoint b).
  { unfold searchStart. destruct currentLine; [|lia].
    rewrite substring_from_zero.
    pose proof (lastIndexOf_lineFeed_le (firstn (Z.to_nat (insertionPoint b)) (lines b))) as H.
    rewrite (textBefore_length b Hr) in H. exact H. }
  set (searchText := substring (lines b) searchStart (insertionPoint b)).
  pose proof (lastOccurrenceUpTo_bounds searchText c (List.length searchText)) as Hb.
  assert (Hlen : Js.length searchText = insertionPoint b - searchStart).
  { unfold searchText. rewrite substring_length. unfold len in *. lia. }
  unfold lastIndexOf. unfold Js.length in Hlen.
  destruct (Z.eqb_spec (lastOccurrenceUpTo searchText c (List.length searchText)) (-1));
    [discriminate|].
  intros [= <-]. lia.
Qed.

Section CursorStaysInText.

Variables toUpperCase toLowerCase : JsString -> JsString.

Lemma run_inRange (op : Op) (b b' : LineBuffer) :
  inRange b -> rangeArgumentsNonNegative op ->
  run toUpperCase toLowerCase op b = Some b' -> inRange b'.
Proof.
  intros Hr Hargs Hrun. pose proof Hr as [H0 Hl].
  destruct (word_indices_in_range b Hr) as [HR HL].
  repeat match goal with
         | H : Forall _ (_ :: _) |- _ => apply Forall_cons_iff in H; destruct H
         end.
  pose proof (graphemeRightIndex_range b) as HgR.
  pose proof (graphemeLeftIndex_range b) as HgL.
  pose proof (findCurrentLineEnd_range b Hr) as [HlineEnd _].
  pose proof (length_nonneg (lines b)) as Hnn.
  destruct op; cbn [run] in Hrun; try (injection Hrun as <-);
    try (apply moveTo_inRange; lia).
  - (* setBuffer *)
    unfold setBuffer, inRange, len. cbn [lines insertionPoint].
    pose proof (length_nonneg buffer). lia.
  - (* moveToLineStart *)
    unfold moveToLineStart. rewrite substring_from_zero.
    pose proof (lastIndexOf_lineFeed_le (firstn (Z.to_nat (insertionPoint b)) (lines b)))
      as Hcls.
    rewrite (textBefore_length b Hr) in Hcls.
    apply moveTo_inRange.
    destruct (Z.eqb_spec (lastIndexOf (firstn (Z.to_nat (insertionPoint b)) (lines b)) [10])
                (-1)); lia.
  - (* insertChar *) now apply (insertStr_inRange c b).
  - (* insertStr *) now apply insertStr_inRange.
  - (* insertNewline *) now apply (insertStr_inRange [10] b).
  - (* clear *) unfold clear, inRange, len. cbn. lia.
  - (* clearToEnd *)
    unfold clearToEnd, inRange, len. cbn [lines insertionPoint].
    rewrite substring_from_zero, (textBefore_length b Hr). lia.
  - (* clearToLineEnd *)
    unfold clearToLineEnd, inRange, len. cbn [lines insertionPoint].
    rewrite substring_from_zero, substringFrom_skipn, length_app, (textBefore_length b Hr).
    pose proof (length_nonneg (skipn (Z.to_nat (findCurrentLineEnd b)) (lines b))). lia.
  - (* clearToInsertionPoint *)
    unfold clearToInsertionPoint, inRange, len. cbn [lines insertionPoint].
    pose proof (length_nonneg (substringFrom (lines b) (insertionPoint b))). lia.
  - (* clearRangeSafe *) destruct Hargs. now apply clearRangeSafe_inRange.
  - (* replaceRange *) destruct Hargs. now apply replaceRange_inRange.
  - (* uppercaseWord *)
    unfold uppercaseWord, currentWordRange. apply replaceRange_inRange; [assumption|lia|lia].
  - (* lowercaseWord *)
    unfold lowercaseWord, currentWordRange. apply replaceRange_inRange; [assumption|lia|lia].
  - (* switchcaseChar *)
    unfold switchcaseChar in Hrun.
    destruct (len b <=? insertionPoint b); [now injection Hrun as <-|].
    destruct (charAt (lines b) (insertionPoint b)); [|discriminate].
    injection Hrun as <-. apply replaceRange_inRange; [assumption|lia|lia].
  - (* capitalizeChar *)
    unfold capitalizeChar in Hrun.
    destruct (len b <=? insertionPoint b); [now injection Hrun as <-|].
    destruct (charAt (lines b) (insertionPoint b)); [|discriminate].
    injection Hrun as <-. apply moveTo_inRange, graphemeRightIndex_range.
  - (* deleteLeftGrapheme *) apply clearRangeSafe_inRange; [assumption|lia|lia].
  - (* deleteRightGrapheme *) apply clearRangeSafe_inRange; [assumption|lia|lia].
  - (* deleteWordLeft *) apply clearRangeSafe_inRange; [assumption|lia|lia].
  - (* deleteWordRight *) apply clearRangeSafe_inRange; [assumption|lia|lia].
  - (* swapWords *)
    unfold swapWords, currentWordRange.
    destruct (wordRightStartIndex b <? len b); [|assumption].
    apply replaceRange_inRange; [|lia|lia].
    apply replaceRange_inRange; [assumption|lia|lia].
  - (* swapGraphemes *)
    unfold swapGraphemes.
    destruct (len b <=? graphemeRightIndex b); [assumption|].
    destruct (truthy (graphemeLeft b) && truthy (graphemeRight b)); [|assumption].
    assert (Hfirst : inRange (replaceRange (graphemeLeftIndex b) (insertionPoint b)
                                (graphemeRight b) b))
      by (apply replaceRange_inRange; [assumption|lia|lia]).
    apply replaceRange_inRange; [assumption| |lia]. now destruct Hfirst.
  - (* moveLineUp *) now apply moveLineUp_inRange.
  - (* moveLineDown *) now apply moveLineDown_inRange.
  - (* moveRightUntil *)
    unfold moveRightUntil. destruct (findCharRight c currentLine b) as [p|] eqn:E;
      [|assumption].
    apply (findCharRight_range _ _ _ _ Hr) in E. apply moveTo_inRange. lia.
  - unfold moveRightBefore. destruct (findCharRight c currentLine b) as [p|] eqn:E;
      [|assumption].
    apply (findCharRight_range _ _ _ _ Hr) in E. apply moveTo_inRange. lia.
  - unfold moveLeftUntil. destruct (findCharLeft c currentLine b) as [p|] eqn:E;
      [|assumption].
    apply (findCharLeft_range _ _ _ _ Hr) in E. apply moveTo_inRange. lia.
  - unfold moveLeftBefore. destruct (findCharLeft c currentLine b) as [p|] eqn:E;
      [|assumption].
    apply (findCharLeft_range _ _ _ _ Hr) in E. apply moveTo_inRange. lia.
  - unfold deleteRightUntilChar. destruct (findCharRight c currentLine b) as [p|] eqn:E;
      [|assumption].
    apply (findCharRight_range _ _ _ _ Hr) in E.
    apply clearRangeSafe_inRange; [assumption|lia|lia].
  - unfold deleteRightBeforeChar. destruct (findCharRight c currentLine b) as [p|] eqn:E;
      [|assumption].
    apply (findCharRight_range _ _ _ _ Hr) in E.
    apply clearRangeSafe_inRange; [assumption|lia|lia].
  - unfold deleteLeftUntilChar. destruct (findCharLeft c currentLine b) as [p|] eqn:E;
      [|assumption].
    apply (findCharLeft_range _ _ _ _ Hr) in E.
    apply clearRangeSafe_inRange; [assumption|lia|lia].
  - unfold deleteLeftBeforeChar. destruct (findCharLeft c currentLine b) as [p|] eqn:E;
      [|assumption].
    apply (findCharLeft_range _ _ _ _ Hr) in E.
    apply clearRangeSafe_inRange; [assumption|lia|lia].
Qed.

End CursorStaysInText.

(** X24: a mutating method that returns, called with the cursor within
    the text (and, for [clearRangeSafe] and [replaceRange], with bounds
    that are not negative), leaves the cursor within the text:
    [0 <= insertionPoint <= length] is kept by every operation. *)
Theorem every_operation_keeps_cursor_in_text
  (toUpperCase toLowerCase : JsString -> JsString) (op : Op) (b b' : LineBuffer) :
  inRange b -> rangeArgumentsNonNegative op ->
  run toUpperCase toLowerCase op b = Some b' ->
  0 <= getInsertionPoint b' <= len b'.
Proof. exact (run_inRange toUpperCase toLowerCase op b b'). Qed.

Lemma every_operation_keeps_cursor_in_text_witness :
  0 <= getInsertionPoint (moveLineDown emojiOnSecondLine)
    <= len (moveLineDown emojiOnSecondLine).
Proof.
  apply (every_operation_keeps_cursor_in_text (fun s => s) (fun s => s)
           OMoveLineDown emojiOnSecondLine).
  - vm_compute. split; discriminate.
  - exact I.
  - reflexivity.
Defined.

(** X25: starting from [LineBuffer.from] of any string, after any
    sequence of mutating calls that all return (range bounds not
    negative, no direct assignment of the insertion point) the cursor is
    within the text. *)
Theorem cursor_in_text_after_any_calls
  (toUpperCase toLowerCase : JsString -> JsString)
  (input : JsString) (ops : list Op) (b' : LineBuffer) :
  Forall rangeArgumentsNonNegative ops ->
  runAll toUpperCase toLowerCase ops (from input) = Some b' ->
  0 <= getInsertionPoint b' <= len b'.
Proof.
  assert (Hgen : forall ops b, inRange b -> Forall rangeArgumentsNonNegative ops ->
                   runAll toUpperCase toLowerCase ops b = Some b' -> inRange b').
  { clear ops. induction ops as [|op rest IH]; intros b Hr Hall Hrun.
    - cbn in Hrun. now injection Hrun as <-.
    - apply Forall_cons_iff in Hall. destruct Hall as [Hop Hrest].
      cbn [runAll] in Hrun.
      destruct (run toUpperCase toLowerCase op b) as [b1|] eqn:E; [|discriminate].
      apply (IH b1); [|assumption|assumption].
      exact (run_inRange toUpperCase toLowerCase op b b1 Hr Hop E). }
  intros Hall Hrun. apply (Hgen ops (from input)); [|assumption|assumption].
  rewrite from_eq. unfold inRange, len. cbn [lines insertionPoint].
  pose proof (length_nonneg input). lia.
Qed.

Lemma cursor_in_text_after_any_calls_witness :
  0 <= getInsertionPoint (moveWordRight emojiAtStart) <= len (moveWordRight emojiAtStart).
Proof.
  apply (cursor_in_text_after_any_calls (fun s => s) (fun s => s)
           grinningFace [OMoveToStart; OMoveWordRight]).
  - repeat constructor.
  - reflexivity.
Defined.

(** X26: with the cursor within the text no mutating method throws:
    every operation returns a state.  (The two character case
    transforms are the only ones that can throw, and they do so only for
    a negative insertion point.) *)
Theorem no_operation_throws_in_text
  (toUpperCase toLowerCase : JsString -> JsString) (op : Op) (b : LineBuffer) :
  inRange b ->
  exists b', run toUpperCase toLowerCase op b = Some b'.
Proof.
  intros [H0 Hl].
  assert (Hchar : insertionPoint b < len b ->
                  exists ch, charAt (lines b) (insertionPoint b) = Some ch).
  { intro Hlt. unfold charAt, charCodeAt.
    destruct (Z.ltb_spec (insertionPoint b) 0); [lia|].
    destruct (nth_error (lines b) (Z.to_nat (insertionPoint b))) as [u|] eqn:E;
      [now exists [u]|].
    apply nth_error_None in E. unfold len, Js.length in Hlt. lia. }
  destruct op; cbn [run]; try (eexists; reflexivity).
  - unfold switchcaseChar.
    destruct (Z.leb_spec (len b) (insertionPoint b)); [eexists; reflexivity|].
    destruct (Hchar ltac:(lia)) as [ch ->]. eexists; reflexivity.
  - unfold capitalizeChar.
    destruct (Z.leb_spec (len b) (insertionPoint b)); [eexists; reflexivity|].
    destruct (Hchar ltac:(lia)) as [ch ->]. eexists; reflexivity.
Qed.

Lemma no_operation_throws_in_text_witness :
  exists b', run (fun s => s) (fun s => s) OCapitalizeChar (helloAt 2) = Some b'.
Proof.
  apply (no_operation_throws_in_text (fun s => s) (fun s => s) OCapitalizeChar (helloAt 2)).
  vm_compute. split; discriminate.
Defined.

(** *** Deleting up to a character *)

Lemma findCharRight_occurs (c : JsString) (b : LineBuffer) (p : Z) :
  0 <= insertionPoint b -> findCharRight c false b = Some p ->
  occursAt c (lines b) p.
Proof.
  intro H0. unfold findCharRight, len. rewrite substring_to_end by assumption.
  set (rest := skipn (Z.to_nat (insertionPoint b)) (lines b)).
  pose proof (indexOf_bounds rest c) as Hb.
  destruct (Z.eqb_spec (indexOf rest c) (-1)); [discriminate|].
  intros [= <-].
  pose proof (indexOf_occurs rest c ltac:(lia)) as Ho.
  apply occursAt_shift in Ho. destruct Ho as [Ho _].
  now replace (Z.of_nat (Z.to_nat (insertionPoint b)) + indexOf rest c)
    with (insertionPoint b + indexOf rest c) in Ho by lia.
Qed.

(** X27: when [findCharRight(c, false)] finds [c] at offset [p] from a
    cursor within the text, [deleteRightUntilChar(c, false)] removes the
    units from the cursor up to [p] and keeps the character itself:
    afterwards [c] occurs at the cursor, which has not moved.
    [deleteRightBeforeChar] does the same. *)
Theorem deleteRightUntilChar_keeps_the_character
  (c : JsString) (b : LineBuffer) (p : Z) :
  inRange b -> findCharRight c false b = Some p ->
  occursAt c (lines (deleteRightUntilChar c false b)) (insertionPoint b)
  /\ getInsertionPoint (deleteRightUntilChar c false b) = insertionPoint b
  /\ len (deleteRightUntilChar c false b) = len b - (p - insertionPoint b)
  /\ deleteRightBeforeChar c false b = deleteRightUntilChar c false b.
Proof.
  intros Hr Hfind. pose proof Hr as [H0 Hl].
  pose proof (findCharRight_range _ _ _ _ Hr Hfind) as [Hp Hpl].
  pose proof (findCharRight_occurs _ _ _ H0 Hfind) as [_ Ho].
  unfold deleteRightBeforeChar, deleteRightUntilChar. rewrite Hfind.
  split; [|split; [|split; [|reflexivity]]].
  - unfold clearRangeSafe. rewrite ordered_bounds, Z.min_l, Z.max_r by lia.
    destruct (Z.leb_spec (len b) (insertionPoint b)) as [Hg|Hg].
    + split; [lia|]. assert (p = insertionPoint b) by lia. now subst p.
    + cbn [lines]. rewrite Z.min_l by lia.
      rewrite substring_from_zero, substringFrom_skipn.
      split; [lia|]. rewrite skipn_app, length_firstn.
      unfold len, Js.length in *.
      rewrite (skipn_all2 (firstn _ _)) by (rewrite length_firstn; lia).
      replace (Z.to_nat (insertionPoint b)
               - Nat.min (Z.to_nat (insertionPoint b)) (List.length (lines b)))%nat
        with 0%nat by lia.
      exact Ho.
  - unfold clearRangeSafe, getInsertionPoint.
    rewrite ordered_bounds, Z.min_l, Z.max_r by lia.
    destruct (Z.leb_spec (len b) (insertionPoint b)); [reflexivity|].
    cbn [insertionPoint]. now rewrite Z.ltb_irrefl.
  - unfold clearRangeSafe. rewrite ordered_bounds, Z.min_l, Z.max_r by lia.
    destruct (Z.leb_spec (len b) (insertionPoint b)); [lia|].
    unfold len in *. cbn [lines]. rewrite Z.min_l by lia.
    rewrite substring_from_zero, substringFrom_skipn.
    unfold Js.length in *. rewrite List.length_app, length_firstn, length_skipn. lia.
Qed.

Lemma deleteRightUntilChar_keeps_the_character_witness :
  deleteRightUntilChar (lit "l") false (helloAt 0) = at_ (lit "llo") 0
  /\ occursAt (lit "l") (lit "llo") 0.
Proof.
  destruct (deleteRightUntilChar_keeps_the_character (lit "l") (helloAt 0) 2)
    as [Ho _].
  - vm_compute. split; discriminate.
  - reflexivity.
  - split; [reflexivity|exact Ho].
Defined.

(** *** The ranges handed to callers *)

Lemma no_lineFeed_behind_lastIndexOf (b : LineBuffer) (q : Z) :
  lastIndexOf (textBefore b) [10] < q < Js.length (textBefore b) ->
  charCodeAt (lines b) q <> Some 10.
Proof.
  intros Hq Hc.
  apply (lastOccurrenceUpTo_last (textBefore b) [10] (List.length (textBefore b)) q);
    [unfold lastIndexOf, Js.length in Hq; lia|].
  apply occursAt_unit. unfold textBefore.
  rewrite charCodeAt_firstn; [exact Hc|].
  unfold textBefore, Js.length in Hq. rewrite length_firstn in Hq. lia.
Qed.

(** X28: with the cursor within the text, [currentWordRange] and
    [currentLineRange] are ranges of the text that start at or before
    the cursor; the word range ends at or behind it, and so does the
    line range unless the cursor is between a carriage return and a line
    feed; no offset of the line range holds a line feed. *)
Theorem current_ranges_contain_cursor (b : LineBuffer) :
  inRange b ->
  0 <= fst (currentWordRange b) <= insertionPoint b
  /\ insertionPoint b <= snd (currentWordRange b) <= len b
  /\ 0 <= fst (currentLineRange b) <= insertionPoint b
  /\ 0 <= snd (currentLineRange b) <= len b
  /\ (~ betweenCrLf (lines b) (insertionPoint b) ->
      insertionPoint b <= snd (currentLineRange b))
  /\ (forall q, fst (currentLineRange b) <= q < snd (currentLineRange b) ->
                charCodeAt (lines b) q <> Some 10).
Proof.
  intro Hr. pose proof Hr as [H0 Hl].
  destruct (word_indices_in_range b Hr) as [HR HL].
  apply Forall_cons_iff in HR, HL. destruct HR as [HwR _], HL as [HwL _].
  destruct (findCurrentLineEnd_range b Hr) as [Hend Hcase].
  unfold currentWordRange, currentLineRange. cbn [fst snd].
  rewrite substring_from_zero. fold (textBefore b).
  pose proof (lastIndexOf_lineFeed_le (textBefore b)) as Hcls.
  pose proof (textBefore_length b Hr) as Hbl. fold (textBefore b) in Hbl.
  rewrite Hbl in Hcls.
  split; [exact HwL|]. split; [exact HwR|]. split; [exact Hcls|].
  split; [exact Hend|]. split.
  - intro Hnb. destruct Hcase as [[Hb _]|[_ Hge]]; [contradiction|exact Hge].
  - intros q Hq.
    destruct (Z.lt_ge_cases q (insertionPoint b)) as [Hlt|Hge].
    + apply no_lineFeed_behind_lastIndexOf. lia.
    + destruct (findCurrentLineEnd_cases b H0) as [[_ Hno]|[nl [_ [Hc [Hfirst He]]]]].
      * now apply Hno.
      * apply Hfirst. destruct (lineEndBefore_range _ _ Hc) as [_ [Hnear _]]. lia.
Qed.

Lemma current_ranges_contain_cursor_witness :
  currentLineRange emojiOnSecondLine = (0, 1)
  /\ charCodeAt (lines emojiOnSecondLine) 0 <> Some 10.
Proof.
  destruct (current_ranges_contain_cursor emojiOnSecondLine) as [_ [_ [_ [_ [_ H]]]]].
  - vm_compute. split; discriminate.
  - split; [reflexivity|]. apply H. vm_compute. split; [discriminate|reflexivity].
Defined.

(** *** Text without surrogates, and swapping *)

Lemma noSurrogate_offsets_are_indices (b : LineBuffer) (k : Z) :
  noSurrogate (lines b) -> 0 <= k <= len b -> In k (getGraphemeIndices b).
Proof.
  intros Hns [H0 Hl]. unfold len, Js.length in Hl.
  destruct (offset_is_index_or_splits_pair (List.length (lines b)) (lines b) 0 (Z.to_nat k)
              (le_n _) ltac:(lia)) as [Hin|[h [l [Hh [_ [_ [HH _]]]]]]].
  - now replace (0 + Z.of_nat (Z.to_nat k)) with k in Hin by lia.
  - exfalso. apply nth_error_In in Hh.
    unfold noSurrogate in Hns. rewrite Forall_forall in Hns.
    specialize (Hns _ Hh). rewrite HH in Hns. discriminate.
Qed.

Lemma increasing_head_least (l : list Z) (lo x : Z) :
  increasing lo l -> In x l -> item l 0 <= x.
Proof.
  destruct l as [|y r]; [contradiction|]. intros [_ Hr] [->|Hin].
  - unfold item. simpl. lia.
  - unfold item. simpl. pose proof (increasing_lower r y x Hr Hin). lia.
Qed.

Lemma item_tail (y : Z) (r : list Z) (k : Z) :
  1 <= k -> item (y :: r) k = item r (k - 1).
Proof.
  intro Hk. unfold item. replace (Z.to_nat k) with (S (Z.to_nat (k - 1))) by lia.
  reflexivity.
Qed.

Lemma next_index_is_nearest (l : list Z) :
  forall (lo k x : Z),
    increasing lo l -> 0 <= k -> k + 1 < Z.of_nat (List.length l) ->
    In x l -> item l k < x -> item l (k + 1) <= x.
Proof.
  induction l as [|y r IH]; intros lo k x Hinc Hk Hlen Hin Hlt; [contradiction|].
  destruct Hinc as [Hy Hr]. cbn [List.length] in Hlen.
  rewrite item_tail by lia. replace (k + 1 - 1) with k by lia.
  destruct (Z.eq_dec k 0) as [->|Hk0].
  - unfold item at 1 in Hlt. simpl in Hlt.
    destruct Hin as [->|Hin]; [lia|]. exact (increasing_head_least r y x Hr Hin).
  - rewrite item_tail in Hlt by lia.
    destruct Hin as [->|Hin].
    + pose proof (increasing_lower r x _ Hr (item_In r (k - 1) ltac:(lia))). lia.
    + replace k with (k - 1 + 1) at 1 by lia. apply (IH y); auto; lia.
Qed.

Lemma previous_index_is_nearest (l : list Z) :
  forall (lo k x : Z),
    increasing lo l -> 1 <= k < Z.of_nat (List.length l) ->
    In x l -> x < item l k -> x <= item l (k - 1).
Proof.
  induction l as [|y r IH]; intros lo k x Hinc Hk Hin Hlt; [contradiction|].
  destruct Hinc as [Hy Hr]. cbn [List.length] in Hk.
  rewrite item_tail in Hlt by lia.
  destruct (Z.eq_dec k 1) as [->|Hk1].
  - replace (1 - 1) with 0 in * by lia. unfold item at 1. simpl.
    destruct Hin as [->|Hin]; [lia|].
    pose proof (increasing_head_least r y x Hr Hin). lia.
  - rewrite item_tail by lia.
    destruct Hin as [->|Hin].
    + pose proof (increasing_lower r x _ Hr (item_In r (k - 1 - 1) ltac:(lia))). lia.
    + apply (IH y); auto; lia.
Qed.

Lemma noSurrogate_neighbours (b : LineBuffer) :
  noSurrogate (lines b) -> inRange b ->
  (insertionPoint b < len b -> graphemeRightIndex b = insertionPoint b + 1)
  /\ (0 < insertionPoint b -> graphemeLeftIndex b = insertionPoint b - 1).
Proof.
  intros Hns Hr. pose proof Hr as [H0 Hl].
  pose proof (noSurrogate_offsets_are_indices b _ Hns Hr) as Hin.
  pose proof (isValid_of_index b _ Hin) as Hv.
  assert (Hb : mkLineBuffer (lines b) (insertionPoint b) = b) by now destruct b.
  rewrite Hb in Hv.
  destruct (isValid_findIndex b Hv) as [[Hk0 Hklen] Hitem].
  pose proof (getGraphemeIndices_increasing b) as Hinc.
  pose proof (getGraphemeIndices_length b) as HL.
  pose proof (getGraphemeIndices_last b) as Hlast.
  set (ix := getGraphemeIndices b) in *. set (k := findIndex ix (insertionPoint b)) in *.
  split; intro Hip.
  - assert (Hnext : k + 1 < Z.of_nat (List.length ix)).
    { destruct (Z.eq_dec k (Z.of_nat (List.length (arrayFrom (lines b))))) as [E|E]; [|lia].
      rewrite <- E in Hlast. lia. }
    unfold graphemeRightIndex. fold ix k.
    destruct (Z.eqb_spec k (-1)); [lia|].
    destruct (Z.leb_spec (Z.of_nat (List.length ix)) (k + 1)); [lia|]. cbn [orb].
    pose proof (item_step ix (-1) k Hinc Hk0 Hnext) as Hstep.
    pose proof (next_index_is_nearest ix (-1) k (insertionPoint b + 1) Hinc Hk0 Hnext
                  (noSurrogate_offsets_are_indices b (insertionPoint b + 1) Hns ltac:(lia))
                  ltac:(lia)).
    lia.
  - assert (Hk1 : 1 <= k).
    { destruct (Z.eq_dec k 0) as [E|E]; [|lia].
      rewrite E in Hitem. unfold item, ix, getGraphemeIndices in Hitem. simpl in Hitem. lia. }
    unfold graphemeLeftIndex. fold ix k.
    destruct (Z.leb_spec k 0); [lia|].
    pose proof (item_step ix (-1) (k - 1) Hinc ltac:(lia) ltac:(lia)) as Hstep.
    replace (k - 1 + 1) with k in Hstep by lia.
    pose proof (previous_index_is_nearest ix (-1) k (insertionPoint b - 1) Hinc ltac:(lia)
                  (noSurrogate_offsets_are_indices b (insertionPoint b - 1) Hns ltac:(lia))
                  ltac:(lia)).
    lia.
Qed.

Lemma replaceRange_middle (pre mid post new : JsString) (ip : Z) :
  mid ++ post <> [] ->
  replaceRange (Js.length pre) (Js.length pre + Js.length mid) new
    (mkLineBuffer (pre ++ mid ++ post) ip)
  = mkLineBuffer (pre ++ new ++ post)
      (if Js.length pre <? ip
       then if Js.length pre + Js.length mid <? ip
            then Js.length pre + Js.length new + (ip - (Js.length pre + Js.length mid))
            else Js.length pre + Js.length new
       else ip).
Proof.
  intro Hne. unfold replaceRange. rewrite ordered_bounds.
  pose proof (length_nonneg mid). pose proof (length_nonneg post).
  rewrite Z.min_l, Z.max_r by lia.
  unfold len. cbn [lines insertionPoint]. rewrite !length_app.
  assert (Hpos : 0 < Js.length mid + Js.length post).
  { rewrite <- length_app. unfold Js.length.
    destruct (mid ++ post); [contradiction|simpl; lia]. }
  destruct (Z.leb_spec (Js.length pre + (Js.length mid + Js.length post)) (Js.length pre));
    [lia|].
  rewrite Z.min_l by lia.
  rewrite substring_from_zero, substringFrom_skipn.
  unfold Js.length. rewrite Nat2Z.id.
  replace (Z.to_nat (Z.of_nat (List.length pre) + Z.of_nat (List.length mid)))
    with (List.length pre + List.length mid)%nat by lia.
  rewrite firstn_app, Nat.sub_diag, firstn_all. cbn [firstn]. rewrite app_nil_r.
  rewrite (app_assoc pre mid post), skipn_app, List.length_app.
  rewrite (skipn_all2 (pre ++ mid)) by (rewrite List.length_app; lia).
  replace (List.length pre + List.length mid - (List.length pre + List.length mid))%nat
    with 0%nat by lia.
  reflexivity.
Qed.

(** X29: in a text without surrogates, [swapGraphemes] with the cursor
    between two units exchanges them and leaves the cursor between them
    when at least one more unit follows; when the two units are the last
    of the text it changes nothing, and with the cursor at the start of
    any text it changes nothing. *)
Theorem swapGraphemes_needs_a_following_unit
  (pre post : JsString) (x y z : Z) (b : LineBuffer) :
  noSurrogate (pre ++ x :: y :: z :: post) ->
  swapGraphemes (mkLineBuffer (pre ++ x :: y :: z :: post) (Js.length pre + 1))
    = mkLineBuffer (pre ++ y :: x :: z :: post) (Js.length pre + 1)
  /\ swapGraphemes (mkLineBuffer (pre ++ [x; y]) (Js.length pre + 1))
     = mkLineBuffer (pre ++ [x; y]) (Js.length pre + 1)
  /\ (insertionPoint b = 0 -> swapGraphemes b = b).
Proof.
  intro Hns. pose proof (length_nonneg pre) as Hpre.
  assert (Hns2 : noSurrogate (pre ++ [x; y])).
  { unfold noSurrogate in *. rewrite Forall_app in *. destruct Hns as [Hp Hrest].
    split; [exact Hp|]. inversion Hrest as [|? ? Hx Hrest']; subst.
    inversion Hrest' as [|? ? Hy _]; subst. repeat constructor; assumption. }
  split; [|split].
  - set (b0 := mkLineBuffer (pre ++ x :: y :: z :: post) (Js.length pre + 1)).
    assert (Hl : len b0 = Js.length pre + 3 + Js.length post).
    { unfold b0, len. cbn [lines]. rewrite length_app. unfold Js.length. simpl. lia. }
    pose proof (length_nonneg post) as Hpost.
    assert (Hr : inRange b0) by (unfold inRange; rewrite Hl; unfold b0; cbn; lia).
    destruct (noSurrogate_neighbours b0 Hns Hr) as [HR HLf].
    specialize (HR ltac:(rewrite Hl; unfold b0; cbn; lia)).
    specialize (HLf ltac:(unfold b0; cbn; lia)).
    unfold swapGraphemes, graphemeLeft, graphemeRight. rewrite HR, HLf.
    destruct (Z.leb_spec (len b0) (insertionPoint b0 + 1));
      [rewrite Hl in *; unfold b0 in *; cbn [insertionPoint] in *; lia|].
    unfold b0. cbn [lines insertionPoint].
    replace (Js.length pre + 1 - 1) with (Js.length pre) by lia.
    assert (HgL : substring (pre ++ x :: y :: z :: post) (Js.length pre) (Js.length pre + 1)
                  = [x]).
    { rewrite substring_between by (try rewrite length_app; unfold Js.length; simpl; lia).
      unfold Js.length. replace (Z.to_nat (Z.of_nat (List.length pre) + 1)
                                 - Z.to_nat (Z.of_nat (List.length pre)))%nat
        with 1%nat by lia.
      rewrite Nat2Z.id, skipn_app, Nat.sub_diag, skipn_all. reflexivity. }
    assert (HgR : substring (pre ++ x :: y :: z :: post) (Js.length pre + 1)
                    (Js.length pre + 1 + 1) = [y]).
    { rewrite substring_between by (try rewrite length_app; unfold Js.length; simpl; lia).
      unfold Js.length.
      replace (Z.to_nat (Z.of_nat (List.length pre) + 1 + 1)
               - Z.to_nat (Z.of_nat (List.length pre) + 1))%nat with 1%nat by lia.
      replace (Z.to_nat (Z.of_nat (List.length pre) + 1)) with (List.length pre + 1)%nat
        by lia.
      rewrite skipn_app, skipn_all2 by lia.
      replace (List.length pre + 1 - List.length pre)%nat with 1%nat by lia. reflexivity. }
    rewrite HgL, HgR. cbn [truthy andb].
    assert (Hb1 : replaceRange (Js.length pre) (Js.length pre + 1) [y]
                    (mkLineBuffer (pre ++ x :: y :: z :: post) (Js.length pre + 1))
                  = mkLineBuffer (pre ++ y :: y :: z :: post) (Js.length pre + 1)).
    { pose proof (replaceRange_middle pre [x] (y :: z :: post) [y] (Js.length pre + 1)
                    ltac:(discriminate)) as Hm.
      change (Js.length [x]) with 1 in Hm. change (Js.length [y]) with 1 in Hm.
      cbn [app] in Hm. rewrite Hm.
      destruct (Z.ltb_spec (Js.length pre) (Js.length pre + 1)); [|lia].
      now rewrite Z.ltb_irrefl. }
    rewrite Hb1. cbn [insertionPoint].
    pose proof (replaceRange_middle (pre ++ [y]) [y] (z :: post) [x] (Js.length pre + 1)
                  ltac:(discriminate)) as Hm.
    rewrite length_app in Hm.
    change (Js.length [x]) with 1 in Hm. change (Js.length [y]) with 1 in Hm.
    rewrite <- !app_assoc in Hm. cbn [app] in Hm. rewrite Hm.
    now rewrite Z.ltb_irrefl.
  - set (b0 := mkLineBuffer (pre ++ [x; y]) (Js.length pre + 1)).
    assert (Hl : len b0 = Js.length pre + 2).
    { unfold b0, len. cbn [lines]. rewrite length_app. unfold Js.length. simpl. lia. }
    assert (Hr : inRange b0) by (unfold inRange; rewrite Hl; unfold b0; cbn; lia).
    destruct (noSurrogate_neighbours b0 Hns2 Hr) as [HR _].
    specialize (HR ltac:(rewrite Hl; unfold b0; cbn; lia)).
    unfold swapGraphemes. rewrite HR.
    destruct (Z.leb_spec (len b0) (insertionPoint b0 + 1)); [reflexivity|].
    rewrite Hl in *. unfold b0 in *. cbn [insertionPoint] in *. lia.
  - intro Hip. unfold swapGraphemes.
    destruct (len b <=? graphemeRightIndex b); [reflexivity|].
    assert (HgL : graphemeLeft b = []).
    { unfold graphemeLeft, graphemeLeftIndex. rewrite Hip.
      unfold getGraphemeIndices. cbn [findIndex]. rewrite Z.eqb_refl. cbn [Z.leb Z.compare].
      unfold substring, clampIndex. cbn [Z.to_nat Nat.min Nat.max Nat.sub firstn].
      reflexivity. }
    rewrite HgL. reflexivity.
Qed.

Lemma swapGraphemes_needs_a_following_unit_witness :
  swapGraphemes (at_ (lit "abc") 1) = at_ (lit "bac") 1
  /\ swapGraphemes (at_ (lit "ab") 1) = at_ (lit "ab") 1.
Proof.
  split.
  - apply (swapGraphemes_needs_a_following_unit [] [] 97 98 99 new).
    repeat constructor.
  - apply (swapGraphemes_needs_a_following_unit [] [] 97 98 99 new).
    repeat constructor.
Defined.

(** *** Whitespace at and after the cursor *)

Lemma searchSpace_spec (s : JsString) :
  (searchSpace s = -1 /\ forall q u, nth_error s q = Some u -> isSpaceChar u = false)
  \/ (0 <= searchSpace s < Js.length s
      /\ (exists u, nth_error s (Z.to_nat (searchSpace s)) = Some u /\ isSpaceChar u = true)
      /\ forall q u, (q < Z.to_nat (searchSpace s))%nat -> nth_error s q = Some u ->
                     isSpaceChar u = false).
Proof.
  unfold Js.length. induction s as [|c t IH]; cbn [searchSpace].
  - left. split; [reflexivity|]. intros [|q] u; discriminate.
  - destruct (isSpaceChar c) eqn:E.
    + right. split; [simpl; lia|]. split; [exists c; now split|]. intros q u Hq. simpl in Hq. lia.
    + destruct IH as [[Hr Hall]|[Hr [[u [Hu Hsp]] Hbefore]]].
      * left. rewrite Hr. split; [reflexivity|].
        intros [|q] u; simpl; [now intros [= <-]|apply Hall].
      * right. destruct (Z.ltb_spec (searchSpace t) 0); [lia|].
        replace (Z.to_nat (searchSpace t + 1)) with (S (Z.to_nat (searchSpace t))) by lia.
        split; [simpl List.length; lia|]. split; [exists u; now split|].
        intros [|q] v Hq; simpl; [now intros [= <-]|]. apply Hbefore. lia.
Qed.

(** X30: with the cursor within the text, [nextWhitespace] returns the
    offset of the first whitespace unit at or after the cursor, or the
    buffer length when there is none; [onWhitespace] is true exactly
    when that offset is the cursor itself and lies before the end. *)
Theorem nextWhitespace_is_first_whitespace (b : LineBuffer) :
  inRange b ->
  insertionPoint b <= nextWhitespace b <= len b
  /\ (forall q u, insertionPoint b <= q < nextWhitespace b ->
                  charCodeAt (lines b) q = Some u -> isSpaceChar u = false)
  /\ (nextWhitespace b < len b ->
      exists u, charCodeAt (lines b) (nextWhitespace b) = Some u /\ isSpaceChar u = true)
  /\ (onWhitespace b = true <->
      nextWhitespace b = insertionPoint b /\ insertionPoint b < len b).
Proof.
  intro Hr. pose proof Hr as [H0 Hl].
  pose proof (textAfter_length b Hr) as Hal.
  assert (Hat : forall q, insertionPoint b <= q ->
                  charCodeAt (lines b) q
                  = nth_error (skipn (Z.to_nat (insertionPoint b)) (lines b))
                      (Z.to_nat (q - insertionPoint b))).
  { intros q Hq. unfold charCodeAt. destruct (Z.ltb_spec q 0); [lia|].
    rewrite List.nth_error_skipn. f_equal. lia. }
  unfold nextWhitespace, onWhitespace. rewrite substringFrom_skipn.
  set (rest := skipn (Z.to_nat (insertionPoint b)) (lines b)) in *.
  destruct (searchSpace_spec rest) as [[Hs Hall]|[Hs [[u [Hu Hsp]] Hbefore]]].
  - destruct (Z.eqb_spec (searchSpace rest) (-1)); [|lia].
    split; [lia|]. split.
    + intros q v Hq Hc. rewrite Hat in Hc by lia. exact (Hall _ _ Hc).
    + split; [lia|]. split.
      * destruct (Z.leb_spec (len b) (insertionPoint b)); [discriminate|].
        rewrite (Hat _ (Z.le_refl _)).
        destruct (nth_error rest (Z.to_nat (insertionPoint b - insertionPoint b))) as [v|] eqn:E;
          [|discriminate].
        rewrite (Hall _ _ E). discriminate.
      * lia.
  - destruct (Z.eqb_spec (searchSpace rest) (-1)); [lia|].
    split; [lia|]. split.
    + intros q v Hq Hc. rewrite Hat in Hc by lia.
      apply (Hbefore (Z.to_nat (q - insertionPoint b)) v); [lia|exact Hc].
    + split.
      * intros _. exists u. split; [|exact Hsp]. rewrite Hat by lia.
        now replace (insertionPoint b + searchSpace rest - insertionPoint b)
          with (searchSpace rest) by lia.
      * destruct (Z.leb_spec (len b) (insertionPoint b)); [lia|].
        rewrite (Hat _ (Z.le_refl _)). rewrite Z.sub_diag.
        split.
        -- intro Hon. split; [|lia].
           destruct (Z.eq_dec (searchSpace rest) 0) as [E|E]; [lia|].
           destruct (nth_error rest (Z.to_nat 0)) as [v|] eqn:Ev; [|discriminate].
           rewrite (Hbefore (Z.to_nat 0) v ltac:(lia) Ev) in Hon. discriminate.
        -- intros [He _]. assert (E : searchSpace rest = 0) by lia.
           rewrite E in Hu. rewrite Hu. exact Hsp.
Qed.

Lemma nextWhitespace_is_first_whitespace_witness :
  insertionPoint emojiOnSecondLine <= nextWhitespace emojiOnSecondLine
    <= len emojiOnSecondLine
  /\ onWhitespace emojiOnSecondLine = true.
Proof.
  destruct (nextWhitespace_is_first_whitespace emojiOnSecondLine) as [H [_ [_ Hon]]].
  - vm_compute. split; discriminate.
  - split; [exact H|]. apply Hon. vm_compute. split; reflexivity.
Defined.

Lemma isValid_iff_code_point_boundary_witness :
  isValid emojiBetweenLetters = true
  /\ ~ splitsPair (lines emojiBetweenLetters) 3.
Proof.
  split; [reflexivity|].
  apply (isValid_iff_code_point_boundary emojiBetweenLetters). reflexivity.
Defined.
